(** * BirdGame: a shallow embedding of [BirdGame.py] and its verified properties

    The simulation core of the game (entities, spawner, collision resolver,
    state machine, tick, high-score persistence) is embedded as executable
    Rocq functions.  Python floats are IEEE binary64 numbers and are embedded
    as the kernel's primitive floats; Python ints are embedded as [Z].
    A numeric attribute that holds sometimes an int and sometimes a float of
    small magnitude ([bird.vel = -160], [bird.y = 20], [c["x"] = WIDTH + 60])
    is embedded as the float of the same value: Python's arithmetic and
    comparisons do not distinguish the two.

    Code that mutates the game object, draws random numbers, reads the clock,
    touches the high-score file or raises is embedded in a reader/state/
    exception monad [M]: a raised exception leaves the mutations done so far
    in place, as in Python.

    The file has five parts: the program, the vocabulary of its
    specification, lemmas about its operations, the claims, and further
    properties of the code. *)

From Stdlib Require Import ZArith Floats Ascii String Lia.
From Stdlib Require Import DecimalString DecimalPos DecimalZ.
From stdpp Require Import gmap strings list fin_maps.

Set Warnings "-inexact-float".

Local Open Scope Z_scope.

(** ** Python numbers *)

(** [float(n)] for an int [n]: rounding to nearest even.  (Python raises
    OverflowError above the binary64 range; the ints converted below are
    program constants, attributes set from them, the C ints of a rectangle
    and draws from bounded ranges.) *)
Definition Z2f (z : Z) : float := SF2Prim (binary_normalize prec emax z 0 false).
Arguments Z2f : simpl never.

(** Two-argument [min(a, b)] and [max(a, b)] as CPython evaluates them: the
    first argument is kept unless the second is strictly smaller (greater). *)
Definition min2 (a b : float) : float := if (b <? a)%float then b else a.
Definition max2 (a b : float) : float := if (a <? b)%float then b else a.

(** ** Configuration / constants *)

Definition WIDTH : Z := 480.
Definition HEIGHT : Z := 720.
Definition FPS : Z := 60.

Definition BIRD_X : Z := 120.
Definition BIRD_RADIUS : Z := 18.
Definition GRAVITY : float := 1000%float.
Definition JUMP_VELOCITY : float := (-380)%float.
Definition MAX_FALL_SPEED : float := 800%float.

Definition PIPE_WIDTH : Z := 88.
Definition PIPE_GAP : Z := 190.
Definition PIPE_MIN_TOP : Z := 90.
Definition PIPE_SPEED_BASE : float := 180%float.
Definition PIPE_SPAWN_INTERVAL : float := 1.6%float.

Definition POWERUP_TYPES : list string := ["shield"; "slow"; "score"]%string.
Definition POWERUP_RADIUS : Z := 12.
Definition POWERUP_SPAWN_CHANCE : float := 0.12%float.
Definition POWERUP_DURATION : float := 4%float.

Definition START_LIVES : Z := 3.
Definition INVULNERABILITY_AFTER_HIT : float := 1.6%float.

Definition Color : Type := (Z * Z * Z)%type.
Definition PIPE_PALETTE : list Color :=
  [(239, 71, 111); (255, 209, 102); (6, 214, 160); (17, 138, 178); (131, 56, 236)].
Definition POWERUP_COLORS : gmap string Color :=
  <["shield" := (255, 215, 0)]> (<["slow" := (102, 204, 255)]>
    (<["score" := (255, 102, 178)]> ∅)).

(** ** Helper functions *)

(** [clamp(v, a, b) = max(a, min(b, v))]. *)
Definition clamp (v a b : float) : float := max2 a (min2 b v).

(** ** Game objects *)

Module Bird.
Record t := mk {
  x : float;
  y : float;
  vel : float;
  radius : Z;
  alive : bool;
  flap_phase : float
}.

(** [Bird(x, y)] *)
Definition init (x0 y0 : Z) : t :=
  mk (Z2f x0) (Z2f y0) 0 BIRD_RADIUS true 0.

Definition set_vel (v : float) (b : t) : t :=
  mk (x b) (y b) v (radius b) (alive b) (flap_phase b).
Definition set_y (y' : float) (b : t) : t :=
  mk (x b) y' (vel b) (radius b) (alive b) (flap_phase b).

Definition flap (b : t) : t :=
  mk (x b) (y b) JUMP_VELOCITY (radius b) (alive b) 0.4.

Definition update (b : t) (dt : float) : t :=
  let v1 := (vel b + GRAVITY * dt)%float in
  let v2 := clamp v1 (-1000) MAX_FALL_SPEED in
  mk (x b) (y b + v2 * dt)%float v2 (radius b) (alive b)
     (max2 0 (flap_phase b - dt * 3))%float.

Definition get_circle (b : t) : float * float * Z := (x b, y b, radius b).
End Bird.

(** ** Effects

    [Env] is everything the program obtains from outside: the C library's
    [log] and [sin], the raw output of the random generator, the wall clock
    and the fate of each attempt to write the high-score file.  The [n]-th
    external call of a run reads index [n] of the corresponding stream, so a
    fixed [Env] makes a run deterministic and replayable. *)

Inductive exn : Type :=
  ValueError | OverflowError | TypeError | ZeroDivisionError | OSError | SystemExit.

Inductive outcome (A : Type) : Type :=
  | Return (a : A)
  | Raise (e : exn).
Arguments Return {A} a.
Arguments Raise {A} e.

Inductive write_result : Type :=
  | WriteOk      (* the file now holds the text written *)
  | OpenFails    (* [open(..., "w")] raised: the file is as it was *)
  | WriteFails.  (* opened and truncated, then the write raised *)

Record Env := {
  math_log : Z -> float;        (* [math.log] on an int >= 1 *)
  math_sin : float -> float;    (* [math.sin] on a finite or NaN float *)
  rand_bits : nat -> Z;         (* raw integer draws *)
  rand_unit : nat -> float;     (* [random.random()] *)
  clock : nat -> float;         (* [time.time()] *)
  disk_write : nat -> write_result
}.

(** The part of the world outside the Python heap: the text of
    [bird_highscore.txt] ([None]: the file is missing, or cannot be opened,
    read or decoded) and the number of external calls made so far. *)
Record Ext := { hs_file : option string; calls : nat }.

(** A computation over a mutable object of type [St] (for a method, [self]). *)
Definition M (St A : Type) : Type := Env -> Ext -> St -> outcome A * Ext * St.

Definition ret {St A} (a : A) : M St A := fun _ ext s => (Return a, ext, s).

Definition bind {St A B} (m : M St A) (k : A -> M St B) : M St B :=
  fun E ext s =>
    match m E ext s with
    | (Return a, ext', s') => k a E ext' s'
    | (Raise e, ext', s') => (Raise e, ext', s')
    end.

Notation "'let!' x ':=' m 'in' k" := (bind m (fun x => k))
  (at level 10, x name, m at level 100, k at level 200).
Notation "m >>> k" := (bind m (fun _ => k))
  (at level 100, k at level 200, right associativity).

Definition raise {St A} (e : exn) : M St A := fun _ ext s => (Raise e, ext, s).
Definition gets {St A} (f : St -> A) : M St A := fun _ ext s => (Return (f s), ext, s).
Definition modify {St} (f : St -> St) : M St unit := fun _ ext s => (Return tt, ext, f s).

(** [try: body except Exception: handler]: [SystemExit] is not an [Exception]. *)
Definition try_except {St A} (body handler : M St A) : M St A :=
  fun E ext s =>
    match body E ext s with
    | (Raise SystemExit, ext', s') => (Raise SystemExit, ext', s')
    | (Raise _, ext', s') => handler E ext' s'
    | r => r
    end.

(** Run a method on the object [x] and store the object, as the method left
    it (also when it raised), back into the enclosing state with [put]. *)
Definition zoom {St T A} (x : T) (put : T -> St -> St) (m : M T A) : M St A :=
  fun E ext s =>
    match m E ext x with
    | (o, ext', x') => (o, ext', put x' s)
    end.

(** One external call: its index, with the call counter advanced. *)
Definition external {St A} (f : Env -> nat -> A) : M St A :=
  fun E ext s =>
    (Return (f E (calls ext)), {| hs_file := hs_file ext; calls := S (calls ext) |}, s).

Module random.
Definition random {St} : M St float := external rand_unit.
(** [_randbelow(k)]: some integer of [0, k). *)
Definition randbelow {St} (k : Z) : M St Z := external (fun E n => rand_bits E n mod k).
Definition randint {St} (a b : Z) : M St Z :=
  let! r := randbelow (b - a + 1) in ret (a + r).
Definition uniform {St} (a b : float) : M St float :=
  let! r := random in ret (a + (b - a) * r)%float.
Definition choice {St A} (seq : list A) (d : A) : M St A :=
  let! i := randbelow (Z.of_nat (length seq)) in ret (nth (Z.to_nat i) seq d).
End random.

Module time.
Definition time {St} : M St float := external clock.
End time.

Module math.
(** [math.log(n)] for an int [n]; raises on [n <= 0]. *)
Definition log {St} (n : Z) : M St float :=
  if n <=? 0 then raise ValueError else fun E => ret (math_log E n) E.
(** [math.sin(a)]; raises at an infinity. *)
Definition sin {St} (a : float) : M St float :=
  if is_infinity a then raise ValueError else fun E => ret (math_sin E a) E.
End math.

(** [a / b] on floats. *)
Definition fdiv {St} (a b : float) : M St float :=
  if (b =? 0)%float then raise ZeroDivisionError else ret (a / b)%float.

(** [int(f)] for a float: truncation towards zero. *)
Definition int_of_float {St} (f : float) : M St Z :=
  match Prim2SF f with
  | S754_zero _ => ret 0
  | S754_finite s m e =>
      let v := if 0 <=? e then Z.pos m * 2 ^ e else Z.shiftr (Z.pos m) (- e) in
      ret (if s then - v else v)
  | S754_infinity _ => raise OverflowError
  | S754_nan => raise ValueError
  end.

(** ** Geometry *)

(** [pygame.Rect(left, top, width, height)]: four C ints.  A coordinate
    outside the C int range, which pygame reads through a C long, is
    refused here with TypeError. *)
Module Rect.
Record t := mk { left : Z; top : Z; width : Z; height : Z }.
Definition right (r : t) : Z := left r + width r.
Definition bottom (r : t) : Z := top r + height r.

Definition fits_int (z : Z) : bool := (- 2 ^ 31 <=? z) && (z <? 2 ^ 31).

Definition make {St} (l t w h : Z) : M St Rect.t :=
  if fits_int l && fits_int t && fits_int w && fits_int h
  then ret (mk l t w h)
  else raise TypeError.
End Rect.

Definition circle_rect_collision
    (circle_pos : float * float) (circle_rad : Z) (rect : Rect.t) : bool :=
  let '(cx, cy) := circle_pos in
  let closest_x := clamp cx (Z2f (Rect.left rect)) (Z2f (Rect.right rect)) in
  let closest_y := clamp cy (Z2f (Rect.top rect)) (Z2f (Rect.bottom rect)) in
  let dx := (cx - closest_x)%float in
  let dy := (cy - closest_y)%float in
  (dx * dx + dy * dy <=? Z2f (circle_rad * circle_rad))%float.

Module Pipe.
Record t := mk {
  x : float;
  top : Z;
  gap : Z;
  width : Z;
  color : Color;
  passed : bool
}.

(** [Pipe(x, top_height, gap, color)] *)
Definition init (x0 top_height gap0 : Z) (color0 : Color) : t :=
  mk (Z2f x0) top_height gap0 PIPE_WIDTH color0 false.

Definition set_passed (b : bool) (p : t) : t :=
  mk (x p) (top p) (gap p) (width p) (color p) b.

Definition update (p : t) (dt speed : float) : t :=
  mk (x p - speed * dt)%float (top p) (gap p) (width p) (color p) (passed p).

Definition collides_with_circle {St} (p : t) (circle : float * float * Z) : M St bool :=
  let '(cx, cy, cr) := circle in
  let! l := int_of_float (x p) in
  let! top_rect := Rect.make l 0 (width p) (top p) in
  let! l' := int_of_float (x p) in
  let! bottom_rect :=
    Rect.make l' (top p + gap p) (width p) (HEIGHT - (top p + gap p)) in
  ret (circle_rect_collision (cx, cy) cr top_rect
       || circle_rect_collision (cx, cy) cr bottom_rect).

Definition off_screen (p : t) : bool := (x p + Z2f (width p) <? -40)%float.
End Pipe.

Module PowerUp.
Record t := mk {
  x : float;
  y : float;
  type : string;
  radius : Z;
  collected : bool
}.

(** [PowerUp(x, y, ptype)] *)
Definition init (x0 y0 : float) (ptype : string) : t :=
  mk x0 y0 ptype POWERUP_RADIUS false.

Definition set_x (x' : float) (u : t) : t :=
  mk x' (y u) (type u) (radius u) (collected u).
Definition set_y (y' : float) (u : t) : t :=
  mk (x u) y' (type u) (radius u) (collected u).

(** A method on [self]: [x] is already moved when [math.sin] raises. *)
Definition update (dt speed : float) : M t unit :=
  modify (fun u => set_x (x u - speed * dt)%float u) >>>
  let! now := time.time in
  let! x1 := gets x in
  let! s := math.sin (now * 4 + x1)%float in
  modify (fun u => set_y (y u + s * 8 * dt)%float u).

Definition collides_with_circle (u : t) (circle : float * float * Z) : bool :=
  let '(cx, cy, cr) := circle in
  let dx := (cx - x u)%float in
  let dy := (cy - y u)%float in
  (dx * dx + dy * dy <=? Z2f ((cr + radius u) ^ 2))%float.
End PowerUp.

Module Particle.
Record t := mk {
  x : float;
  y : float;
  vx : float;
  vy : float;
  color : Color;
  life : float;
  max_life : float
}.

(** [Particle(x, y, color, vx, vy, life)] *)
Definition init (x0 y0 : float) (color0 : Color) (vx0 vy0 life0 : float) : t :=
  mk x0 y0 vx0 vy0 color0 life0 life0.

Definition update (p : t) (dt : float) : t :=
  let vy1 := (vy p + 300 * dt)%float in
  mk (x p + vx p * dt)%float (y p + vy1 * dt)%float (vx p) vy1 (color p)
     (life p - dt)%float (max_life p).
End Particle.

(** One cloud of the parallax background: [{"x", "y", "r", "speed"}]. *)
Module Cloud.
Record t := mk { x : float; y : Z; r : Z; speed : float }.
End Cloud.

(** ** Main game class *)

(** [Game.state]: the strings "MENU", "PLAYING", "PAUSED", "GAME_OVER". *)
Inductive State : Type := MENU | PLAYING | PAUSED | GAME_OVER.

(** Keys and events of [pygame.event.get()] as far as [handle_input] tells
    them apart. *)
Inductive Key : Type := K_SPACE | K_q | K_p | K_m | K_r | K_other.
Inductive Event : Type := QUIT | KEYDOWN (key : Key) | OTHER_EVENT.

(** The attributes of a [Game] object that hold simulation state (the
    window, clock and fonts are presentation objects). *)
Record Game := mkGame {
  bird : Bird.t;
  pipes : list Pipe.t;
  powerups : list PowerUp.t;
  score : Z;
  lives : Z;
  invulnerable_timer : float;
  powerup_timers : gmap string float;
  pipe_speed : float;
  pipe_spawn_interval : float;
  time_since_last_pipe : float;
  state : State;
  menu_select : Z;
  last_time : float;
  high_score : Z;
  clouds : list Cloud.t;
  particles : list Particle.t;
  sound_on : bool
}.

Definition set_bird (v : Bird.t) (g : Game) : Game :=
  mkGame v (pipes g) (powerups g) (score g) (lives g) (invulnerable_timer g)
         (powerup_timers g) (pipe_speed g) (pipe_spawn_interval g)
         (time_since_last_pipe g) (state g) (menu_select g) (last_time g) (high_score g)
         (clouds g) (particles g) (sound_on g).
Definition set_pipes (v : list Pipe.t) (g : Game) : Game :=
  mkGame (bird g) v (powerups g) (score g) (lives g) (invulnerable_timer g)
         (powerup_timers g) (pipe_speed g) (pipe_spawn_interval g)
         (time_since_last_pipe g) (state g) (menu_select g) (last_time g) (high_score g)
         (clouds g) (particles g) (sound_on g).
Definition set_powerups (v : list PowerUp.t) (g : Game) : Game :=
  mkGame (bird g) (pipes g) v (score g) (lives g) (invulnerable_timer g)
         (powerup_timers g) (pipe_speed g) (pipe_spawn_interval g)
         (time_since_last_pipe g) (state g) (menu_select g) (last_time g) (high_score g)
         (clouds g) (particles g) (sound_on g).
Definition set_score (v : Z) (g : Game) : Game :=
  mkGame (bird g) (pipes g) (powerups g) v (lives g) (invulnerable_timer g)
         (powerup_timers g) (pipe_speed g) (pipe_spawn_interval g)
         (time_since_last_pipe g) (state g) (menu_select g) (last_time g) (high_score g)
         (clouds g) (particles g) (sound_on g).
Definition set_lives (v : Z) (g : Game) : Game :=
  mkGame (bird g) (pipes g) (powerups g) (score g) v (invulnerable_timer g)
         (powerup_timers g) (pipe_speed g) (pipe_spawn_interval g)
         (time_since_last_pipe g) (state g) (menu_select g) (last_time g) (high_score g)
         (clouds g) (particles g) (sound_on g).
Definition set_invulnerable_timer (v : float) (g : Game) : Game :=
  mkGame (bird g) (pipes g) (powerups g) (score g) (lives g) v (powerup_timers g)
         (pipe_speed g) (pipe_spawn_interval g) (time_since_last_pipe g) (state g)
         (menu_select g) (last_time g) (high_score g) (clouds g) (particles g)
         (sound_on g).
Definition set_powerup_timers (v : gmap string float) (g : Game) : Game :=
  mkGame (bird g) (pipes g) (powerups g) (score g) (lives g) (invulnerable_timer g) v
         (pipe_speed g) (pipe_spawn_interval g) (time_since_last_pipe g) (state g)
         (menu_select g) (last_time g) (high_score g) (clouds g) (particles g)
         (sound_on g).
Definition set_time_since_last_pipe (v : float) (g : Game) : Game :=
  mkGame (bird g) (pipes g) (powerups g) (score g) (lives g) (invulnerable_timer g)
         (powerup_timers g) (pipe_speed g) (pipe_spawn_interval g) v (state g)
         (menu_select g) (last_time g) (high_score g) (clouds g) (particles g)
         (sound_on g).
Definition set_state (v : State) (g : Game) : Game :=
  mkGame (bird g) (pipes g) (powerups g) (score g) (lives g) (invulnerable_timer g)
         (powerup_timers g) (pipe_speed g) (pipe_spawn_interval g)
         (time_since_last_pipe g) v (menu_select g) (last_time g) (high_score g)
         (clouds g) (particles g) (sound_on g).
Definition set_last_time (v : float) (g : Game) : Game :=
  mkGame (bird g) (pipes g) (powerups g) (score g) (lives g) (invulnerable_timer g)
         (powerup_timers g) (pipe_speed g) (pipe_spawn_interval g)
         (time_since_last_pipe g) (state g) (menu_select g) v (high_score g) (clouds g)
         (particles g) (sound_on g).
Definition set_high_score (v : Z) (g : Game) : Game :=
  mkGame (bird g) (pipes g) (powerups g) (score g) (lives g) (invulnerable_timer g)
         (powerup_timers g) (pipe_speed g) (pipe_spawn_interval g)
         (time_since_last_pipe g) (state g) (menu_select g) (last_time g) v (clouds g)
         (particles g) (sound_on g).
Definition set_clouds (v : list Cloud.t) (g : Game) : Game :=
  mkGame (bird g) (pipes g) (powerups g) (score g) (lives g) (invulnerable_timer g)
         (powerup_timers g) (pipe_speed g) (pipe_spawn_interval g)
         (time_since_last_pipe g) (state g) (menu_select g) (last_time g) (high_score g)
         v (particles g) (sound_on g).
Definition set_particles (v : list Particle.t) (g : Game) : Game :=
  mkGame (bird g) (pipes g) (powerups g) (score g) (lives g) (invulnerable_timer g)
         (powerup_timers g) (pipe_speed g) (pipe_spawn_interval g)
         (time_since_last_pipe g) (state g) (menu_select g) (last_time g) (high_score g)
         (clouds g) v (sound_on g).
Definition set_sound_on (v : bool) (g : Game) : Game :=
  mkGame (bird g) (pipes g) (powerups g) (score g) (lives g) (invulnerable_timer g)
         (powerup_timers g) (pipe_speed g) (pipe_spawn_interval g)
         (time_since_last_pipe g) (state g) (menu_select g) (last_time g) (high_score g)
         (clouds g) (particles g) v.

(** ** High-score file *)

(** Text is embedded as [string]: code points below 256.  [is_space] is
    Python's [str.isspace] on that range. *)
Definition is_space (c : ascii) : bool :=
  let n := N.to_nat (N_of_ascii c) in
  ((9 <=? n) && (n <=? 13) || (28 <=? n) && (n <=? 32) || (n =? 133) || (n =? 160))%nat.

Fixpoint lstrip (s : list ascii) : list ascii :=
  match s with
  | c :: s' => if is_space c then lstrip s' else s
  | [] => []
  end.

(** [s.strip()] *)
Definition strip (s : string) : string :=
  string_of_list_ascii (rev (lstrip (rev (lstrip (list_ascii_of_string s))))).

Definition digit_of (c : ascii) : option Z :=
  let n := Z.of_N (N_of_ascii c) in
  if (48 <=? n) && (n <=? 57) then Some (n - 48) else None.

(** The digits of a decimal literal, with single underscores allowed between
    digits; [after_digit] tells whether the previous character was a digit. *)
Fixpoint parse_digits (acc : Z) (after_digit : bool) (s : list ascii) : option Z :=
  match s with
  | [] => if after_digit then Some acc else None
  | c :: s' =>
      match digit_of c with
      | Some d => parse_digits (acc * 10 + d) true s'
      | None =>
          if Ascii.eqb c "_" && after_digit then parse_digits acc false s' else None
      end
  end.

(** [sys.int_max_str_digits]: CPython converts no decimal text of more
    digits to an int, and no int of more digits to text (4300 unless the
    interpreter is told otherwise; the program does not change it). *)
Definition MAX_STR_DIGITS : N := 4300.

Definition is_digit (c : ascii) : bool :=
  match digit_of c with Some _ => true | None => false end.
Definition count_digits (s : list ascii) : N := N.of_nat (length (List.filter is_digit s)).
Definition over_limit (s : list ascii) : bool := (MAX_STR_DIGITS <? count_digits s)%N.

(** The whitespace [int] skips around a literal: the whitespace of C
    (9 to 13 and 32) and the Unicode spaces above 127, which it reads as
    blanks.  (The separators 28 to 31, which [str.strip] removes, are not
    among them.) *)
Definition is_int_space (c : ascii) : bool :=
  let n := N.to_nat (N_of_ascii c) in
  ((9 <=? n) && (n <=? 13) || (n =? 32) || (n =? 133) || (n =? 160))%nat.

Fixpoint int_lstrip (s : list ascii) : list ascii :=
  match s with
  | c :: s' => if is_int_space c then int_lstrip s' else s
  | [] => []
  end.

Definition int_strip (s : list ascii) : list ascii :=
  rev (int_lstrip (rev (int_lstrip s))).

(** The digits of a literal after its sign: refused beyond the limit. *)
Definition parse_literal (ds : list ascii) : option Z :=
  if over_limit ds then None else parse_digits 0 false ds.

(** [int(s)] for a string, base 10: surrounding whitespace, an optional sign,
    digits ([None]: ValueError).  (Decimal digits of other scripts lie
    beyond code point 255.) *)
Definition parse_int (s : string) : option Z :=
  match int_strip (list_ascii_of_string s) with
  | c :: ds =>
      if Ascii.eqb c "+" then parse_literal ds
      else if Ascii.eqb c "-" then Z.opp <$> parse_literal ds
      else parse_literal (c :: ds)
  | [] => None
  end.

Definition int_of_str {St} (s : string) : M St Z :=
  match parse_int s with
  | Some z => ret z
  | None => raise ValueError
  end.

(** [str(n)] for an int ([None]: ValueError, beyond the limit). *)
Definition str_of_int (n : Z) : option string :=
  let text := NilZero.string_of_int (Z.to_int n) in
  if over_limit (list_ascii_of_string text) then None else Some text.

Definition str_int {St} (n : Z) : M St string :=
  match str_of_int n with
  | Some text => ret text
  | None => raise ValueError
  end.

(** [open(HIGH_SCORE_FILE, "r")] followed by [f.read()]. *)
Definition read_file {St} : M St string :=
  fun _ ext s =>
    match hs_file ext with
    | Some text => (Return text, ext, s)
    | None => (Raise OSError, ext, s)
    end.

(** [open(HIGH_SCORE_FILE, "w")]: the fate of this attempt to write is read
    here; an open that succeeds leaves the file empty. *)
Definition open_w {St} : M St write_result :=
  fun E ext s =>
    let n := calls ext in
    match disk_write E n with
    | OpenFails => (Raise OSError, {| hs_file := hs_file ext; calls := S n |}, s)
    | r => (Return r, {| hs_file := Some EmptyString; calls := S n |}, s)
    end.

(** [f.write(text)] and the close that ends the [with] block, on a file
    opened with fate [r]. *)
Definition f_write {St} (r : write_result) (text : string) : M St unit :=
  fun _ ext s =>
    match r with
    | WriteOk => (Return tt, {| hs_file := Some text; calls := calls ext |}, s)
    | _ => (Raise OSError, ext, s)
    end.

Definition load_highscore {St} : M St Z :=
  try_except
    (let! text := read_file in
     let t := strip text in
     (* [t or 0] *)
     if String.eqb t EmptyString then ret 0 else int_of_str t)
    (ret 0).

(** [str(int(score))] is evaluated inside the [with] block, after the open. *)
Definition save_highscore {St} (score0 : Z) : M St unit :=
  try_except
    (let! f := open_w in
     let! text := str_int score0 in
     f_write f text)
    (ret tt).

(** ** Game: state management and input *)

(** [Game.reset] *)
Definition reset : M Game unit :=
  modify (fun g =>
    mkGame (Bird.init BIRD_X (HEIGHT / 2)) [] [] 0 START_LIVES 0 ∅
           PIPE_SPEED_BASE PIPE_SPAWN_INTERVAL 0 MENU 0
           (last_time g) (high_score g) (clouds g) (particles g) (sound_on g)) >>>
  let! now := time.time in
  modify (set_last_time now).

(** [Game.quit]: [pygame.quit(); sys.exit()] *)
Definition quit : M Game unit := raise SystemExit.

(** The body of the event loop of [Game.handle_input]. *)
Definition handle_event (event : Event) : M Game unit :=
  match event with
  | QUIT => quit
  | KEYDOWN key =>
      let! st := gets state in
      match st, key with
      | MENU, K_SPACE =>
          modify (set_state PLAYING) >>> modify (set_time_since_last_pipe 0)
      | MENU, K_q => quit
      | PLAYING, K_SPACE => modify (fun g => set_bird (Bird.flap (bird g)) g)
      | PLAYING, K_p => modify (set_state PAUSED)
      | PLAYING, K_m => modify (fun g => set_sound_on (negb (sound_on g)) g)
      | PAUSED, K_p => modify (set_state PLAYING)
      | GAME_OVER, K_r => reset >>> modify (set_state PLAYING)
      | GAME_OVER, K_q => quit
      | _, _ => ret tt
      end
  | OTHER_EVENT => ret tt
  end.

(** [Game.handle_input], on the events [pygame.event.get()] returned. *)
Fixpoint handle_input (events : list Event) : M Game unit :=
  match events with
  | [] => ret tt
  | event :: rest => handle_event event >>> handle_input rest
  end.

(** ** Game logic *)

(** [Game.spawn_pipe] *)
Definition spawn_pipe : M Game unit :=
  let! top_h := random.randint PIPE_MIN_TOP (HEIGHT - PIPE_GAP - 140) in
  let! color := random.choice PIPE_PALETTE (0, 0, 0) in
  let pipe := Pipe.init (WIDTH + 40) top_h PIPE_GAP color in
  modify (fun g => set_pipes (pipes g ++ [pipe]) g) >>>
  let! chance := random.random in
  if (chance <? POWERUP_SPAWN_CHANCE)%float then
    let! off := random.randint 20 60 in
    let px := (Pipe.x pipe + Z2f (Pipe.width pipe / 2) + Z2f off)%float in
    let! u := random.uniform 0.25 0.75 in
    let py := (Z2f top_h + Z2f (Pipe.gap pipe) * u)%float in
    let! ptype := random.choice POWERUP_TYPES EmptyString in
    modify (fun g => set_powerups (powerups g ++ [PowerUp.init px py ptype]) g)
  else ret tt.

(** [Game.apply_powerup] *)
Definition apply_powerup (ptype : string) : M Game unit :=
  if String.eqb ptype "shield" then
    modify (fun g => set_powerup_timers (<["shield" := POWERUP_DURATION]> (powerup_timers g)) g)
  else if String.eqb ptype "slow" then
    modify (fun g => set_powerup_timers (<["slow" := POWERUP_DURATION]> (powerup_timers g)) g)
  else if String.eqb ptype "score" then
    modify (fun g => set_powerup_timers (<["score" := POWERUP_DURATION]> (powerup_timers g)) g)
  else ret tt.

(** [Game.spawn_particles] *)
Fixpoint spawn_particles (x y : float) (color : Color) (count : nat) : M Game unit :=
  match count with
  | O => ret tt
  | S count' =>
      let! vx := random.uniform (-220) 220 in
      let! vy := random.uniform (-200) (-40) in
      let! life := random.uniform 0.5 1.2 in
      modify (fun g => set_particles (particles g ++ [Particle.init x y color vx vy life]) g) >>>
      spawn_particles x y color count'
  end.

(** The high-score check that follows [self.state = "GAME_OVER"] at both
    collision sites of [handle_collisions]. *)
Definition check_highscore : M Game unit :=
  let! sc := gets score in
  let! hs := gets high_score in
  if hs <? sc then
    modify (set_high_score sc) >>>
    let! hs' := gets high_score in
    save_highscore hs'
  else ret tt.

(** The power-up loop of [handle_collisions] over the snapshot
    [list(self.powerups)]: [kept] are the power-ups of the snapshot already
    visited and still in [self.powerups], [todo] those not yet visited.
    ([remove] finds the object itself, as the list holds each object once;
    [pu.collected = True] marks an object that has left the list.) *)
Fixpoint collect_powerups (circ : float * float * Z) (kept todo : list PowerUp.t)
    : M Game unit :=
  match todo with
  | [] => ret tt
  | pu :: rest =>
      if PowerUp.collides_with_circle pu circ then
        apply_powerup (PowerUp.type pu) >>>
        modify (set_powerups (kept ++ rest)) >>>
        let! b := gets bird in
        spawn_particles (Bird.x b) (Bird.y b)
          (default (255, 255, 255) (POWERUP_COLORS !! PowerUp.type pu)) 18 >>>
        (if String.eqb (PowerUp.type pu) "score"
         then modify (fun g => set_score (score g + 2) g) else ret tt) >>>
        collect_powerups circ kept rest
      else collect_powerups circ (kept ++ [pu]) rest
  end.

(** What [handle_collisions] does when the bird hit a pipe (the body of the
    [if] in its pipe loop, up to the [break]). *)
Definition pipe_hit : M Game unit :=
  modify (fun g => set_lives (lives g - 1) g) >>>
  modify (set_invulnerable_timer INVULNERABILITY_AFTER_HIT) >>>
  modify (fun g => set_bird (Bird.set_vel (-160) (bird g)) g) >>>
  let! b := gets bird in
  spawn_particles (Bird.x b) (Bird.y b) (255, 80, 80) 30 >>>
  let! l := gets lives in
  if l <=? 0 then modify (set_state GAME_OVER) >>> check_highscore else ret tt.

(** The pipe loop of [handle_collisions], left by [break] at the first hit. *)
Fixpoint hit_pipes (circ : float * float * Z) (ps : list Pipe.t) : M Game unit :=
  match ps with
  | [] => ret tt
  | pipe :: rest =>
      let! c := Pipe.collides_with_circle pipe circ in
      if c then pipe_hit else hit_pipes circ rest
  end.

(** What [handle_collisions] does when the bird hit the ground while
    vulnerable (the body of its last [if]). *)
Definition ground_hit : M Game unit :=
  modify (fun g => set_lives (lives g - 1) g) >>>
  modify (set_invulnerable_timer INVULNERABILITY_AFTER_HIT) >>>
  let! b' := gets bird in
  spawn_particles (Bird.x b') (Bird.y b') (255, 80, 80) 18 >>>
  modify (fun g => set_bird (Bird.set_vel (-120) (bird g)) g) >>>
  let! l := gets lives in
  if l <=? 0 then modify (set_state GAME_OVER) >>> check_highscore else ret tt.

(** [self.invulnerable_timer <= 0.0 and self.powerup_timers.get("shield", 0.0) <= 0.0] *)
Definition vulnerable (g : Game) : bool :=
  (invulnerable_timer g <=? 0)%float
  && (default 0%float (powerup_timers g !! "shield"%string) <=? 0)%float.

(** [Game.handle_collisions] *)
Definition handle_collisions : M Game unit :=
  let! circ := gets (fun g => Bird.get_circle (bird g)) in
  let! pus := gets powerups in
  collect_powerups circ [] pus >>>
  let! v := gets vulnerable in
  (if v then let! ps := gets pipes in hit_pipes circ ps else ret tt) >>>
  let! b := gets bird in
  if (Z2f (HEIGHT - 30) <=? Bird.y b + Z2f (Bird.radius b))%float then
    let! v' := gets vulnerable in
    if v' then ground_hit else ret tt
  else ret tt.

(** ** Update loop *)

(** The cloud loop of the non-playing branch of [update]. *)
Definition move_cloud (dt : float) (c : Cloud.t) : Cloud.t :=
  let x1 := (Cloud.x c - Cloud.speed c * dt * 0.25)%float in
  Cloud.mk (if (x1 <? -80)%float then Z2f (WIDTH + 60) else x1)
           (Cloud.y c) (Cloud.r c) (Cloud.speed c).

(** [difficulty_factor], [speed] and [spawn_interval] of [update]. *)
Definition difficulty_factor : M Game float :=
  let! sc := gets score in
  let! l := math.log (1 + Z.max 0 sc) in
  ret (1 + l * 0.05)%float.

Definition slow_factor (g : Game) : float :=
  if (0 <? default 0%float (powerup_timers g !! "slow"%string))%float
  then 0.6%float else 1%float.

(** Lines 496-506 of [update]: the spawn timer, the difficulty scaling and
    the spawn; returns [speed]. *)
Definition update_spawn (dt : float) : M Game float :=
  modify (fun g => set_time_since_last_pipe (time_since_last_pipe g + dt)%float g) >>>
  let! d := difficulty_factor in
  let! g := gets id in
  let speed := (pipe_speed g * d * slow_factor g)%float in
  let! q := fdiv (pipe_spawn_interval g) d in
  let spawn_interval := max2 1 q in
  (if (spawn_interval <=? time_since_last_pipe g)%float then
     spawn_pipe >>> modify (set_time_since_last_pipe 0)
   else ret tt) >>>
  ret speed.

(** The pipe loop of [update] over the snapshot [list(self.pipes)]; [kept]
    and [todo] as in [collect_powerups].  Nothing in the loop can raise, so
    the moved pipe is stored once, at the end of its iteration. *)
Fixpoint update_pipes (dt speed : float) (kept todo : list Pipe.t) : M Game unit :=
  match todo with
  | [] => ret tt
  | pipe :: rest =>
      let p1 := Pipe.update pipe dt speed in
      let! b := gets bird in
      let! p2 :=
        (if negb (Pipe.passed p1) && (Pipe.x p1 + Z2f (Pipe.width p1) <? Bird.x b)%float
         then
           modify (fun g => set_score (score g + 1) g) >>>
           spawn_particles (Bird.x b) (Bird.y b) (180, 255, 200) 8 >>>
           ret (Pipe.set_passed true p1)
         else ret p1) in
      if Pipe.off_screen p2 then
        modify (set_pipes (kept ++ rest)) >>> update_pipes dt speed kept rest
      else
        modify (set_pipes (kept ++ p2 :: rest)) >>>
        update_pipes dt speed (kept ++ [p2]) rest
  end.

(** The power-up loop of [update]: the power-up is a shared object, so it is
    stored back as [PowerUp.update] left it, also when that raised. *)
Fixpoint update_powerups (dt speed : float) (kept todo : list PowerUp.t)
    : M Game unit :=
  match todo with
  | [] => ret tt
  | pu :: rest =>
      let! pu' := zoom pu (fun pu' => set_powerups (kept ++ pu' :: rest))
                    (PowerUp.update dt speed >>> gets id) in
      if (PowerUp.x pu' <? -40)%float then
        modify (set_powerups (kept ++ rest)) >>> update_powerups dt speed kept rest
      else update_powerups dt speed (kept ++ [pu']) rest
  end.

(** The timer loop of [update]: every entry is decremented, and the entries
    that reached [<= 0.0] are deleted. *)
Definition tick_timers (dt : float) (timers : gmap string float) : gmap string float :=
  omap (fun t => let t' := (t - dt)%float in if (t' <=? 0)%float then None else Some t')
       timers.

(** [Game.update] *)
Definition update (dt : float) : M Game unit :=
  let! st := gets state in
  match st with
  | PLAYING =>
      let! speed := update_spawn dt in
      modify (fun g => set_bird (Bird.update (bird g) dt) g) >>>
      let! ps := gets pipes in
      update_pipes dt speed [] ps >>>
      let! pus := gets powerups in
      update_powerups dt speed [] pus >>>
      modify (fun g =>
        set_particles
          (List.filter (fun p => negb (Particle.life p <=? 0)%float)
                       (map (fun p => Particle.update p dt) (particles g))) g) >>>
      modify (fun g =>
        if (0 <? invulnerable_timer g)%float
        then set_invulnerable_timer (invulnerable_timer g - dt)%float g else g) >>>
      modify (fun g => set_powerup_timers (tick_timers dt (powerup_timers g)) g) >>>
      handle_collisions >>>
      modify (fun g =>
        if (Bird.y (bird g) <? 20)%float
        then set_bird (Bird.set_vel 0 (Bird.set_y 20 (bird g))) g else g)
  | _ => modify (fun g => set_clouds (map (move_cloud dt) (clouds g)) g)
  end.

(** ** Construction and main loop *)

(** The cloud comprehension of [Game.__init__]. *)
Fixpoint make_clouds {St} (n : nat) : M St (list Cloud.t) :=
  match n with
  | O => ret []
  | S n' =>
      let! x := random.randint 0 WIDTH in
      let! y := random.randint 20 200 in
      let! r := random.randint 20 45 in
      let! speed := random.uniform 10 40 in
      let! cs := make_clouds n' in
      ret (Cloud.mk (Z2f x) y r speed :: cs)
  end.

(** [Game.__init__] from [self.high_score = load_highscore()] on: the
    object it builds.  (The calls before it create the window, the clock and
    the fonts, which are presentation objects; they can raise
    [pygame.error], before any simulation state exists.) *)
Definition Game_init : M unit Game :=
  let! hs := load_highscore in
  let! now := time.time in
  let! cs := make_clouds 10 in
  ret (mkGame (Bird.init BIRD_X (HEIGHT / 2)) [] [] 0 START_LIVES 0 ∅
              PIPE_SPEED_BASE PIPE_SPAWN_INTERVAL 0 MENU 0 now hs cs [] true).

(** One iteration of the loop of [Game.run]: [ms] is what
    [self.clock.tick(FPS)] returned, [events] what the event queue held.
    ([draw] reads the state and changes none of it.) *)
Definition frame (ms : Z) (events : list Event) : M Game unit :=
  let dt := (Z2f ms / 1000)%float in
  handle_input events >>> update dt.

(** [Game.run], on the frames of a finite prefix of the session. *)
Fixpoint run (frames : list (Z * list Event)) : M Game unit :=
  match frames with
  | [] => ret tt
  | (ms, events) :: rest => frame ms events >>> run rest
  end.

(** * Specification vocabulary *)

(** The three components of a finished computation. *)
Definition outcome_of {St A} (r : outcome A * Ext * St) : outcome A := r.1.1.
Definition ext_of {St A} (r : outcome A * Ext * St) : Ext := r.1.2.
Definition state_of {St A} (r : outcome A * Ext * St) : St := r.2.

(** The high-score file is as it was. *)
Definition file_kept (ext ext' : Ext) : Prop := hs_file ext' = hs_file ext.

(** [preserves R m]: however [m] ends, by returning or by raising, it leaves
    the file alone and takes the object to an [R]-related one. *)
Definition preserves {St A} (R : St -> St -> Prop) (m : M St A) : Prop :=
  forall E ext s,
    file_kept ext (ext_of (m E ext s)) /\ R s (state_of (m E ext s)).

Definition anything {T} (_ _ : T) : Prop := True.

(** What the phases of a tick before the timers leave unchanged. *)
Definition quiet (g g' : Game) : Prop :=
  lives g' = lives g /\ state g' = state g /\ high_score g' = high_score g
  /\ powerup_timers g' = powerup_timers g
  /\ invulnerable_timer g' = invulnerable_timer g
  /\ pipe_speed g' = pipe_speed g
  /\ pipe_spawn_interval g' = pipe_spawn_interval g.

(** The shield effect is active: [powerup_timers.get("shield", 0.0) <= 0.0]
    is false. *)
Definition shielded (g : Game) : Prop :=
  (default 0%float (powerup_timers g !! "shield"%string) <=? 0)%float = false.

(** What picking up power-ups may change: the power-up list, the timers
    (an active shield stays active), the particles and the score (upwards). *)
Definition pickup_rel (g g' : Game) : Prop :=
  bird g' = bird g /\ pipes g' = pipes g /\ lives g' = lives g
  /\ invulnerable_timer g' = invulnerable_timer g
  /\ state g' = state g /\ high_score g' = high_score g
  /\ score g <= score g'
  /\ (shielded g -> shielded g').

(** The file after one attempt to save over [old]: [text] is what [str]
    made of the score ([None]: it raised, after the open). *)
Definition written (r : write_result) (old : option string) (text : option string)
    : option string :=
  match r, text with
  | OpenFails, _ => old
  | WriteOk, Some t => Some t
  | _, _ => Some EmptyString
  end.

(** The file after the high-score check of a game that ended with high score
    [hs] and score [sc]: rewritten, by one attempt, when [sc > hs]. *)
Definition file_after (E : Env) (ext : Ext) (hs sc : Z) (ext' : Ext) : Prop :=
  if hs <? sc
  then exists n, hs_file ext' = written (disk_write E n) (hs_file ext) (str_of_int sc)
  else hs_file ext' = hs_file ext.

(** One life lost to a collision, from [(ext, g)] to [(ext', g')]. *)
Definition life_lost (E : Env) (ext : Ext) (g : Game) (ext' : Ext) (g' : Game) : Prop :=
  lives g' = lives g - 1
  /\ invulnerable_timer g' = INVULNERABILITY_AFTER_HIT
  /\ score g' = score g
  /\ powerup_timers g' = powerup_timers g
  /\ Bird.y (bird g') = Bird.y (bird g)
  /\ (if lives g - 1 <=? 0
      then state g' = GAME_OVER
           /\ high_score g' = Z.max (high_score g) (score g)
           /\ file_after E ext (high_score g) (score g) ext'
      else state g' = state g /\ high_score g' = high_score g
           /\ hs_file ext' = hs_file ext).

(** The outcome of collision resolution as far as lives, the state machine
    and the high score go; [sh] is the condition under which the shield
    protects. *)
Definition resolved (sh : Prop) (E : Env) (ext : Ext) (g : Game)
    (ext' : Ext) (g' : Game) : Prop :=
  lives g - 1 <= lives g' <= lives g
  /\ (sh -> lives g' = lives g)
  /\ ((state g' = state g /\ high_score g' = high_score g /\ hs_file ext' = hs_file ext)
      \/ (state g' = GAME_OVER /\ lives g' <= 0
          /\ high_score g' = Z.max (high_score g) (score g')
          /\ file_after E ext (high_score g) (score g') ext')).

(** The shield outlasts this tick's decrement of the timers: the entry is
    not deleted ([t - dt <= 0.0] is false). *)
Definition shield_outlasts (dt : float) (g : Game) : Prop :=
  exists t, powerup_timers g !! "shield"%string = Some t /\ (t - dt <=? 0)%float = false.

(** ** The high-score file *)

(** The high score the file holds: what [load_highscore] reads from it. *)
Definition persisted (ext : Ext) : Z :=
  match hs_file ext with
  | Some text => default 0 (parse_int (strip text))
  | None => 0
  end.

(** A text that does not begin with a space. *)
Definition head_ok (l : list ascii) : Prop :=
  match l with
  | [] => True
  | c :: _ => is_space c = false
  end.

(** The value of a decimal numeral read after the digits worth [acc]. *)
Fixpoint uint_val (acc : Z) (u : Decimal.uint) : Z :=
  match u with
  | Decimal.Nil => acc
  | Decimal.D0 d => uint_val (acc * 10 + 0) d
  | Decimal.D1 d => uint_val (acc * 10 + 1) d
  | Decimal.D2 d => uint_val (acc * 10 + 2) d
  | Decimal.D3 d => uint_val (acc * 10 + 3) d
  | Decimal.D4 d => uint_val (acc * 10 + 4) d
  | Decimal.D5 d => uint_val (acc * 10 + 5) d
  | Decimal.D6 d => uint_val (acc * 10 + 6) d
  | Decimal.D7 d => uint_val (acc * 10 + 7) d
  | Decimal.D8 d => uint_val (acc * 10 + 8) d
  | Decimal.D9 d => uint_val (acc * 10 + 9) d
  end.


(** ** Scoring *)

(** [pipe.x + pipe.width < bird.x]: the right edge of the pipe is left of
    the bird. *)
Definition right_edge_passed (bx : float) (p : Pipe.t) : bool :=
  (Pipe.x p + Z2f (Pipe.width p) <? bx)%float.

(** The pipe scores in this tick: not yet passed, and its right edge is left
    of the bird once it has moved. *)
Definition scores_now (bx dt speed : float) (p : Pipe.t) : bool :=
  negb (Pipe.passed p) && right_edge_passed bx (Pipe.update p dt speed).

(** The pipe as the tick leaves it. *)
Definition pipe_after (bx dt speed : float) (p : Pipe.t) : Pipe.t :=
  Pipe.mk (Pipe.x p - speed * dt)%float (Pipe.top p) (Pipe.gap p) (Pipe.width p)
          (Pipe.color p) (Pipe.passed p || scores_now bx dt speed p).

Definition on_screen (p : Pipe.t) : bool := negb (Pipe.off_screen p).

(** ** Sample worlds *)

(** An environment with a quiet generator, [log 1 = 0] and a disk that
    accepts every write; and one whose disk refuses to open the file. *)
Definition sample_env : Env :=
  {| math_log := fun _ => 0%float; math_sin := fun _ => 0%float;
     rand_bits := fun _ => 0; rand_unit := fun _ => 0.5%float;
     clock := fun _ => 0%float; disk_write := fun _ => WriteOk |}.

Definition read_only_env : Env :=
  {| math_log := fun _ => 0%float; math_sin := fun _ => 0%float;
     rand_bits := fun _ => 0; rand_unit := fun _ => 0.5%float;
     clock := fun _ => 0%float; disk_write := fun _ => OpenFails |}.

Definition no_file : Ext := {| hs_file := None; calls := 0 |}.
Definition file_5 : Ext := {| hs_file := Some "5"%string; calls := 0 |}.

(** The game as [Game.__init__] leaves it (without clouds), and as SPACE
    in the menu starts it. *)
Definition menu_game : Game :=
  mkGame (Bird.init BIRD_X (HEIGHT / 2)) [] [] 0 START_LIVES 0 ∅
         PIPE_SPEED_BASE PIPE_SPAWN_INTERVAL 0 MENU 0 0 0 [] [] true.
Definition playing_game : Game := set_state PLAYING menu_game.

(** A running game with one pipe on its way in. *)
Definition game_with_pipe : Game :=
  set_pipes [Pipe.init (WIDTH + 40) 100 PIPE_GAP (239, 71, 111)] playing_game.

(** The bird just above the ground line ([680 + 18 >= 690]). *)
Definition low_bird : Bird.t := Bird.set_y 680 (Bird.init BIRD_X (HEIGHT / 2)).

(** A running game, the bird on the ground, the shield about to expire. *)
Definition expiring_shield_game : Game :=
  set_powerup_timers (<["shield"%string := 0.01%float]> ∅)
    (set_bird low_bird playing_game).

(** A running game, the bird on the ground, the shield fresh. *)
Definition fresh_shield_game : Game :=
  set_powerup_timers (<["shield"%string := POWERUP_DURATION]> ∅)
    (set_bird low_bird playing_game).

(** The last life, the bird on the ground, score 7 against a high score 5. *)
Definition last_life_game : Game :=
  set_high_score 5 (set_score 7 (set_lives 1 (set_bird low_bird playing_game))).

(** A game that is over. *)
Definition over_game : Game := set_state GAME_OVER (set_lives 0 last_life_game).

(** The gameplay part of the state: the clouds, which are cosmetic, erased. *)
Definition gameplay (g : Game) : Game := set_clouds [] g.

(** A running game, the bird inside the lower pipe and on the ground at once. *)
Definition pipe_and_ground_game : Game :=
  set_pipes [Pipe.init 100 100 PIPE_GAP (239, 71, 111)]
    (set_bird low_bird playing_game).

(** ** Frame conditions *)

(** [keeps R m]: however [m] ends, it takes the object to an [R]-related
    one (the file may change). *)
Definition keeps {St A} (R : St -> St -> Prop) (m : M St A) : Prop :=
  forall E ext s, R s (state_of (m E ext s)).

(** What the phases of a tick after the pipe loop leave unchanged. *)
Definition settled (g g' : Game) : Prop :=
  pipes g' = pipes g
  /\ time_since_last_pipe g' = time_since_last_pipe g
  /\ pipe_speed g' = pipe_speed g
  /\ pipe_spawn_interval g' = pipe_spawn_interval g.

(** The speed and interval attributes hold the values [reset] gives them. *)
Definition based (g : Game) : Prop :=
  pipe_speed g = PIPE_SPEED_BASE /\ pipe_spawn_interval g = PIPE_SPAWN_INTERVAL.

Definition stays_based (g g' : Game) : Prop := based g -> based g'.

(** [R] tolerates every assignment the tick makes after its pipe loop. *)
Definition tolerates (R : Game -> Game -> Prop) : Prop :=
  (forall v g, R g (set_bird v g))
  /\ (forall v g, R g (set_powerups v g))
  /\ (forall v g, R g (set_score v g))
  /\ (forall v g, R g (set_lives v g))
  /\ (forall v g, R g (set_invulnerable_timer v g))
  /\ (forall v g, R g (set_powerup_timers v g))
  /\ (forall v g, R g (set_state v g))
  /\ (forall v g, R g (set_high_score v g))
  /\ (forall v g, R g (set_particles v g)).

(** A running game whose bird, at (120, 50), overlaps the upper part of a
    pipe at x = 110 with top 100 and gap 190. *)
Definition top_hit_game : Game :=
  set_pipes [Pipe.init 110 100 PIPE_GAP (239, 71, 111)]
    (set_bird (Bird.set_y 50 (Bird.init BIRD_X (HEIGHT / 2))) playing_game).

(** ** Input *)

(** The events that end the session when they are acted on. *)
Definition quits (e : Event) : Prop := e = QUIT \/ e = KEYDOWN K_q.

(** The keys [handle_input] has a branch for in each state. *)
Definition listens (st : State) (key : Key) : bool :=
  match st, key with
  | MENU, (K_SPACE | K_q) => true
  | PLAYING, (K_SPACE | K_p | K_m) => true
  | PAUSED, K_p => true
  | GAME_OVER, (K_r | K_q) => true
  | _, _ => false
  end.

(** ** Effects *)

(** The effect table after a pick-up of type [ptype]: a known type gets the
    full duration, whatever was left of it; other types leave the table
    alone. *)
Definition refresh (ptype : string) (timers : gmap string float) : gmap string float :=
  if bool_decide (ptype ∈ POWERUP_TYPES)
  then <[ptype := POWERUP_DURATION]> timers else timers.

(** ** Spawning *)

(** A particle of a burst at [(x, y)] in colour [c], not yet aged. *)
Definition burst_particle (x y : float) (c : Color) (p : Particle.t) : Prop :=
  Particle.x p = x /\ Particle.y p = y /\ Particle.color p = c
  /\ Particle.max_life p = Particle.life p.

(** A pipe as [spawn_pipe] builds it. *)
Definition pipe_ok (p : Pipe.t) : Prop :=
  PIPE_MIN_TOP <= Pipe.top p <= HEIGHT - PIPE_GAP - 140
  /\ Pipe.gap p = PIPE_GAP /\ Pipe.width p = PIPE_WIDTH.

(** A power-up as [spawn_pipe] places it: of a known type, inside the
    horizontal span [584, 624] behind the left edge of the new pipe. *)
Definition powerup_ok (u : PowerUp.t) : Prop :=
  PowerUp.type u ∈ POWERUP_TYPES
  /\ PowerUp.radius u = POWERUP_RADIUS /\ PowerUp.collected u = false
  /\ (584 <=? PowerUp.x u)%float = true /\ (PowerUp.x u <=? 624)%float = true.

(** A cloud as [Game.__init__] draws it. *)
Definition cloud_ok (c : Cloud.t) : Prop :=
  (exists n, 0 <= n <= WIDTH /\ Cloud.x c = Z2f n)
  /\ 20 <= Cloud.y c <= 200 /\ 20 <= Cloud.r c <= 45.

(** ** Text *)

(** A text of whitespace only. *)
Definition blank (s : string) : Prop :=
  Forall (fun c => is_space c = true) (list_ascii_of_string s).

(** ** Collision resolution, step by step *)

(** The power-ups of a list that the circle touches, and those it does not. *)
Definition touched (circ : float * float * Z) (pus : list PowerUp.t) : list PowerUp.t :=
  List.filter (fun pu => PowerUp.collides_with_circle pu circ) pus.
Definition untouched (circ : float * float * Z) (pus : list PowerUp.t) : list PowerUp.t :=
  List.filter (fun pu => negb (PowerUp.collides_with_circle pu circ)) pus.

(** The effect table after picking up [pus], one after the other. *)
Definition refresh_all (pus : list PowerUp.t) (timers : gmap string float)
    : gmap string float :=
  foldl (fun m pu => refresh (PowerUp.type pu) m) timers pus.

(** The score the power-ups of type "score" among [pus] are worth. *)
Definition bonus (pus : list PowerUp.t) : Z :=
  2 * Z.of_nat (length (List.filter (fun pu => String.eqb (PowerUp.type pu) "score") pus)).

(** The end of a hit: with no life left the game is over, and a score above
    the high score becomes the high score. *)
Definition game_over_check (g : Game) : Game :=
  if lives g <=? 0 then
    let g1 := set_state GAME_OVER g in
    if high_score g1 <? score g1 then set_high_score (score g1) g1 else g1
  else g.

(** The game after a hit that bounces the bird at velocity [v] and appends
    the particles [new]. *)
Definition after_hit (v : float) (new : list Particle.t) (g : Game) : Game :=
  game_over_check
    (set_particles (particles g ++ new)
       (set_bird (Bird.set_vel v (bird g))
          (set_invulnerable_timer INVULNERABILITY_AFTER_HIT
             (set_lives (lives g - 1) g)))).

(** The game after the two timer steps of a tick: the invulnerability timer
    decremented while positive, the effect durations decremented and the
    expired ones deleted. *)
Definition tick_clocks (dt : float) (g : Game) : Game :=
  let g1 := if (0 <? invulnerable_timer g)%float
            then set_invulnerable_timer (invulnerable_timer g - dt)%float g else g in
  set_powerup_timers (tick_timers dt (powerup_timers g1)) g1.

(** The last step of a tick: the bird is held at the ceiling. *)
Definition hold_at_ceiling (g : Game) : Game :=
  if (Bird.y (bird g) <? 20)%float
  then set_bird (Bird.set_vel 0 (Bird.set_y 20 (bird g))) g else g.

(** ** States the main loop reaches *)

(** Lives are within [0, START_LIVES], and the game is over exactly when
    none is left. *)
Definition lives_ok (g : Game) : Prop :=
  0 <= lives g <= START_LIVES /\ (state g = GAME_OVER <-> lives g = 0).

(** The bird is at x = BIRD_X with radius BIRD_RADIUS and a velocity within
    [-1000, MAX_FALL_SPEED]. *)
Definition bird_ok (g : Game) : Prop :=
  Bird.x (bird g) = Z2f BIRD_X /\ Bird.radius (bird g) = BIRD_RADIUS
  /\ (-1000 <=? Bird.vel (bird g))%float = true
  /\ (Bird.vel (bird g) <=? MAX_FALL_SPEED)%float = true.

(** Every entry of the effect table is of a known type and holds a duration
    that is not [<= 0]. *)
Definition table_ok (timers : gmap string float) : Prop :=
  forall k t, timers !! k = Some t ->
    k ∈ POWERUP_TYPES /\ (t <=? 0)%float = false.
Definition timers_ok (g : Game) : Prop := table_ok (powerup_timers g).

Definition wellformed (g : Game) : Prop :=
  lives_ok g /\ 0 <= score g /\ bird_ok g /\ timers_ok g
  /\ Forall pipe_ok (pipes g) /\ based g.

(** The value a computation returned ([d] if it raised). *)
Definition returned {St A} (d : A) (r : outcome A * Ext * St) : A :=
  match outcome_of r with
  | Return a => a
  | Raise _ => d
  end.

(** The states at which a session stands after some frames: the game built
    by [Game.__init__], run through the loop of [Game.run]. *)
Definition reachable (g : Game) : Prop :=
  exists E ext frames g0 ext0,
    Game_init E ext tt = (Return g0, ext0, tt)
    /\ g = state_of (run frames E ext0 g0).

(** A session: started with SPACE, a flap, sixty frames of 16 ms. *)
Definition sample_frames : list (Z * list Event) :=
  (16, [KEYDOWN K_SPACE]) :: (16, [KEYDOWN K_SPACE]) :: repeat (16, []) 60.
Definition sample_start : Game := returned menu_game (Game_init sample_env no_file tt).
Definition sample_session : Game :=
  state_of (run sample_frames sample_env
              (ext_of (Game_init sample_env no_file tt)) sample_start).

(** What a tick may change: score and high score only upwards, the state
    only from PLAYING to GAME_OVER; the sound switch, the bird's x and
    radius, the speed and interval attributes and [last_time] not at all. *)
Definition tick_rel (g g' : Game) : Prop :=
  score g <= score g' /\ high_score g <= high_score g'
  /\ lives g' <= lives g
  /\ (state g' = state g \/ state g' = GAME_OVER)
  /\ sound_on g' = sound_on g /\ last_time g' = last_time g
  /\ menu_select g' = menu_select g
  /\ Bird.x (bird g') = Bird.x (bird g)
  /\ Bird.radius (bird g') = Bird.radius (bird g)
  /\ Bird.alive (bird g') = Bird.alive (bird g)
  /\ pipe_speed g' = pipe_speed g /\ pipe_spawn_interval g' = pipe_spawn_interval g.

(** A game in play: well formed, and PLAYING. *)
Definition in_play (g : Game) : Prop := wellformed g /\ state g = PLAYING.

(** ** Exceptions *)

(** The exceptions of [int(float)], [math.sin], [math.log], [pygame.Rect]
    and the float division. *)
Definition tick_error (e : exn) : bool :=
  match e with
  | ValueError | OverflowError | TypeError | ZeroDivisionError => true
  | OSError | SystemExit => false
  end.

(** [m] raises no exception outside [ok]. *)
Definition raises_only {St A} (ok : exn -> bool) (m : M St A) : Prop :=
  forall E ext s e, outcome_of (m E ext s) = Raise e -> ok e = true.

(** ** The power-up loop of a tick *)

(** Where a power-up stands after the move of this tick, and its type. *)
Definition moved_powerup (dt speed : float) (u : PowerUp.t) : float * string :=
  ((PowerUp.x u - speed * dt)%float, PowerUp.type u).

(** Position and type of the power-ups that stay: those not left of
    x = -40 after the move. *)
Definition moved_powerups (dt speed : float) (us : list PowerUp.t)
    : list (float * string) :=
  List.filter (fun p => negb (p.1 <? -40)%float) (map (moved_powerup dt speed) us).

(** What a hit leaves of the game [g], as the result [r] of the hit: one
    life less, the invulnerability timer started, the bird bounced at
    velocity [v] where it was, [n] particles more, the game over when no
    life is left. *)
Definition hit_outcome (v : float) (n : nat) (g : Game)
    (r : outcome unit * Ext * Game) : Prop :=
  let g' := state_of r in
  outcome_of r = Return tt
  /\ lives g' = lives g - 1
  /\ invulnerable_timer g' = INVULNERABILITY_AFTER_HIT
  /\ Bird.vel (bird g') = v
  /\ Bird.x (bird g') = Bird.x (bird g) /\ Bird.y (bird g') = Bird.y (bird g)
  /\ length (particles g') = (length (particles g) + n)%nat
  /\ state g' = (if lives g - 1 <=? 0 then GAME_OVER else state g)
  /\ score g' = score g /\ pipes g' = pipes g /\ powerups g' = powerups g
  /\ powerup_timers g' = powerup_timers g.

(** * Behaviour on sample inputs *)

Example clamp_inside : clamp 5 (-1000) MAX_FALL_SPEED = 5%float.
Proof. reflexivity. Qed.

Example clamp_below : clamp (-2000) (-1000) MAX_FALL_SPEED = (-1000)%float.
Proof. reflexivity. Qed.

Example clamp_above : clamp 900 (-1000) MAX_FALL_SPEED = 800%float.
Proof. reflexivity. Qed.

Example clamp_nan : clamp nan (-1000) MAX_FALL_SPEED = 800%float.
Proof. reflexivity. Qed.

Example int_of_float_truncates :
  outcome_of (int_of_float (-119.7) sample_env no_file tt) = Return (-119).
Proof. reflexivity. Qed.

Example int_of_float_nan :
  outcome_of (@int_of_float unit nan sample_env no_file tt) = Raise ValueError.
Proof. reflexivity. Qed.

Example parse_int_padded :
  parse_int (String " " (String "+" (String "1" (String "_" "000")))) = Some 1000.
Proof. reflexivity. Qed.

Example parse_int_leading_zeros : parse_int "007" = Some 7.
Proof. reflexivity. Qed.

Example parse_int_rejects :
  map parse_int ["-"; "1__0"; "12a"; "_1"; "1_"; "+-5"; "- 5"]%string
  = [None; None; None; None; None; None; None].
Proof. reflexivity. Qed.

Example str_of_int_negative : str_of_int (-15) = Some "-15"%string.
Proof. reflexivity. Qed.

(** [int] does not skip the separator 28, which [strip] removes. *)
Example int_rejects_separator :
  parse_int (String "028" "42") = None /\ strip (String "028" "42") = "42"%string.
Proof. by split. Qed.

(** A text of 4301 digits is refused, leading zeros included. *)
Example int_digit_limit :
  parse_int (string_of_list_ascii (repeat "0"%char 4300 ++ ["7"%char])) = None.
Proof. vm_compute. reflexivity. Qed.

Example first_tick :
  let g := state_of (update 0.016 sample_env no_file playing_game) in
  Bird.vel (bird g) = 16%float /\ time_since_last_pipe g = 0.016%float
  /\ pipes g = [] /\ lives g = 3.
Proof. vm_compute. by split_and!. Qed.

(** A pipe with top 100 and gap 190 and the bird at (pipe.x + 10, 50) with
    radius 18: the bird's circle meets the upper rectangle, and collision
    resolution takes one life and sets the invulnerability timer to 1.6. *)
Example top_pipe_hit :
  let g := state_of (handle_collisions sample_env no_file top_hit_game) in
  lives top_hit_game = 3 /\ lives g = 2
  /\ invulnerable_timer g = 1.6%float /\ Bird.vel (bird g) = (-160)%float.
Proof. vm_compute. by split_and!. Qed.

Example init_reads_file :
  match outcome_of (Game_init sample_env file_5 tt) with
  | Return g => high_score g = 5 /\ state g = MENU /\ length (clouds g) = 10%nat
  | Raise _ => False
  end.
Proof. vm_compute. by split_and!. Qed.

(** * Reasoning about computations *)

Lemma bind_run {St A B} (m : M St A) (k : A -> M St B) E ext s :
  bind m k E ext s =
    match m E ext s with
    | (Return a, ext', s') => k a E ext' s'
    | (Raise e, ext', s') => (Raise e, ext', s')
    end.
Proof. reflexivity. Qed.

Section Preserves.
Context {St : Type} (R : St -> St -> Prop).
Context (R_refl : forall s, R s s).
Context (R_trans : forall s1 s2 s3, R s1 s2 -> R s2 s3 -> R s1 s3).

Lemma preserves_ret {A} (a : A) : preserves R (ret a).
Proof using R_refl. intros E ext s. split; [reflexivity | apply R_refl]. Qed.

Lemma preserves_raise {A} (e : exn) : preserves R (@raise St A e).
Proof using R_refl. intros E ext s. split; [reflexivity | apply R_refl]. Qed.

Lemma preserves_gets {A} (f : St -> A) : preserves R (gets f).
Proof using R_refl. intros E ext s. split; [reflexivity | apply R_refl]. Qed.

Lemma preserves_modify (f : St -> St) :
  (forall s, R s (f s)) -> preserves R (modify f).
Proof using Type. intros H E ext s. split; [reflexivity | apply H]. Qed.

Lemma preserves_external {A} (f : Env -> nat -> A) : preserves R (external f).
Proof using R_refl. intros E ext s. split; [reflexivity | apply R_refl]. Qed.

Lemma preserves_bind {A B} (m : M St A) (k : A -> M St B) :
  preserves R m -> (forall a, preserves R (k a)) -> preserves R (bind m k).
Proof using R_trans.
  intros Hm Hk E ext s. rewrite bind_run.
  destruct (Hm E ext s) as [Hf Hr].
  destruct (m E ext s) as [[[a | e] ext1] s1]; cbn in *; [| done].
  destruct (Hk a E ext1 s1) as [Hf' Hr'].
  split; [unfold file_kept in *; congruence | eauto].
Qed.

Lemma preserves_zoom {T A} (x : T) (put : T -> St -> St) (m : M T A) :
  preserves anything m -> (forall x' s, R s (put x' s)) -> preserves R (zoom x put m).
Proof using Type.
  intros Hm Hput E ext s. unfold zoom.
  destruct (Hm E ext x) as [Hf _].
  destruct (m E ext x) as [[o ext1] x1]; cbn in *. split; [done | apply Hput].
Qed.
End Preserves.

(** One step of a preservation proof: peel a bind, a primitive or a branch. *)
Ltac pres_step :=
  lazymatch goal with
  | |- preserves _ (bind _ _) => apply preserves_bind; [assumption | | intros ?]
  | |- preserves _ (ret _) => apply preserves_ret; assumption
  | |- preserves _ (raise _) => apply preserves_raise; assumption
  | |- preserves _ (gets _) => apply preserves_gets; assumption
  | |- preserves _ (external _) => apply preserves_external; assumption
  | |- preserves _ (if ?c then _ else _) => destruct c
  | |- preserves _ (match ?c with _ => _ end) => destruct c
  | |- preserves _ (fun E => _ E) => unfold ret
  end.

(** The library calls touch neither the object nor the file. *)
Section Library.
Context {St : Type} (R : St -> St -> Prop).
Context (R_refl : forall s, R s s).
Context (R_trans : forall s1 s2 s3, R s1 s2 -> R s2 s3 -> R s1 s3).

Lemma preserves_random : preserves R (@random.random St).
Proof using R_refl. unfold random.random. pres_step. Qed.

Lemma preserves_randbelow k : preserves R (@random.randbelow St k).
Proof using R_refl. unfold random.randbelow. pres_step. Qed.

Lemma preserves_randint a b : preserves R (@random.randint St a b).
Proof using R_refl R_trans.
  unfold random.randint. pres_step; [apply preserves_randbelow | pres_step].
Qed.

Lemma preserves_uniform a b : preserves R (@random.uniform St a b).
Proof using R_refl R_trans.
  unfold random.uniform. pres_step; [apply preserves_random | pres_step].
Qed.

Lemma preserves_choice {A} (l : list A) d : preserves R (@random.choice St A l d).
Proof using R_refl R_trans.
  unfold random.choice. pres_step; [apply preserves_randbelow | pres_step].
Qed.

Lemma preserves_time : preserves R (@time.time St).
Proof using R_refl. unfold time.time. pres_step. Qed.

Lemma preserves_log n : preserves R (@math.log St n).
Proof using R_refl.
  unfold math.log. pres_step; [pres_step |].
  intros E ext s. split; [reflexivity | apply R_refl].
Qed.

Lemma preserves_sin a : preserves R (@math.sin St a).
Proof using R_refl.
  unfold math.sin. pres_step; [pres_step |].
  intros E ext s. split; [reflexivity | apply R_refl].
Qed.

Lemma preserves_fdiv a b : preserves R (@fdiv St a b).
Proof using R_refl. unfold fdiv. pres_step; pres_step. Qed.

Lemma preserves_int_of_float f : preserves R (@int_of_float St f).
Proof using R_refl. unfold int_of_float. pres_step; pres_step. Qed.

Lemma preserves_Rect_make l t w h : preserves R (@Rect.make St l t w h).
Proof using R_refl. unfold Rect.make. pres_step; pres_step. Qed.

Lemma preserves_collides p circ : preserves R (@Pipe.collides_with_circle St p circ).
Proof using R_refl R_trans.
  unfold Pipe.collides_with_circle. destruct circ as [[cx cy] cr].
  repeat (pres_step;
          try apply preserves_int_of_float; try apply preserves_Rect_make).
Qed.
End Library.

Lemma preserves_PowerUp_update dt speed : preserves anything (PowerUp.update dt speed).
Proof.
  assert (Hr : forall s : PowerUp.t, anything s s) by done.
  assert (Ht : forall s1 s2 s3 : PowerUp.t,
             anything s1 s2 -> anything s2 s3 -> anything s1 s3) by done.
  unfold PowerUp.update.
  repeat (first [ pres_step | apply preserves_modify; done
                | apply preserves_time; done | apply preserves_sin; done ]).
Qed.

(** * The game's operations *)

Lemma quiet_refl g : quiet g g.
Proof. by repeat split. Qed.

Lemma quiet_trans g1 g2 g3 : quiet g1 g2 -> quiet g2 g3 -> quiet g1 g3.
Proof. unfold quiet. intros H1 H2. intuition congruence. Qed.

Lemma pickup_rel_refl g : pickup_rel g g.
Proof. unfold pickup_rel. split_and!; auto; lia. Qed.

Lemma pickup_rel_trans g1 g2 g3 :
  pickup_rel g1 g2 -> pickup_rel g2 g3 -> pickup_rel g1 g3.
Proof.
  unfold pickup_rel.
  intros (Hb1 & Hp1 & Hl1 & Hi1 & Hs1 & Hh1 & Hsc1 & Hsh1)
         (Hb2 & Hp2 & Hl2 & Hi2 & Hs2 & Hh2 & Hsc2 & Hsh2).
  split_and!; try congruence; [lia | auto].
Qed.

(** [spawn_particles] always returns, and only appends particles. *)
Lemma spawn_particles_run x y c n E ext g :
  exists new k,
    spawn_particles x y c n E ext g
    = (Return tt, {| hs_file := hs_file ext; calls := (calls ext + k)%nat |},
       set_particles (particles g ++ new) g)
    /\ length new = n.
Proof.
  revert ext g. induction n as [| n IH]; intros ext g.
  - exists [], 0%nat. cbn. rewrite app_nil_r, Nat.add_0_r.
    by destruct ext, g.
  - cbn [spawn_particles].
    unfold random.uniform, random.random, external, bind, ret, modify. cbn.
    match goal with
    | |- context [spawn_particles _ _ _ _ _ ?e ?h] =>
        destruct (IH e h) as (new & k & -> & Hlen)
    end.
    eexists (_ :: new), (3 + k)%nat. cbn. split; [| by rewrite Hlen].
    rewrite <- app_assoc. cbn. do 3 f_equal. lia.
Qed.

Arguments spawn_particles : simpl never.
Arguments check_highscore : simpl never.

Lemma preserves_spawn_particles (R : Game -> Game -> Prop) x y c n :
  (forall v g, R g (set_particles v g)) -> preserves R (spawn_particles x y c n).
Proof.
  intros H E ext g.
  destruct (spawn_particles_run x y c n E ext g) as (new & k & -> & _).
  split; [reflexivity | apply H].
Qed.

(** Peel a computation of the game until a loop or a call remains. *)
Ltac pres_call :=
  lazymatch goal with
  | |- preserves _ (random.randint _ _) => apply preserves_randint; assumption
  | |- preserves _ (random.choice _ _) => apply preserves_choice; assumption
  | |- preserves _ random.random => apply preserves_random; assumption
  | |- preserves _ (random.uniform _ _) => apply preserves_uniform; assumption
  | |- preserves _ time.time => apply preserves_time; assumption
  | |- preserves _ (math.log _) => apply preserves_log; assumption
  | |- preserves _ (fdiv _ _) => apply preserves_fdiv; assumption
  | |- preserves _ (Pipe.collides_with_circle _ _) =>
      apply preserves_collides; assumption
  | |- preserves _ (modify _) => apply preserves_modify; intros; solve [auto]
  | |- preserves _ (spawn_particles _ _ _ _) =>
      apply preserves_spawn_particles; solve [auto]
  end.

Ltac pres_game := repeat (first [pres_step | pres_call]).

Section Tolerant.
Context (R : Game -> Game -> Prop).
Context (R_refl : forall s, R s s).
Context (R_trans : forall s1 s2 s3, R s1 s2 -> R s2 s3 -> R s1 s3).

Lemma preserves_spawn_pipe :
  (forall v g, R g (set_pipes v g)) -> (forall v g, R g (set_powerups v g)) ->
  preserves R spawn_pipe.
Proof using R_refl R_trans. intros Hp Hu. unfold spawn_pipe. pres_game. Qed.

Lemma preserves_difficulty_factor : preserves R difficulty_factor.
Proof using R_refl R_trans. unfold difficulty_factor. pres_game. Qed.

Lemma preserves_update_spawn dt :
  (forall v g, R g (set_time_since_last_pipe v g)) ->
  (forall v g, R g (set_pipes v g)) -> (forall v g, R g (set_powerups v g)) ->
  preserves R (update_spawn dt).
Proof using R_refl R_trans.
  intros Ht Hp Hu. unfold update_spawn.
  pres_game; first [apply preserves_difficulty_factor | by apply preserves_spawn_pipe].
Qed.

Lemma preserves_update_pipes dt speed kept todo :
  (forall v g, R g (set_score v g)) -> (forall v g, R g (set_particles v g)) ->
  (forall v g, R g (set_pipes v g)) ->
  preserves R (update_pipes dt speed kept todo).
Proof using R_refl R_trans.
  intros Hs Hq Hp. revert kept.
  induction todo as [| pipe rest IH]; intros kept; cbn [update_pipes]; pres_game;
    apply IH.
Qed.

Lemma preserves_update_powerups dt speed kept todo :
  (forall v g, R g (set_powerups v g)) ->
  preserves R (update_powerups dt speed kept todo).
Proof using R_refl R_trans.
  intros Hu. revert kept.
  induction todo as [| pu rest IH]; intros kept; cbn [update_powerups]; pres_game;
    try apply IH.
  apply preserves_zoom; [| auto].
  apply preserves_bind; [done | apply preserves_PowerUp_update |].
  intros _. by apply preserves_gets.
Qed.
End Tolerant.

(** ** Collision resolution *)

Lemma save_highscore_run {St} n E ext (s : St) :
  save_highscore n E ext s
  = (Return tt,
     {| hs_file := written (disk_write E (calls ext)) (hs_file ext) (str_of_int n);
        calls := S (calls ext) |}, s).
Proof.
  unfold save_highscore, try_except, open_w, f_write, str_int, written.
  rewrite bind_run.
  destruct (disk_write E (calls ext)); [| done |];
    rewrite bind_run; by destruct (str_of_int n).
Qed.

Lemma check_highscore_run E ext g :
  exists ext',
    check_highscore E ext g
    = (Return tt, ext',
       if high_score g <? score g then set_high_score (score g) g else g)
    /\ file_after E ext (high_score g) (score g) ext'.
Proof.
  unfold check_highscore, file_after, bind, gets. cbn.
  destruct (high_score g <? score g) eqn:Hlt.
  - unfold modify. cbn. rewrite save_highscore_run. eexists. split; [reflexivity |].
    cbn. by exists (calls ext).
  - by exists ext.
Qed.

Lemma collides_run {St} p circ E ext (s : St) :
  exists o, Pipe.collides_with_circle p circ E ext s = (o, ext, s).
Proof.
  destruct circ as [[cx cy] cr].
  unfold Pipe.collides_with_circle, int_of_float, Rect.make, bind, ret, raise.
  destruct (Prim2SF (Pipe.x p)); try (by eexists);
    repeat (match goal with |- context [if ?c then _ else _] => destruct c end);
    by eexists.
Qed.

Lemma shield_duration_active : (POWERUP_DURATION <=? 0)%float = false.
Proof. reflexivity. Qed.

Lemma pickup_rel_timers g k :
  pickup_rel g (set_powerup_timers (<[k := POWERUP_DURATION]> (powerup_timers g)) g).
Proof.
  unfold pickup_rel, shielded. cbn. split_and!; try done; try lia.
  intros Hsh. destruct (decide (k = "shield"%string)) as [-> | Hne].
  - rewrite lookup_insert_eq. apply shield_duration_active.
  - by rewrite lookup_insert_ne.
Qed.

Lemma preserves_apply_powerup ptype : preserves pickup_rel (apply_powerup ptype).
Proof.
  assert (Hr := pickup_rel_refl). assert (Ht := pickup_rel_trans).
  unfold apply_powerup.
  repeat (first [ pres_step
                | apply preserves_modify; intros; apply pickup_rel_timers ]).
Qed.

Lemma preserves_collect_powerups circ kept todo :
  preserves pickup_rel (collect_powerups circ kept todo).
Proof.
  assert (Hr := pickup_rel_refl). assert (Ht := pickup_rel_trans).
  assert (Hu : forall v g, pickup_rel g (set_powerups v g)).
  { intros v g. unfold pickup_rel, shielded. cbn. split_and!; auto; lia. }
  assert (Hq : forall v g, pickup_rel g (set_particles v g)).
  { intros v g. unfold pickup_rel, shielded. cbn. split_and!; auto; lia. }
  assert (Hs : forall g, pickup_rel g (set_score (score g + 2) g)).
  { intros g. unfold pickup_rel, shielded. cbn. split_and!; auto; lia. }
  revert kept. induction todo as [| pu rest IH]; intros kept; cbn [collect_powerups];
    pres_game; first [apply preserves_apply_powerup | apply IH].
Qed.

(** Symbolic execution of straight-line code. *)
Ltac game_simpl :=
  cbn [bird pipes powerups score lives invulnerable_timer powerup_timers pipe_speed
       pipe_spawn_interval time_since_last_pipe state menu_select last_time
       high_score clouds particles sound_on
       set_bird set_pipes set_powerups set_score set_lives set_invulnerable_timer
       set_powerup_timers set_time_since_last_pipe set_state set_last_time
       set_high_score set_clouds set_particles set_sound_on
       Bird.x Bird.y Bird.vel Bird.radius Bird.alive Bird.flap_phase
       Bird.set_vel Bird.set_y
       hs_file calls fst snd outcome_of ext_of state_of] in *.

Ltac mrun :=
  repeat (first [rewrite bind_run | progress cbn [gets modify ret raise]]);
  game_simpl.

Lemma life_lost_intro E ext g parts b k :
  Bird.y b = Bird.y (bird g) ->
  let g1 := set_particles parts (set_bird b
              (set_invulnerable_timer INVULNERABILITY_AFTER_HIT
                 (set_lives (lives g - 1) g))) in
  let ext1 := {| hs_file := hs_file ext; calls := k |} in
  let r := (if lives g - 1 <=? 0
            then modify (set_state GAME_OVER) >>> check_highscore
            else ret tt) E ext1 g1 in
  outcome_of r = Return tt /\ life_lost E ext g (ext_of r) (state_of r).
Proof.
  intros Hy g1 ext1. subst g1 ext1. cbv zeta. unfold life_lost.
  destruct (lives g - 1 <=? 0) eqn:Hl.
  - mrun.
    match goal with
    | |- context [check_highscore E ?e ?h] =>
        destruct (check_highscore_run E e h) as (ext' & -> & Hfile)
    end.
    game_simpl. split; [done |]. unfold file_after in *. game_simpl.
    destruct (high_score g <? score g) eqn:Hhs; game_simpl;
      split_and!; try done; lia.
  - mrun. split; [done |]. by split_and!.
Qed.

Lemma pipe_hit_run E ext g :
  outcome_of (pipe_hit E ext g) = Return tt
  /\ life_lost E ext g (ext_of (pipe_hit E ext g)) (state_of (pipe_hit E ext g)).
Proof.
  unfold pipe_hit. mrun.
  match goal with
  | |- context [spawn_particles ?x ?y ?c ?n E ext ?h] =>
      destruct (spawn_particles_run x y c n E ext h) as (new & k & -> & _)
  end.
  mrun.
  apply (life_lost_intro E ext g (particles g ++ new) (Bird.set_vel (-160) (bird g))).
  reflexivity.
Qed.

Lemma ground_hit_run E ext g :
  outcome_of (ground_hit E ext g) = Return tt
  /\ life_lost E ext g (ext_of (ground_hit E ext g)) (state_of (ground_hit E ext g)).
Proof.
  unfold ground_hit. mrun.
  match goal with
  | |- context [spawn_particles ?x ?y ?c ?n E ext ?h] =>
      destruct (spawn_particles_run x y c n E ext h) as (new & k & -> & _)
  end.
  mrun.
  pose proof (life_lost_intro E ext g (particles g ++ new)
                (Bird.set_vel (-120) (bird g)) (calls ext + k)%nat eq_refl) as H.
  cbv zeta in H. destruct g; exact H.
Qed.

(** The pipe loop either changes nothing (no pipe was hit, or the test of
    some pipe raised) or returns with exactly one life lost. *)
Lemma hit_pipes_effect circ ps E ext g :
  let r := hit_pipes circ ps E ext g in
  (state_of r = g /\ ext_of r = ext)
  \/ (outcome_of r = Return tt /\ life_lost E ext g (ext_of r) (state_of r)).
Proof.
  induction ps as [| pipe rest IH]; cbn [hit_pipes]; [by left |].
  cbv zeta. rewrite bind_run.
  destruct (collides_run pipe circ E ext g) as [[[|] | e] ->]; [| done | by left].
  right. apply pipe_hit_run.
Qed.

Lemma invulnerability_active : (INVULNERABILITY_AFTER_HIT <=? 0)%float = false.
Proof. reflexivity. Qed.

Lemma vulnerable_not_shielded g : vulnerable g = true -> ~ shielded g.
Proof.
  unfold vulnerable, shielded. intros H Hs.
  apply andb_true_iff in H as [_ H]. congruence.
Qed.

Lemma life_lost_invulnerable E ext g ext' g' :
  life_lost E ext g ext' g' -> vulnerable g' = false.
Proof.
  intros (_ & Hi & _). unfold vulnerable. by rewrite Hi, invulnerability_active.
Qed.

Lemma life_lost_file E ext ext1 g ext' g' :
  hs_file ext1 = hs_file ext ->
  life_lost E ext1 g ext' g' -> life_lost E ext g ext' g'.
Proof. unfold life_lost, file_after. intros ->. tauto. Qed.

(** A life lost after the pick-ups, seen from before them. *)
Lemma resolved_of_life_lost E ext g g1 ext' g' :
  pickup_rel g g1 -> vulnerable g1 = true -> life_lost E ext g1 ext' g' ->
  resolved (shielded g) E ext g ext' g'.
Proof.
  intros (Hb & Hp & Hl & Hi & Hs & Hh & Hsc & Hsh) Hv
         (Hl' & Hi' & Hsc' & Ht' & Hy' & Hend).
  unfold resolved. split_and!; [lia | lia | |].
  - intros Hshield. exfalso. by apply (vulnerable_not_shielded g1); auto.
  - destruct (lives g1 - 1 <=? 0) eqn:Hz.
    + right. destruct Hend as (Hst & Hhs & Hf).
      split_and!; [done | lia | congruence | by rewrite Hsc', <- Hh].
    + left. destruct Hend as (Hst & Hhs & Hf). split_and!; congruence.
Qed.

Lemma resolved_of_pickup sh E ext g g1 ext1 :
  pickup_rel g g1 -> hs_file ext1 = hs_file ext -> resolved sh E ext g ext1 g1.
Proof.
  intros (Hb & Hp & Hl & Hi & Hs & Hh & Hsc & Hsh) Hf.
  unfold resolved. split_and!; [lia | lia | auto |]. by left.
Qed.

(** [handle_collisions], however it ends. *)
Lemma handle_collisions_resolved E ext g :
  resolved (shielded g) E ext g (ext_of (handle_collisions E ext g))
                                (state_of (handle_collisions E ext g)).
Proof.
  unfold handle_collisions. mrun.
  destruct (preserves_collect_powerups (Bird.get_circle (bird g)) [] (powerups g) E ext g)
    as [Hf Hpick].
  destruct (collect_powerups _ [] (powerups g) E ext g) as [[[[] | e] ext1] g1];
    game_simpl; [| by apply resolved_of_pickup].
  mrun.
  destruct (vulnerable g1) eqn:Hv.
  - mrun.
    destruct (hit_pipes_effect (Bird.get_circle (bird g)) (pipes g1) E ext1 g1)
      as [[Hg He] | [Ho Hlost]];
      destruct (hit_pipes _ (pipes g1) E ext1 g1) as [[o ext2] g2]; game_simpl.
    + subst g2 ext2. destruct o as [[] | e]; [| by apply resolved_of_pickup].
      mrun.
      destruct (_ <=? _)%float; [| by apply resolved_of_pickup].
      mrun. rewrite Hv.
      destruct (ground_hit_run E ext1 g1) as [_ Hlost].
      apply (resolved_of_life_lost E ext g g1); [done | done |].
      by apply (life_lost_file E ext ext1).
    + subst o. mrun.
      assert (resolved (shielded g) E ext g ext2 g2) as Hres.
      { apply (resolved_of_life_lost E ext g g1); [done | done |].
        by apply (life_lost_file E ext ext1). }
      destruct (_ <=? _)%float; [| done].
      mrun. by rewrite (life_lost_invulnerable _ _ _ _ _ Hlost).
  - mrun. destruct (_ <=? _)%float; [| by apply resolved_of_pickup].
    mrun. rewrite Hv. by apply resolved_of_pickup.
Qed.

(** ** The tick *)

Lemma tick_timers_shield dt g :
  shield_outlasts dt g ->
  shielded (set_powerup_timers (tick_timers dt (powerup_timers g)) g).
Proof.
  intros (t & Ht & Hdt). unfold shielded, tick_timers. game_simpl.
  rewrite lookup_omap, Ht. cbn. by rewrite Hdt.
Qed.

(** Collision resolution seen from the start of the tick. *)
Lemma resolved_from_start (sh sh2 : Prop) E ext g ext2 g2 ext' g' :
  lives g2 = lives g -> state g2 = state g -> high_score g2 = high_score g ->
  hs_file ext2 = hs_file ext -> (sh -> sh2) ->
  resolved sh2 E ext2 g2 ext' g' -> resolved sh E ext g ext' g'.
Proof.
  unfold resolved, file_after. intros -> -> -> -> Hsh (Hl & Hs & Hend).
  split_and!; [lia | lia | auto | done].
Qed.

Lemma resolved_quiet sh E ext g ext' g' :
  quiet g g' -> file_kept ext ext' -> resolved sh E ext g ext' g'.
Proof.
  intros (Hl & Hs & Hh & _) Hf. unfold resolved.
  split_and!; [lia | lia | auto |]. by left.
Qed.

Lemma quiet_tolerant :
  (forall v g, quiet g (set_time_since_last_pipe v g))
  /\ (forall v g, quiet g (set_pipes v g))
  /\ (forall v g, quiet g (set_powerups v g))
  /\ (forall v g, quiet g (set_score v g))
  /\ (forall v g, quiet g (set_particles v g))
  /\ (forall v g, quiet g (set_bird v g)).
Proof. by split_and!; intros v []. Qed.

Lemma update_resolved dt E ext g :
  resolved (shield_outlasts dt g) E ext g
    (ext_of (update dt E ext g)) (state_of (update dt E ext g)).
Proof.
  destruct quiet_tolerant as (Ht & Hp & Hu & Hs & Hq & Hb).
  unfold update. mrun.
  destruct (state g) eqn:Hst;
    try (mrun; apply resolved_quiet; [by destruct g | done]).
  mrun.
  destruct (preserves_update_spawn quiet quiet_refl quiet_trans dt Ht Hp Hu E ext g)
    as [Hf1 Hq1].
  destruct (update_spawn dt E ext g) as [[[speed | e] ext1] g1]; game_simpl;
    [| by apply resolved_quiet].
  mrun.
  set (g1b := set_bird (Bird.update (bird g1) dt) g1).
  assert (Hq1b : quiet g g1b) by (apply (quiet_trans _ g1); [done | apply Hb]).
  clearbody g1b. clear Hq1.
  destruct (preserves_update_pipes quiet quiet_refl quiet_trans dt speed [] (pipes g1)
              Hs Hq Hp E ext1 g1b) as [Hf2 Hq2].
  destruct (update_pipes dt speed [] (pipes g1) E ext1 g1b) as [[[[] | e] ext2] g2];
    game_simpl;
    [| apply resolved_quiet; [by apply (quiet_trans _ g1b) | unfold file_kept in *; congruence]].
  mrun.
  destruct (preserves_update_powerups quiet quiet_refl quiet_trans dt speed []
              (powerups g2) Hu E ext2 g2) as [Hf3 Hq3].
  destruct (update_powerups dt speed [] (powerups g2) E ext2 g2)
    as [[[[] | e] ext3] g3]; game_simpl;
    [| apply resolved_quiet;
       [by apply (quiet_trans _ g1b), (quiet_trans _ g2)
       | unfold file_kept in *; congruence]].
  mrun.
  assert (Hq03 : quiet g g3) by (by apply (quiet_trans _ g1b), (quiet_trans _ g2)).
  assert (Hf03 : hs_file ext3 = hs_file ext) by (unfold file_kept in *; congruence).
  clear Hq1b Hq2 Hq3 Hf1 Hf2 Hf3.
  match goal with
  | |- context [handle_collisions E ext3 ?h] => set (g4 := h)
  end.
  destruct Hq03 as (Hl & Hs3 & Hh & Htm & _).
  assert (H4 : lives g4 = lives g /\ state g4 = state g /\ high_score g4 = high_score g
               /\ (shield_outlasts dt g -> shielded g4)).
  { split_and!.
    - subst g4. by destruct (0 <? _)%float.
    - subst g4. by destruct (0 <? _)%float.
    - subst g4. by destruct (0 <? _)%float.
    - intros Hsh. subst g4.
      assert (Hsh3 : shield_outlasts dt g3) by (unfold shield_outlasts; by rewrite Htm).
      destruct (0 <? _)%float; game_simpl;
        apply (tick_timers_shield dt) in Hsh3; exact Hsh3. }
  destruct H4 as (Hl4 & Hs4 & Hh4 & Hsh4). clearbody g4.
  pose proof (handle_collisions_resolved E ext3 g4) as Hres.
  destruct (handle_collisions E ext3 g4) as [[[[] | e] ext5] g5]; game_simpl.
  - mrun.
    assert (Hres' : resolved (shielded g4) E ext3 g4 ext5
              (if (Bird.y (bird g5) <? 20)%float
               then set_bird (Bird.set_vel 0 (Bird.set_y 20 (bird g5))) g5 else g5)).
    { by destruct (_ <? _)%float. }
    by apply (resolved_from_start _ (shielded g4) E ext g ext3 g4).
  - by apply (resolved_from_start _ (shielded g4) E ext g ext3 g4).
Qed.

(** ** The high-score file *)

Lemma lstrip_head_ok l : head_ok (lstrip l).
Proof.
  induction l as [| c l IH]; cbn; [done |].
  destruct (is_space c) eqn:Hc; [done | by cbn].
Qed.

Lemma lstrip_fixed l : head_ok l -> lstrip l = l.
Proof. destruct l as [| c l]; cbn; [done | by intros ->]. Qed.

Lemma lstrip_suffix l : exists d, l = d ++ lstrip l.
Proof.
  induction l as [| c l [d IH]]; cbn; [by exists [] |].
  destruct (is_space c); [| by exists []].
  exists (c :: d). cbn. by rewrite <- IH.
Qed.

(** The characters [strip] keeps begin and end with a non-space. *)
Lemma strip_chars_fixed s :
  let r := rev (lstrip (rev (lstrip (list_ascii_of_string s)))) in
  lstrip r = r /\ lstrip (rev r) = rev r.
Proof.
  cbv zeta. set (a := lstrip (list_ascii_of_string s)).
  set (b := lstrip (rev a)).
  assert (Ha : head_ok a) by apply lstrip_head_ok.
  assert (Hb : head_ok b) by apply lstrip_head_ok.
  split.
  - apply lstrip_fixed.
    destruct (lstrip_suffix (rev a)) as [d Hd]. fold b in Hd.
    assert (Ha' : a = rev b ++ rev d).
    { rewrite <- (rev_involutive a), Hd, rev_app_distr. done. }
    destruct (rev b) as [| c r] eqn:Hr; [done |].
    rewrite Ha' in Ha. exact Ha.
  - rewrite rev_involutive. by apply lstrip_fixed.
Qed.

Lemma strip_idempotent s : strip (strip s) = strip s.
Proof.
  destruct (strip_chars_fixed s) as [H1 H2]. cbv zeta in *.
  unfold strip at 1. unfold strip at 1.
  rewrite list_ascii_of_string_of_list_ascii, H1, H2, rev_involutive. done.
Qed.

Lemma load_highscore_run {St} E ext (s : St) :
  load_highscore E ext s = (Return (persisted ext), ext, s).
Proof.
  unfold load_highscore, try_except, persisted, read_file. rewrite bind_run.
  destruct (hs_file ext) as [text |]; [| done].
  destruct (String.eqb_spec (strip text) EmptyString) as [Hempty | Hne].
  - by rewrite Hempty.
  - unfold int_of_str. by destruct (parse_int (strip text)).
Qed.

Lemma uint_chars_no_space u :
  Forall (fun c => is_space c = false)
         (list_ascii_of_string (NilEmpty.string_of_uint u)).
Proof. induction u; cbn; constructor; done. Qed.

Lemma parse_digits_uint u : forall acc b,
  parse_digits acc b (list_ascii_of_string (NilEmpty.string_of_uint u))
  = match u with
    | Decimal.Nil => if b then Some acc else None
    | _ => Some (uint_val acc u)
    end.
Proof.
  induction u as [| u IH | u IH | u IH | u IH | u IH | u IH | u IH | u IH | u IH | u IH];
    intros acc b; [done | ..];
    cbn [NilEmpty.string_of_uint list_ascii_of_string parse_digits uint_val].
  all: match goal with
       | |- context [digit_of ?c] =>
           let d := eval vm_compute in (digit_of c) in
           change (digit_of c) with d
       end.
  all: cbv iota; rewrite IH; by destruct u.
Qed.

Lemma uint_val_pos u : forall acc : positive,
  uint_val (Z.pos acc) u = Z.pos (Pos.of_uint_acc u acc).
Proof.
  induction u; intros acc; cbn [uint_val Pos.of_uint_acc]; [done | ..];
    rewrite <- IHu; f_equal; lia.
Qed.

Lemma uint_val_0 u : uint_val 0 u = Z.of_N (Pos.of_uint u).
Proof.
  induction u; cbn [uint_val Pos.of_uint]; [done | done | ..];
    cbn [Z.of_N]; rewrite <- uint_val_pos; f_equal.
Qed.

Lemma head_ok_Forall l : Forall (fun c => is_space c = false) l -> head_ok l.
Proof. by destruct 1. Qed.

Lemma strip_fixed s :
  Forall (fun c => is_space c = false) (list_ascii_of_string s) -> strip s = s.
Proof.
  intros H. unfold strip.
  rewrite (lstrip_fixed _ (head_ok_Forall _ H)).
  rewrite lstrip_fixed, rev_involutive, string_of_list_ascii_of_string; [done |].
  apply head_ok_Forall. by apply Forall_rev.
Qed.

Lemma uint_first_char u :
  u <> Decimal.Nil ->
  exists c rest,
    list_ascii_of_string (NilEmpty.string_of_uint u) = c :: rest
    /\ Ascii.eqb c "+" = false /\ Ascii.eqb c "-" = false.
Proof. destruct u; [done | ..]; intros _; eexists _, _; by split_and!. Qed.

Lemma uint_chars_no_int_space u :
  Forall (fun c => is_int_space c = false)
         (list_ascii_of_string (NilEmpty.string_of_uint u)).
Proof. induction u; cbn; constructor; done. Qed.

Lemma int_lstrip_fixed l : Forall (fun c => is_int_space c = false) l -> int_lstrip l = l.
Proof. destruct 1 as [| c l Hc _]; cbn; [done | by rewrite Hc]. Qed.

Lemma int_strip_fixed l : Forall (fun c => is_int_space c = false) l -> int_strip l = l.
Proof.
  intros H. unfold int_strip. rewrite (int_lstrip_fixed l H).
  rewrite int_lstrip_fixed by (by apply Forall_rev). apply rev_involutive.
Qed.

(** [int(str(n)) == n], when [str] converts [n]. *)
Lemma parse_int_str_of_int n text : str_of_int n = Some text -> parse_int text = Some n.
Proof.
  unfold str_of_int. cbv zeta.
  destruct (over_limit _) eqn:Hlim; [done |]. intros [= <-].
  unfold parse_int. revert Hlim.
  destruct n as [| p | p]; [done | |];
    cbn [Z.to_int NilZero.string_of_int];
    pose proof (Unsigned.to_uint_nonnil p) as Hnil;
    pose proof (DecimalPos.Unsigned.of_to p) as Hval;
    assert (Hs : NilZero.string_of_uint (Pos.to_uint p)
                 = NilEmpty.string_of_uint (Pos.to_uint p))
      by (by destruct (Pos.to_uint p));
    rewrite Hs; clear Hs;
    pose proof (parse_digits_uint (Pos.to_uint p) 0 false) as Hparse;
    rewrite uint_val_0, Hval in Hparse; intros Hlim.
  - rewrite int_strip_fixed by apply uint_chars_no_int_space.
    destruct (uint_first_char _ Hnil) as (c & rest & Hc & Hplus & Hminus).
    rewrite Hc in *. rewrite Hplus, Hminus. unfold parse_literal.
    rewrite Hlim, Hparse. by destruct (Pos.to_uint p).
  - cbn [list_ascii_of_string] in *.
    rewrite int_strip_fixed by (constructor; [done | apply uint_chars_no_int_space]).
    change (Ascii.eqb "-" "+") with false.
    change (Ascii.eqb "-" "-") with true. cbv iota.
    unfold parse_literal.
    change (over_limit ("-"%char :: ?l)) with (over_limit l) in Hlim.
    rewrite Hlim, Hparse. by destruct (Pos.to_uint p).
Qed.

(** The text [str] makes of an int loads as that int. *)
Lemma persisted_str ext n text :
  hs_file ext = Some text -> str_of_int n = Some text -> persisted ext = n.
Proof.
  intros Hfile H. unfold persisted. rewrite Hfile.
  assert (Hfix : strip text = text).
  { unfold str_of_int in H. cbv zeta in H.
    destruct (over_limit _); [done |]. injection H as <-.
    apply strip_fixed. destruct n as [| p | p]; cbn [Z.to_int NilZero.string_of_int].
    - by repeat constructor.
    - assert (Hs : NilZero.string_of_uint (Pos.to_uint p)
                   = NilEmpty.string_of_uint (Pos.to_uint p))
        by (pose proof (Unsigned.to_uint_nonnil p); by destruct (Pos.to_uint p)).
      rewrite Hs. apply uint_chars_no_space.
    - assert (Hs : NilZero.string_of_uint (Pos.to_uint p)
                   = NilEmpty.string_of_uint (Pos.to_uint p))
        by (pose proof (Unsigned.to_uint_nonnil p); by destruct (Pos.to_uint p)).
      rewrite Hs. constructor; [done | apply uint_chars_no_space]. }
  by rewrite Hfix, (parse_int_str_of_int n text H).
Qed.

(** An empty file loads as 0. *)
Lemma persisted_empty ext : hs_file ext = Some EmptyString -> persisted ext = 0.
Proof. unfold persisted. by intros ->. Qed.

(** *** The digit limit *)

Lemma int_space_no_digit c : is_int_space c = true -> is_digit c = false.
Proof. destruct c as [[] [] [] [] [] [] [] []]; by cbn. Qed.

Lemma count_digits_cons c l :
  count_digits (c :: l) = ((if is_digit c then 1 else 0) + count_digits l)%N.
Proof. unfold count_digits. cbn [List.filter]. destruct (is_digit c); cbn [length]; lia. Qed.

Lemma count_digits_int_lstrip l : count_digits (int_lstrip l) = count_digits l.
Proof.
  induction l as [| c l IH]; cbn [int_lstrip]; [done |].
  destruct (is_int_space c) eqn:Hc; [| done].
  by rewrite IH, count_digits_cons, (int_space_no_digit c Hc).
Qed.

Lemma count_digits_rev l : count_digits (rev l) = count_digits l.
Proof.
  unfold count_digits. induction l as [| c l IH]; [done |].
  cbn [rev List.filter]. rewrite List.filter_app, length_app. cbn [List.filter].
  destruct (is_digit c); cbn [length]; lia.
Qed.

Lemma count_digits_int_strip l : count_digits (int_strip l) = count_digits l.
Proof.
  unfold int_strip.
  by rewrite count_digits_rev, count_digits_int_lstrip, count_digits_rev,
    count_digits_int_lstrip.
Qed.

(** A text of more digits than the limit is no int. *)
Lemma parse_int_over_limit text :
  over_limit (list_ascii_of_string text) = true -> parse_int text = None.
Proof.
  unfold over_limit, parse_int, parse_literal.
  rewrite <- (count_digits_int_strip (list_ascii_of_string text)).
  destruct (int_strip _) as [| c ds]; [done |].
  rewrite count_digits_cons. intros H.
  destruct (Ascii.eqb_spec c "+") as [-> | Hp].
  { change (is_digit "+") with false in H. rewrite N.add_0_l in H.
    unfold over_limit. by rewrite H. }
  destruct (Ascii.eqb_spec c "-") as [-> | Hm].
  { change (is_digit "-") with false in H. rewrite N.add_0_l in H.
    unfold over_limit. by rewrite H. }
  unfold over_limit. by rewrite count_digits_cons, H.
Qed.

(** ** Scoring *)

Lemma pipe_after_loop bx dt speed p :
  pipe_after bx dt speed p
  = if scores_now bx dt speed p
    then Pipe.set_passed true (Pipe.update p dt speed)
    else Pipe.update p dt speed.
Proof.
  unfold pipe_after, Pipe.set_passed, Pipe.update. cbn.
  destruct (scores_now bx dt speed p); by rewrite ?orb_true_r, ?orb_false_r.
Qed.

Lemma update_pipes_run dt speed todo : forall kept E ext g,
  pipes g = kept ++ todo ->
  let bx := Bird.x (bird g) in
  let r := update_pipes dt speed kept todo E ext g in
  outcome_of r = Return tt
  /\ pipes (state_of r)
     = kept ++ List.filter on_screen (map (pipe_after bx dt speed) todo)
  /\ score (state_of r)
     = score g + Z.of_nat (length (List.filter (scores_now bx dt speed) todo))
  /\ bird (state_of r) = bird g.
Proof.
  induction todo as [| pipe rest IH]; intros kept E ext g Hps; cbv zeta.
  - cbn. rewrite Hps. split_and!; [done | done | lia | done].
  - cbn [update_pipes map List.filter]. cbv zeta. mrun.
    rewrite pipe_after_loop.
    change (negb (Pipe.passed (Pipe.update pipe dt speed))
            && (Pipe.x (Pipe.update pipe dt speed)
                + Z2f (Pipe.width (Pipe.update pipe dt speed)) <? Bird.x (bird g))%float)
      with (scores_now (Bird.x (bird g)) dt speed pipe).
    destruct (scores_now (Bird.x (bird g)) dt speed pipe) eqn:Hsc.
    + mrun.
      match goal with
      | |- context [spawn_particles ?x ?y ?c ?n E ext ?h] =>
          destruct (spawn_particles_run x y c n E ext h) as (new & k & -> & _)
      end.
      mrun. unfold on_screen.
      destruct (Pipe.off_screen _) eqn:Hoff; cbn [negb]; mrun.
      * match goal with
        | |- context [update_pipes dt speed kept rest E ?e ?h] =>
            destruct (IH kept E e h eq_refl) as (Ho & Hp & Hs & Hb)
        end.
        game_simpl. rewrite Ho, Hp, Hs, Hb. cbn [length]. split_and!; [done | done | lia | done].
      * match goal with
        | |- context [update_pipes dt speed ?kp rest E ?e ?h] =>
            destruct (IH kp E e h) as (Ho & Hp & Hs & Hb)
        end.
        { game_simpl. by rewrite <- app_assoc. }
        game_simpl. rewrite Ho, Hp, Hs, Hb, <- app_assoc. cbn [length].
        split_and!; [done | done | lia | done].
    + mrun. unfold on_screen.
      destruct (Pipe.off_screen _) eqn:Hoff; cbn [negb]; mrun.
      * match goal with
        | |- context [update_pipes dt speed kept rest E ?e ?h] =>
            destruct (IH kept E e h eq_refl) as (Ho & Hp & Hs & Hb)
        end.
        game_simpl. rewrite Ho, Hp, Hs, Hb. split_and!; [done | done | lia | done].
      * match goal with
        | |- context [update_pipes dt speed ?kp rest E ?e ?h] =>
            destruct (IH kp E e h) as (Ho & Hp & Hs & Hb)
        end.
        { game_simpl. by rewrite <- app_assoc. }
        game_simpl. rewrite Ho, Hp, Hs, Hb, <- app_assoc.
        split_and!; [done | done | lia | done].
Qed.

(** ** Spawning *)

Lemma spawn_pipe_run E ext g :
  let r := spawn_pipe E ext g in
  exists top_h color,
    PIPE_MIN_TOP <= top_h <= HEIGHT - PIPE_GAP - 140
    /\ outcome_of r = Return tt
    /\ pipes (state_of r) = pipes g ++ [Pipe.init (WIDTH + 40) top_h PIPE_GAP color]
    /\ (powerups (state_of r) = powerups g
        \/ exists pu, powerups (state_of r) = powerups g ++ [pu])
    /\ time_since_last_pipe (state_of r) = time_since_last_pipe g
    /\ score (state_of r) = score g
    /\ powerup_timers (state_of r) = powerup_timers g.
Proof.
  cbv zeta. unfold spawn_pipe, random.randint, random.choice, random.randbelow,
    random.uniform, random.random, external.
  mrun.
  eexists _, _. split.
  2: { destruct (_ <? _)%float; mrun; unfold modify, ret; game_simpl;
       split_and!; try done; [right; by eexists | by left]. }
  change (HEIGHT - PIPE_GAP - 140 - PIPE_MIN_TOP + 1) with 301.
  change (HEIGHT - PIPE_GAP - 140) with 390. change PIPE_MIN_TOP with 90.
  pose proof (Z.mod_pos_bound (rand_bits E (calls ext)) 301 ltac:(lia)). lia.
Qed.

Lemma difficulty_factor_run E ext g :
  difficulty_factor E ext g
  = (Return (1 + math_log E (1 + Z.max 0 (score g)) * 0.05)%float, ext, g).
Proof.
  unfold difficulty_factor, math.log. mrun.
  destruct (1 + Z.max 0 (score g) <=? 0) eqn:H; [lia | done].
Qed.

(** The spawn phase of a tick: it returns the speed, and spawns exactly when
    the accumulator is due. *)
Lemma update_spawn_run E ext g dt :
  let d := (1 + math_log E (1 + Z.max 0 (score g)) * 0.05)%float in
  let slow := (0 <? default 0%float (powerup_timers g !! "slow"%string))%float in
  let speed := (PIPE_SPEED_BASE * d * (if slow then 0.6 else 1))%float in
  let acc := (time_since_last_pipe g + dt)%float in
  let interval := max2 1 (PIPE_SPAWN_INTERVAL / d)%float in
  pipe_speed g = PIPE_SPEED_BASE ->
  pipe_spawn_interval g = PIPE_SPAWN_INTERVAL ->
  (d =? 0)%float = false ->
  let r := update_spawn dt E ext g in
  outcome_of r = Return speed
  /\ if (interval <=? acc)%float
     then time_since_last_pipe (state_of r) = 0%float
          /\ exists top_h color,
               PIPE_MIN_TOP <= top_h <= HEIGHT - PIPE_GAP - 140
               /\ pipes (state_of r)
                  = pipes g ++ [Pipe.init (WIDTH + 40) top_h PIPE_GAP color]
     else time_since_last_pipe (state_of r) = acc
          /\ pipes (state_of r) = pipes g
          /\ powerups (state_of r) = powerups g.
Proof.
  intros d slow speed acc interval Hspeed Hint Hd r. subst r.
  unfold update_spawn. mrun. rewrite difficulty_factor_run. mrun.
  unfold fdiv. fold d. rewrite Hd. mrun. unfold id. game_simpl.
  rewrite Hspeed, Hint. fold interval acc. unfold slow_factor. game_simpl.
  fold slow speed.
  destruct (interval <=? acc)%float.
  - mrun.
    match goal with
    | |- context [spawn_pipe E ext ?h] =>
        destruct (spawn_pipe_run E ext h) as (top_h & color & Hb & Ho & Hp & _)
    end.
    destruct (spawn_pipe E ext _) as [[o ext1] g1]. game_simpl. subst o.
    mrun. unfold modify, ret. game_simpl.
    split; [done |]. split; [done |]. by exists top_h, color.
  - mrun. unfold ret. game_simpl. by split_and!.
Qed.

(** ** Frame conditions of the whole tick *)

Lemma preserves_keeps {St A} (R : St -> St -> Prop) (m : M St A) :
  preserves R m -> keeps R m.
Proof. intros H E ext s. apply H. Qed.

Section Keeps.
Context {St : Type} (R : St -> St -> Prop).
Context (R_refl : forall s, R s s).
Context (R_trans : forall s1 s2 s3, R s1 s2 -> R s2 s3 -> R s1 s3).

Lemma keeps_ret {A} (a : A) : keeps R (ret a).
Proof using R_refl. intros E ext s. apply R_refl. Qed.

Lemma keeps_gets {A} (f : St -> A) : keeps R (gets f).
Proof using R_refl. intros E ext s. apply R_refl. Qed.

Lemma keeps_modify (f : St -> St) : (forall s, R s (f s)) -> keeps R (modify f).
Proof using Type. intros H E ext s. apply H. Qed.

Lemma keeps_bind {A B} (m : M St A) (k : A -> M St B) :
  keeps R m -> (forall a, keeps R (k a)) -> keeps R (bind m k).
Proof using R_trans.
  intros Hm Hk E ext s. rewrite bind_run.
  pose proof (Hm E ext s) as Hr.
  destruct (m E ext s) as [[[a | e] ext1] s1]; cbn in *; [| done].
  eapply R_trans; [exact Hr | apply Hk].
Qed.

Lemma keeps_try_except {A} (body handler : M St A) :
  keeps R body -> keeps R handler -> keeps R (try_except body handler).
Proof using R_trans.
  intros Hb Hh E ext s. unfold try_except.
  pose proof (Hb E ext s) as Hr.
  destruct (body E ext s) as [[[a | e] ext1] s1]; cbn in *; [done |].
  destruct e; try done; eapply R_trans; first [exact Hr | apply Hh].
Qed.
End Keeps.

Lemma keeps_save_highscore {St} (R : St -> St -> Prop) n :
  (forall s, R s s) -> keeps R (@save_highscore St n).
Proof. intros Hr E ext s. rewrite save_highscore_run. apply Hr. Qed.

Ltac keeps_step :=
  lazymatch goal with
  | |- keeps _ (bind _ _) => apply keeps_bind; [assumption | | intros ?]
  | |- keeps _ (ret _) => apply keeps_ret; assumption
  | |- keeps _ (gets _) => apply keeps_gets; assumption
  | |- keeps _ (modify _) =>
      apply keeps_modify; intros;
      repeat match goal with |- context [if ?c then _ else _] => destruct c end;
      solve [auto]
  | |- keeps _ (if ?c then _ else _) => destruct c
  | |- keeps _ (spawn_particles _ _ _ _) =>
      apply preserves_keeps, preserves_spawn_particles; solve [auto]
  | |- keeps _ (Pipe.collides_with_circle _ _) =>
      apply preserves_keeps, preserves_collides; assumption
  | |- keeps _ (update_powerups _ _ _ _) =>
      apply preserves_keeps, preserves_update_powerups; solve [auto]
  end.

Section LaterPhases.
Context (R : Game -> Game -> Prop).
Context (R_refl : forall s, R s s).
Context (R_trans : forall s1 s2 s3, R s1 s2 -> R s2 s3 -> R s1 s3).
Context (R_tol : tolerates R).

Lemma keeps_check_highscore : keeps R check_highscore.
Proof using R_refl R_trans R_tol.
  destruct R_tol as (Hb & Hu & Hsc & Hl & Hi & Ht & Hst & Hh & Hq).
  unfold check_highscore. repeat keeps_step. by apply keeps_save_highscore.
Qed.

Lemma keeps_pipe_hit : keeps R pipe_hit.
Proof using R_refl R_trans R_tol.
  pose proof keeps_check_highscore.
  destruct R_tol as (Hb & Hu & Hsc & Hl & Hi & Ht & Hst & Hh & Hq).
  unfold pipe_hit. repeat first [keeps_step | assumption].
Qed.

Lemma keeps_ground_hit : keeps R ground_hit.
Proof using R_refl R_trans R_tol.
  pose proof keeps_check_highscore.
  destruct R_tol as (Hb & Hu & Hsc & Hl & Hi & Ht & Hst & Hh & Hq).
  unfold ground_hit. repeat first [keeps_step | assumption].
Qed.

Lemma keeps_hit_pipes circ ps : keeps R (hit_pipes circ ps).
Proof using R_refl R_trans R_tol.
  pose proof keeps_pipe_hit.
  induction ps as [| pipe rest IH]; cbn [hit_pipes];
    repeat first [keeps_step | assumption].
Qed.

Lemma keeps_apply_powerup ptype : keeps R (apply_powerup ptype).
Proof using R_refl R_trans R_tol.
  destruct R_tol as (Hb & Hu & Hsc & Hl & Hi & Ht & Hst & Hh & Hq).
  unfold apply_powerup. repeat keeps_step.
Qed.

Lemma keeps_collect_powerups circ kept todo : keeps R (collect_powerups circ kept todo).
Proof using R_refl R_trans R_tol.
  pose proof keeps_apply_powerup.
  destruct R_tol as (Hb & Hu & Hsc & Hl & Hi & Ht & Hst & Hh & Hq).
  revert kept. induction todo as [| pu rest IH]; intros kept;
    cbn [collect_powerups]; repeat first [keeps_step | done].
Qed.

Lemma keeps_handle_collisions : keeps R handle_collisions.
Proof using R_refl R_trans R_tol.
  pose proof keeps_collect_powerups. pose proof keeps_hit_pipes.
  pose proof keeps_ground_hit.
  destruct R_tol as (Hb & Hu & Hsc & Hl & Hi & Ht & Hst & Hh & Hq).
  unfold handle_collisions. repeat first [keeps_step | done].
Qed.
End LaterPhases.

Lemma settled_refl g : settled g g.
Proof. by repeat split. Qed.

Lemma settled_trans g1 g2 g3 : settled g1 g2 -> settled g2 g3 -> settled g1 g3.
Proof. unfold settled. intuition congruence. Qed.

Lemma settled_tolerates : tolerates settled.
Proof. unfold tolerates. by split_and!; intros v []. Qed.

Lemma stays_based_refl g : stays_based g g.
Proof. by intros H. Qed.

Lemma stays_based_trans g1 g2 g3 :
  stays_based g1 g2 -> stays_based g2 g3 -> stays_based g1 g3.
Proof. unfold stays_based. auto. Qed.

Lemma stays_based_tolerates : tolerates stays_based.
Proof. unfold tolerates, stays_based, based. by split_and!; intros v [] H. Qed.

Lemma update_spawn_keeps_bird dt E ext g :
  bird (state_of (update_spawn dt E ext g)) = bird g.
Proof.
  refine (proj2 (preserves_update_spawn (fun g g' => bird g' = bird g) _ _ dt _ _ _ E ext g));
    try done; congruence.
Qed.

Lemma update_pipes_keeps_config dt speed kept todo E ext g :
  let g' := state_of (update_pipes dt speed kept todo E ext g) in
  time_since_last_pipe g' = time_since_last_pipe g
  /\ pipe_speed g' = pipe_speed g
  /\ pipe_spawn_interval g' = pipe_spawn_interval g.
Proof.
  refine (proj2 (preserves_update_pipes
                   (fun g g' => time_since_last_pipe g' = time_since_last_pipe g
                                /\ pipe_speed g' = pipe_speed g
                                /\ pipe_spawn_interval g' = pipe_spawn_interval g)
                   _ _ dt speed kept todo _ _ _ E ext g));
    try done; intuition congruence.
Qed.

(** The tick of a running game after its spawn phase: the pipe loop decides
    the pipes, and nothing later touches them or the spawn accumulator. *)
Lemma update_after_spawn dt E ext g :
  state g = PLAYING ->
  let r1 := update_spawn dt E ext g in
  let r := update dt E ext g in
  match outcome_of r1 with
  | Return speed =>
      pipes (state_of r)
      = List.filter on_screen
          (map (pipe_after (Bird.x (bird g)) dt speed) (pipes (state_of r1)))
      /\ time_since_last_pipe (state_of r) = time_since_last_pipe (state_of r1)
      /\ pipe_speed (state_of r) = pipe_speed (state_of r1)
      /\ pipe_spawn_interval (state_of r) = pipe_spawn_interval (state_of r1)
  | Raise e => r = (Raise e, ext_of r1, state_of r1)
  end.
Proof.
  intros Hst. cbv zeta. unfold update. mrun. rewrite Hst. mrun.
  pose proof (update_spawn_keeps_bird dt E ext g) as Hbird.
  destruct (update_spawn dt E ext g) as [[[speed | e] ext1] g1]; game_simpl; [| done].
  mrun.
  match goal with
  | |- context [update_pipes dt speed [] (pipes g1) E ext1 ?h] =>
      destruct (update_pipes_run dt speed (pipes g1) [] E ext1 h eq_refl)
        as (Ho & Hp & _ & _);
      pose proof (update_pipes_keeps_config dt speed [] (pipes g1) E ext1 h)
        as (Hc1 & Hc2 & Hc3);
      destruct (update_pipes dt speed [] (pipes g1) E ext1 h) as [[o ext2] g2]
  end.
  game_simpl. subst o. rewrite Hbird in Hp. rewrite <- Hc1, <- Hc2, <- Hc3.
  match goal with
  | |- context [state_of (?k E ext2 g2)] =>
      assert (Hk : keeps settled k)
  end.
  { pose proof settled_refl as Hr. pose proof settled_trans as Ht.
    pose proof (keeps_handle_collisions settled Hr Ht settled_tolerates).
    destruct settled_tolerates as (Hb & Hu & Hsc & Hl & Hi & Htm & Hs & Hh & Hq).
    repeat first [keeps_step | assumption]. }
  destruct (Hk E ext2 g2) as (H1 & H2 & H3 & H4).
  rewrite H1, H2, H3, H4, Hp. by split_and!.
Qed.

Lemma keeps_raise {St A} (R : St -> St -> Prop) (e : exn) :
  (forall s, R s s) -> keeps R (@raise St A e).
Proof. intros Hr E ext s. apply Hr. Qed.

Lemma keeps_update_based dt : keeps stays_based (update dt).
Proof.
  pose proof stays_based_refl as Hr. pose proof stays_based_trans as Ht.
  pose proof (keeps_handle_collisions stays_based Hr Ht stays_based_tolerates).
  destruct stays_based_tolerates as (Hb & Hu & Hsc & Hl & Hi & Htm & Hs & Hh & Hq).
  assert (Hp : forall v g, stays_based g (set_pipes v g)) by (by intros v [] H').
  assert (Hc : forall v g, stays_based g (set_clouds v g)) by (by intros v [] H').
  assert (Ha : forall v g, stays_based g (set_time_since_last_pipe v g))
    by (by intros v [] H').
  unfold update. apply keeps_bind; [done | by apply keeps_gets |]. intros st.
  destruct st; try (apply keeps_modify; intros; apply Hc).
  apply keeps_bind; [done | |].
  { by apply preserves_keeps, preserves_update_spawn. }
  intros speed. apply keeps_bind; [done | apply keeps_modify; intros; apply Hb |].
  intros _. apply keeps_bind; [done | by apply keeps_gets |]. intros ps.
  apply keeps_bind; [done | |].
  { by apply preserves_keeps, preserves_update_pipes. }
  intros _. repeat first [keeps_step | assumption].
Qed.

Lemma keeps_handle_input_based events : keeps stays_based (handle_input events).
Proof.
  pose proof stays_based_refl as Hr. pose proof stays_based_trans as Ht.
  assert (Hset : forall f : Game -> Game,
             (forall g, pipe_speed (f g) = pipe_speed g
                        /\ pipe_spawn_interval (f g) = pipe_spawn_interval g) ->
             keeps stays_based (modify f)).
  { intros f Hf. apply keeps_modify. intros g [H1 H2].
    destruct (Hf g) as [E1 E2]. split; congruence. }
  assert (Hreset : keeps stays_based reset).
  { unfold reset, time.time, external. apply keeps_bind; [done | |].
    - apply keeps_modify. by intros g _.
    - intros _. apply keeps_bind; [done | by intros E ext s |].
      intros now. by apply Hset. }
  induction events as [| event rest IH]; cbn [handle_input];
    [by apply keeps_ret |].
  apply keeps_bind; [done | | by intros _].
  unfold handle_event, quit.
  destruct event as [| key |]; [by apply keeps_raise | | by apply keeps_ret].
  apply keeps_bind; [done | by apply keeps_gets |]. intros st.
  destruct st, key;
    repeat first [ by apply keeps_ret | by apply keeps_raise | by apply Hset
                 | apply keeps_bind; [done | | intros _] | assumption ].
Qed.

(** The speed and interval attributes hold their base values in every state
    the main loop reaches. *)
Lemma based_invariant frames E ext g :
  based g -> based (state_of (run frames E ext g)).
Proof.
  assert (Hrun : keeps stays_based (run frames)).
  { pose proof stays_based_refl as Hr. pose proof stays_based_trans as Ht.
    induction frames as [| [ms events] rest IH]; cbn [run];
      [by apply keeps_ret |].
    apply keeps_bind; [done | | by intros _].
    unfold frame. apply keeps_bind; [done | apply keeps_handle_input_based |].
    intros _. apply keeps_update_based. }
  apply Hrun.
Qed.

Lemma based_init E ext :
  match outcome_of (Game_init E ext tt) with
  | Return g => based g
  | Raise _ => False
  end.
Proof.
  unfold Game_init. rewrite bind_run, load_highscore_run.
  unfold time.time, external. mrun.
  assert (Hc : forall n ext, exists cs ext',
             @make_clouds unit n E ext tt = (Return cs, ext', tt)).
  { induction n as [| n IH]; intros ext0; cbn [make_clouds]; [by eexists _, _ |].
    unfold random.randint, random.randbelow, random.uniform, random.random, external.
    mrun.
    match goal with
    | |- context [make_clouds n E ?e tt] => destruct (IH e) as (cs & ext' & ->)
    end.
    mrun. by eexists _, _. }
  match goal with
  | |- context [make_clouds 10 E ?e tt] => destruct (Hc 10%nat e) as (cs & ext' & ->)
  end.
  by mrun.
Qed.

(** ** Auxiliary facts for the claims *)

(** A tick outside PLAYING moves the clouds and returns. *)
Lemma frozen_run E ext g dt :
  state g <> PLAYING ->
  update dt E ext g = (Return tt, ext, set_clouds (map (move_cloud dt) (clouds g)) g).
Proof.
  intros Hst. unfold update. rewrite bind_run. cbn [gets]. by destruct (state g).
Qed.

(** The shield at collision time: [handle_collisions] run with the shield
    active takes no life. *)
Lemma shield_protects_in_collisions E ext g :
  shielded g -> lives (state_of (handle_collisions E ext g)) = lives g.
Proof.
  intros Hs. pose proof (handle_collisions_resolved E ext g) as H.
  unfold resolved in H. destruct H as (_ & H & _). by apply H.
Qed.

Lemma persisted_file ext ext' : hs_file ext' = hs_file ext -> persisted ext' = persisted ext.
Proof. unfold persisted. by intros ->. Qed.

(** * Further lemmas *)

(** One event, executed. *)
Ltac event_cases g key :=
  unfold handle_event, quit, reset, time.time, external; mrun;
  destruct (state g) eqn:?, key; mrun.

(** ** Order on floats *)

Lemma ltb_leb x y : (x <? y)%float = true -> (x <=? y)%float = true.
Proof.
  rewrite ltb_spec, leb_spec. unfold SFltb, SFleb.
  by destruct (SFcompare _ _) as [[] |].
Qed.

Lemma SFcompare_refl x : x <> S754_nan -> SFcompare x x = Some Eq.
Proof.
  destruct x as [s | s | | s m e]; cbn; try done.
  - by destruct s.
  - intros _. rewrite Z.compare_refl.
    assert (H : PosDef.Pos.compare_cont Eq m m = Eq) by apply Pos.compare_cont_refl.
    rewrite H. by destruct s.
Qed.

Lemma leb_refl_l x y : (x <=? y)%float = true -> (x <=? x)%float = true.
Proof.
  rewrite !leb_spec. unfold SFleb. intros H.
  rewrite SFcompare_refl; [done |]. intros Hn. by rewrite Hn in H.
Qed.

Lemma leb_refl_r x y : (x <=? y)%float = true -> (y <=? y)%float = true.
Proof.
  rewrite !leb_spec. unfold SFleb. intros H.
  rewrite SFcompare_refl; [done |]. intros Hn. rewrite Hn in H.
  by destruct (Prim2SF x).
Qed.

Lemma clamp_bounds v a b :
  (a <=? b)%float = true ->
  (a <=? clamp v a b)%float = true /\ (clamp v a b <=? b)%float = true.
Proof.
  intros Hab. unfold clamp, max2, min2.
  destruct (v <? b)%float eqn:Hvb.
  - destruct (a <? v)%float eqn:Hav.
    + split; by apply ltb_leb.
    + split; [by apply (leb_refl_l a b) | done].
  - destruct (a <? b)%float eqn:Hab'.
    + split; [done | by apply (leb_refl_r a b)].
    + split; [by apply (leb_refl_l a b) | done].
Qed.

(** The velocity [Bird.update] leaves. *)
Lemma update_vel_bounds b dt :
  (-1000 <=? Bird.vel (Bird.update b dt))%float = true
  /\ (Bird.vel (Bird.update b dt) <=? MAX_FALL_SPEED)%float = true.
Proof. by apply clamp_bounds. Qed.

(** ** Effects *)

Lemma known_types ptype :
  ptype ∈ POWERUP_TYPES
  <-> ptype = "shield"%string \/ ptype = "slow"%string \/ ptype = "score"%string.
Proof. unfold POWERUP_TYPES. rewrite !elem_of_cons, elem_of_nil. tauto. Qed.

Lemma apply_powerup_run ptype E ext g :
  apply_powerup ptype E ext g
  = (Return tt, ext, set_powerup_timers (refresh ptype (powerup_timers g)) g).
Proof.
  unfold apply_powerup, refresh.
  destruct (String.eqb_spec ptype "shield") as [-> | H1]; [done |].
  destruct (String.eqb_spec ptype "slow") as [-> | H2]; [done |].
  destruct (String.eqb_spec ptype "score") as [-> | H3]; [done |].
  rewrite bool_decide_eq_false_2 by (rewrite known_types; tauto).
  by destruct g.
Qed.

(** ** Particles *)

Lemma spawn_particles_S x y c n :
  spawn_particles x y c (S n)
  = (let! vx := random.uniform (-220) 220 in
     let! vy := random.uniform (-200) (-40) in
     let! life := random.uniform 0.5 1.2 in
     modify (fun g => set_particles (particles g ++ [Particle.init x y c vx vy life]) g) >>>
     spawn_particles x y c n).
Proof. reflexivity. Qed.

(** ** Spawning *)

Lemma randint_range a b r : a <= b -> a <= a + r mod (b - a + 1) <= b.
Proof. intros H. pose proof (Z.mod_pos_bound r (b - a + 1) ltac:(lia)). lia. Qed.

Lemma choice_elem {A} (l : list A) (d : A) r : l <> [] ->
  nth (Z.to_nat (r mod Z.of_nat (length l))) l d ∈ l.
Proof.
  intros Hl. apply list_elem_of_In, nth_In.
  assert (0 < length l)%nat by (destruct l; [done | cbn; lia]).
  pose proof (Z.mod_pos_bound r (Z.of_nat (length l)) ltac:(lia)). lia.
Qed.

(** Where [spawn_pipe] puts a power-up: [pipe.x + pipe.width // 2 + off] for
    an offset of 20 to 60. *)
Lemma powerup_x_range off :
  20 <= off <= 60 ->
  let px := (Z2f (WIDTH + 40) + Z2f (PIPE_WIDTH / 2) + Z2f off)%float in
  (584 <=? px)%float = true /\ (px <=? 624)%float = true.
Proof.
  intros Hoff. cbv zeta.
  set (check := fun k : nat =>
    let px := (Z2f (WIDTH + 40) + Z2f (PIPE_WIDTH / 2) + Z2f (20 + Z.of_nat k))%float in
    (584 <=? px)%float && (px <=? 624)%float).
  assert (Hall : forallb check (seq 0 41) = true) by (vm_compute; reflexivity).
  rewrite forallb_forall in Hall.
  specialize (Hall (Z.to_nat (off - 20))).
  assert (Hin : In (Z.to_nat (off - 20)) (seq 0 41)) by (apply in_seq; lia).
  apply Hall in Hin. unfold check in Hin. cbv zeta in Hin.
  replace (20 + Z.of_nat (Z.to_nat (off - 20))) with off in Hin by lia.
  by apply andb_true_iff in Hin.
Qed.

(** ** Construction *)

Lemma make_clouds_run n : forall E ext,
  exists cs,
    @make_clouds unit n E ext tt
    = (Return cs, {| hs_file := hs_file ext; calls := (calls ext + 4 * n)%nat |}, tt)
    /\ length cs = n /\ Forall cloud_ok cs.
Proof.
  induction n as [| n IH]; intros E ext; cbn [make_clouds].
  - exists []. cbn. rewrite Nat.add_0_r. by destruct ext.
  - unfold random.randint, random.randbelow, random.uniform, random.random, external.
    mrun.
    match goal with
    | |- context [make_clouds n E ?e tt] => destruct (IH E e) as (cs & -> & Hlen & Hall)
    end.
    mrun. unfold ret. eexists. split_and!.
    + replace (calls ext + 4 * S n)%nat with (S (S (S (S (calls ext)))) + 4 * n)%nat
        by lia.
      reflexivity.
    + cbn. by rewrite Hlen.
    + constructor; [| done]. unfold cloud_ok. cbn. split_and!.
      * eexists. split; [| reflexivity]. apply randint_range. done.
      * apply randint_range. done.
      * apply randint_range. done.
      * apply randint_range. done.
      * apply randint_range. done.
Qed.

(** ** Floats that are not numbers *)

Lemma is_nan_spec x : is_nan x = true -> Prim2SF x = S754_nan.
Proof.
  unfold is_nan. rewrite FloatAxioms.eqb_spec. unfold SFeqb. intros H.
  destruct (Prim2SF x) as [s | s | | s m e] eqn:Hx; [done | by destruct s | done |].
  rewrite SFcompare_refl in H; done.
Qed.

Lemma is_infinity_spec x : is_infinity x = true -> exists s, Prim2SF x = S754_infinity s.
Proof.
  unfold is_infinity. rewrite FloatAxioms.eqb_spec, abs_spec. unfold SFeqb.
  destruct (Prim2SF x) as [s | s | | s m e]; cbn; try done.
  intros _. by exists s.
Qed.

(** ** Whitespace around a text *)

Lemma list_ascii_app s1 s2 :
  list_ascii_of_string (s1 ++ s2)
  = (list_ascii_of_string s1 ++ list_ascii_of_string s2)%list.
Proof. induction s1 as [| c s1 IH]; simpl; [done | by rewrite IH]. Qed.

Lemma lstrip_blank ws l :
  Forall (fun c => is_space c = true) ws -> lstrip (ws ++ l) = lstrip l.
Proof. induction 1 as [| c ws Hc _ IH]; cbn; [done | by rewrite Hc]. Qed.

Lemma lstrip_nil_blank l : lstrip l = [] -> Forall (fun c => is_space c = true) l.
Proof.
  induction l as [| c l IH]; cbn; [by constructor |].
  destruct (is_space c) eqn:Hc; [| done]. intros H. constructor; auto.
Qed.

Lemma lstrip_app l1 l2 : lstrip l1 <> [] -> lstrip (l1 ++ l2) = (lstrip l1 ++ l2)%list.
Proof.
  induction l1 as [| c l1 IH]; cbn; [done |].
  destruct (is_space c); [exact IH | done].
Qed.

Lemma strip_padding pre s post :
  blank pre -> blank post -> strip (pre ++ s ++ post) = strip s.
Proof.
  unfold blank, strip. intros Hpre Hpost.
  rewrite !list_ascii_app, lstrip_blank by done.
  set (ls := list_ascii_of_string s). set (lp := list_ascii_of_string post) in *.
  destruct (lstrip ls) as [| c a] eqn:Ha.
  - apply lstrip_nil_blank in Ha.
    rewrite lstrip_blank by done.
    assert (Hp : lstrip lp = []).
    { rewrite <- (app_nil_r lp). by rewrite lstrip_blank. }
    by rewrite Hp.
  - rewrite lstrip_app by (by rewrite Ha). rewrite Ha.
    rewrite rev_app_distr, lstrip_blank; [done |]. by apply Forall_rev.
Qed.

(** ** Collision resolution, step by step *)

(** Equality of two games built from the same game by assignments. *)
Ltac game_eq g :=
  destruct g;
  cbv [bird pipes powerups score lives invulnerable_timer powerup_timers pipe_speed
       pipe_spawn_interval time_since_last_pipe state menu_select last_time
       high_score clouds particles sound_on
       set_bird set_pipes set_powerups set_score set_lives set_invulnerable_timer
       set_powerup_timers set_time_since_last_pipe set_state set_last_time
       set_high_score set_clouds set_particles set_sound_on];
  f_equal.

(** The pick-up loop always returns; it removes the power-ups the circle
    touches, refreshes their effects, and adds 18 particles for each and 2
    points for each of type score. *)
Lemma collect_powerups_run circ todo : forall kept E ext g,
  powerups g = kept ++ todo ->
  exists new k,
    collect_powerups circ kept todo E ext g
    = (Return tt, {| hs_file := hs_file ext; calls := (calls ext + k)%nat |},
       set_score (score g + bonus (touched circ todo))
         (set_particles (particles g ++ new)
            (set_powerups (kept ++ untouched circ todo)
               (set_powerup_timers (refresh_all (touched circ todo) (powerup_timers g)) g))))
    /\ length new = (18 * length (touched circ todo))%nat.
Proof.
  induction todo as [| pu rest IH]; intros kept E ext g Hpus.
  - exists [], 0%nat. cbn. rewrite !app_nil_r, Nat.add_0_r, Z.add_0_r.
    rewrite app_nil_r in Hpus. rewrite <- Hpus. by destruct ext, g.
  - cbn [collect_powerups]. unfold touched, untouched, bonus. cbn [List.filter].
    destruct (PowerUp.collides_with_circle pu circ) eqn:Hc; cbn [negb].
    + rewrite bind_run, apply_powerup_run. mrun.
      match goal with
      | |- context [spawn_particles ?x ?y ?c ?n E ext ?h] =>
          destruct (spawn_particles_run x y c n E ext h) as (new1 & k1 & -> & Hlen1)
      end.
      mrun.
      destruct (String.eqb (PowerUp.type pu) "score") eqn:Hty; mrun.
      * match goal with
        | |- context [collect_powerups circ kept rest E ?e ?h] =>
            destruct (IH kept E e h eq_refl) as (new2 & k2 & -> & Hlen2)
        end.
        exists (new1 ++ new2), (k1 + k2)%nat. game_simpl. split.
        -- f_equal; [f_equal; f_equal; lia |]. fold (touched circ rest).
           fold (untouched circ rest). unfold bonus, refresh_all.
           cbn [List.filter foldl]. rewrite Hty. cbn [length].
           game_eq g; [lia | by rewrite app_assoc].
        -- rewrite length_app, Hlen1, Hlen2. cbn [length]. unfold touched. lia.
      * match goal with
        | |- context [collect_powerups circ kept rest E ?e ?h] =>
            destruct (IH kept E e h eq_refl) as (new2 & k2 & -> & Hlen2)
        end.
        exists (new1 ++ new2), (k1 + k2)%nat. game_simpl. split.
        -- f_equal; [f_equal; f_equal; lia |]. fold (touched circ rest).
           fold (untouched circ rest). unfold bonus, refresh_all.
           cbn [List.filter foldl]. rewrite Hty.
           game_eq g. by rewrite app_assoc.
        -- rewrite length_app, Hlen1, Hlen2. cbn [length]. unfold touched. lia.
    + destruct (IH (kept ++ [pu]) E ext g) as (new & k & -> & Hlen).
      { by rewrite <- app_assoc. }
      exists new, k. split; [| done]. by rewrite <- app_assoc.
Qed.

Lemma game_over_check_run E ext g :
  exists ext',
    (if lives g <=? 0 then modify (set_state GAME_OVER) >>> check_highscore else ret tt)
      E ext g
    = (Return tt, ext', game_over_check g)
    /\ (if lives g <=? 0 then file_after E ext (high_score g) (score g) ext'
        else ext' = ext).
Proof.
  unfold game_over_check. mrun. destruct (lives g <=? 0) eqn:Hl.
  - mrun.
    match goal with
    | |- context [check_highscore E ?e ?h] =>
        destruct (check_highscore_run E e h) as (ext' & -> & Hfile)
    end.
    exists ext'. split; [done |]. exact Hfile.
  - mrun. by exists ext.
Qed.

Lemma pipe_hit_effect E ext g :
  exists new ext',
    pipe_hit E ext g = (Return tt, ext', after_hit (-160) new g)
    /\ length new = 30%nat
    /\ (if lives g - 1 <=? 0 then file_after E ext (high_score g) (score g) ext'
        else hs_file ext' = hs_file ext).
Proof.
  unfold pipe_hit, after_hit. mrun.
  match goal with
  | |- context [spawn_particles ?x ?y ?c ?n E ext ?h] =>
      destruct (spawn_particles_run x y c n E ext h) as (new & k & -> & Hlen)
  end.
  mrun.
  match goal with
  | |- context [(if _ <=? 0 then _ else _) E ?e ?h] =>
      destruct (game_over_check_run E e h) as (ext' & Hrun & Hfile)
  end.
  game_simpl.
  exists new, ext'. split_and!; [exact Hrun | done |].
  game_simpl. destruct (lives g - 1 <=? 0); [exact Hfile | by subst ext'].
Qed.

Lemma ground_hit_effect E ext g :
  exists new ext',
    ground_hit E ext g = (Return tt, ext', after_hit (-120) new g)
    /\ length new = 18%nat
    /\ (if lives g - 1 <=? 0 then file_after E ext (high_score g) (score g) ext'
        else hs_file ext' = hs_file ext).
Proof.
  unfold ground_hit, after_hit. mrun.
  match goal with
  | |- context [spawn_particles ?x ?y ?c ?n E ext ?h] =>
      destruct (spawn_particles_run x y c n E ext h) as (new & k & -> & Hlen)
  end.
  mrun.
  match goal with
  | |- context [(if _ <=? 0 then _ else _) E ?e ?h] =>
      destruct (game_over_check_run E e h) as (ext' & Hrun & Hfile)
  end.
  game_simpl.
  exists new, ext'. split_and!; [| done |].
  - by rewrite Hrun.
  - game_simpl. destruct (lives g - 1 <=? 0); [exact Hfile | by subst ext'].
Qed.

(** After a hit the bird is invulnerable. *)
Lemma after_hit_invulnerable v new g : vulnerable (after_hit v new g) = false.
Proof.
  unfold after_hit, game_over_check, vulnerable. game_simpl.
  destruct (lives g - 1 <=? 0); [destruct (high_score g <? score g) |]; game_simpl;
    by rewrite invulnerability_active.
Qed.

(** The pipe loop: no effect (no pipe is hit, or a test raised), or the
    effect of [pipe_hit]. *)
Lemma hit_pipes_cases circ ps E ext g :
  let r := hit_pipes circ ps E ext g in
  (state_of r = g /\ ext_of r = ext) \/ r = pipe_hit E ext g.
Proof.
  induction ps as [| pipe rest IH]; cbn [hit_pipes]; [by left |].
  cbv zeta. rewrite bind_run.
  destruct (collides_run pipe circ E ext g) as [[[|] | e] ->]; [| done | by left].
  by right.
Qed.

(** [handle_collisions]: the pick-ups, then nothing more or one hit. *)
Lemma handle_collisions_cases E ext g :
  let r0 := collect_powerups (Bird.get_circle (bird g)) [] (powerups g) E ext g in
  let r := handle_collisions E ext g in
  outcome_of r0 = Return tt
  /\ ((state_of r = state_of r0 /\ ext_of r = ext_of r0)
      \/ (vulnerable (state_of r0) = true
          /\ (r = pipe_hit E (ext_of r0) (state_of r0)
              \/ r = ground_hit E (ext_of r0) (state_of r0)))).
Proof.
  cbv zeta. unfold handle_collisions. mrun.
  destruct (collect_powerups_run (Bird.get_circle (bird g)) (powerups g) [] E ext g eq_refl)
    as (new & k & Hrun & _).
  destruct (collect_powerups _ [] (powerups g) E ext g) as [[o ext1] g1].
  injection Hrun as -> _ _. game_simpl. split; [done |].
  mrun. destruct (vulnerable g1) eqn:Hv.
  - mrun.
    destruct (hit_pipes_cases (Bird.get_circle (bird g)) (pipes g1) E ext1 g1)
      as [[Hg He] | Hhit].
    + destruct (hit_pipes _ (pipes g1) E ext1 g1) as [[o ext2] g2]. game_simpl.
      subst g2 ext2. destruct o as [[] | e]; [| by left].
      mrun. destruct (_ <=? _)%float; [| by left].
      mrun. rewrite Hv. right. split; [done |]. by right.
    + rewrite Hhit.
      destruct (pipe_hit_effect E ext1 g1) as (newp & ext2 & Hp & _).
      rewrite Hp. mrun. right. split; [done |]. left.
      destruct (_ <=? _)%float; [| done].
      mrun. by rewrite after_hit_invulnerable.
  - mrun. destruct (_ <=? _)%float; [| by left].
    mrun. rewrite Hv. by left.
Qed.

(** ** The phases of a tick *)

(** The spawn phase: the accumulator advanced and nothing more (no pipe is
    due, or the division raised), or one call of [spawn_pipe] and the
    accumulator back at 0. *)
Lemma update_spawn_cases dt E ext g :
  let g0 := set_time_since_last_pipe (time_since_last_pipe g + dt)%float g in
  let r := update_spawn dt E ext g in
  (state_of r = g0 /\ ext_of r = ext)
  \/ (exists speed,
        r = (Return speed, ext_of (spawn_pipe E ext g0),
             set_time_since_last_pipe 0 (state_of (spawn_pipe E ext g0)))).
Proof.
  cbv zeta. unfold update_spawn. mrun. rewrite difficulty_factor_run. mrun.
  unfold fdiv. destruct (_ =? 0)%float; mrun; [by left |].
  unfold id. destruct (_ <=? _)%float; mrun; [| by left].
  match goal with
  | |- context [spawn_pipe E ext ?h] =>
      destruct (spawn_pipe_run E ext h) as (top_h & color & _ & Ho & _)
  end.
  destruct (spawn_pipe E ext _) as [[o ext1] g1]. game_simpl. subst o.
  mrun. right. by eexists.
Qed.

Section TickPhases.
Context (P0 P1 Q : Game -> Prop) (dt : float).
Context (H_spawn : forall E ext g, P0 g -> P0 (state_of (update_spawn dt E ext g))).
Context (H_bird : forall g, P0 g -> P0 (set_bird (Bird.update (bird g) dt) g)).
Context (H_pipes : forall speed E ext g,
           P0 g -> P0 (state_of (update_pipes dt speed [] (pipes g) E ext g))).
Context (H_powerups : forall speed E ext g,
           P0 g -> P0 (state_of (update_powerups dt speed [] (powerups g) E ext g))).
Context (H_particles : forall v g, P0 g -> P0 (set_particles v g)).
Context (H_clocks : forall g, P0 g -> P1 (tick_clocks dt g)).
Context (H_collisions : forall E ext g, P1 g -> Q (state_of (handle_collisions E ext g))).
Context (H_ceiling : forall g, Q g -> Q (hold_at_ceiling g)).
Context (H_early : forall g, P0 g -> Q g).

(** A property that every phase of the tick of a running game hands on
    holds when the tick ends, by returning or by raising. *)
Lemma update_phases E ext g :
  state g = PLAYING -> P0 g -> Q (state_of (update dt E ext g)).
Proof using All.
  intros Hst HP. unfold update. mrun. rewrite Hst. mrun.
  pose proof (H_spawn E ext g HP) as H1.
  destruct (update_spawn dt E ext g) as [[[speed | e] ext1] g1]; game_simpl;
    [| by apply H_early].
  mrun. apply H_bird in H1.
  match goal with
  | |- context [update_pipes dt speed [] _ E ext1 ?h] =>
      pose proof (H_pipes speed E ext1 h H1) as H2
  end.
  game_simpl.
  match type of H2 with
  | P0 (state_of ?t) => destruct t as [[[[] | e] ext2] g2]
  end; game_simpl; [| by apply H_early].
  mrun.
  pose proof (H_powerups speed E ext2 g2 H2) as H3.
  destruct (update_powerups dt speed [] (powerups g2) E ext2 g2)
    as [[[[] | e] ext3] g3]; game_simpl; [| by apply H_early].
  mrun.
  match goal with
  | |- context [handle_collisions E ext3 ?h] =>
      match h with
      | context [set_particles ?v g3] =>
          change h with (tick_clocks dt (set_particles v g3));
          pose proof (H_clocks _ (H_particles v g3 H3)) as H4;
          generalize dependent (tick_clocks dt (set_particles v g3))
      end
  end.
  intros g4 H4. pose proof (H_collisions E ext3 g4 H4) as H5.
  destruct (handle_collisions E ext3 g4) as [[[[] | e] ext5] g5]; game_simpl; [| done].
  mrun. by apply H_ceiling.
Qed.
End TickPhases.

(** ** What each phase of a tick changes *)

Lemma spawn_pipe_effect E ext g :
  exists p us,
    pipe_ok p
    /\ state_of (spawn_pipe E ext g) = set_powerups us (set_pipes (pipes g ++ [p]) g).
Proof.
  unfold spawn_pipe, random.randint, random.choice, random.randbelow,
    random.uniform, random.random, external.
  mrun.
  assert (Hok : forall r c,
    pipe_ok (Pipe.init (WIDTH + 40)
               (PIPE_MIN_TOP + r mod (HEIGHT - PIPE_GAP - 140 - PIPE_MIN_TOP + 1))
               PIPE_GAP c)).
  { intros r c. unfold pipe_ok. cbn [Pipe.init Pipe.top Pipe.gap Pipe.width].
    split_and!; try done; by apply randint_range. }
  destruct (_ <? _)%float; mrun; unfold modify, ret; game_simpl.
  - eexists _, _. split; [apply Hok | reflexivity].
  - eexists _, (powerups g). split; [apply Hok | by game_eq g].
Qed.

Lemma update_spawn_effect dt E ext g :
  exists t ps us,
    state_of (update_spawn dt E ext g)
    = set_time_since_last_pipe t (set_powerups us (set_pipes ps g))
    /\ (ps = pipes g \/ exists p, pipe_ok p /\ ps = pipes g ++ [p]).
Proof.
  destruct (update_spawn_cases dt E ext g) as [[-> _] | [speed ->]].
  - exists (time_since_last_pipe g + dt)%float, (pipes g), (powerups g).
    split; [by game_eq g | by left].
  - cbn [state_of snd].
    match goal with
    | |- context [spawn_pipe E ext ?h] =>
        destruct (spawn_pipe_effect E ext h) as (p & us & Hp & ->)
    end.
    eexists _, _, us. split; [reflexivity |]. right. by exists p.
Qed.

Ltac game_fields :=
  cbv [bird pipes powerups score lives invulnerable_timer powerup_timers pipe_speed
       pipe_spawn_interval time_since_last_pipe state menu_select last_time
       high_score clouds particles sound_on
       set_bird set_pipes set_powerups set_score set_lives set_invulnerable_timer
       set_powerup_timers set_time_since_last_pipe set_state set_last_time
       set_high_score set_clouds set_particles set_sound_on] in *.

Lemma pipes_frame_trans h1 h2 h3 :
  h2 = set_particles (particles h2) (set_score (score h2) (set_pipes (pipes h2) h1)) ->
  h3 = set_particles (particles h3) (set_score (score h3) (set_pipes (pipes h3) h2)) ->
  h3 = set_particles (particles h3) (set_score (score h3) (set_pipes (pipes h3) h1)).
Proof. destruct h1, h2, h3. game_fields. intros H1 H2. injection H1. injection H2. intros. subst. reflexivity. Qed.

Lemma powerups_frame_trans h1 h2 h3 :
  h2 = set_powerups (powerups h2) h1 -> h3 = set_powerups (powerups h3) h2 ->
  h3 = set_powerups (powerups h3) h1.
Proof. destruct h1, h2, h3. game_fields. intros H1 H2. injection H1. injection H2. intros. subst. reflexivity. Qed.

Lemma update_pipes_effect dt speed E ext g :
  exists n q,
    state_of (update_pipes dt speed [] (pipes g) E ext g)
    = set_particles q (set_score (score g + Z.of_nat n)
        (set_pipes (List.filter on_screen
                      (map (pipe_after (Bird.x (bird g)) dt speed) (pipes g))) g)).
Proof.
  destruct (update_pipes_run dt speed (pipes g) [] E ext g eq_refl) as (_ & Hp & Hs & _).
  pose proof (preserves_update_pipes
    (fun g g' => g' = set_particles (particles g') (set_score (score g')
                        (set_pipes (pipes g') g)))
    ltac:(intros h; by game_eq h) pipes_frame_trans
    dt speed [] (pipes g)
    ltac:(intros v h; by game_eq h) ltac:(intros v h; by game_eq h)
    ltac:(intros v h; by game_eq h) E ext g) as [_ Hf].
  cbv beta in Hf. rewrite Hf, Hp, Hs. by eexists _, _.
Qed.

Lemma update_powerups_effect dt speed E ext g :
  exists us,
    state_of (update_powerups dt speed [] (powerups g) E ext g) = set_powerups us g.
Proof.
  pose proof (preserves_update_powerups
    (fun g g' => g' = set_powerups (powerups g') g)
    ltac:(intros h; by game_eq h) powerups_frame_trans
    dt speed [] (powerups g) ltac:(intros v h; by game_eq h) E ext g) as [_ Hf].
  cbv beta in Hf. rewrite Hf. by eexists.
Qed.

(** [handle_collisions], however it ends: the pick-ups, and then at most one
    hit, taken while vulnerable. *)
Lemma handle_collisions_effect E ext g :
  let circ := Bird.get_circle (bird g) in
  exists q,
    let g1 := set_score (score g + bonus (touched circ (powerups g)))
                (set_particles q
                   (set_powerups (untouched circ (powerups g))
                      (set_powerup_timers
                         (refresh_all (touched circ (powerups g)) (powerup_timers g)) g))) in
    state_of (handle_collisions E ext g) = g1
    \/ (vulnerable g1 = true
        /\ exists v new,
             (v = (-160)%float \/ v = (-120)%float)
             /\ state_of (handle_collisions E ext g) = after_hit v new g1).
Proof.
  cbv zeta.
  destruct (handle_collisions_cases E ext g) as [_ H]. cbv zeta in H.
  destruct (collect_powerups_run (Bird.get_circle (bird g)) (powerups g) [] E ext g eq_refl)
    as (new & k & Hrun & _).
  rewrite Hrun in H. cbn [state_of ext_of fst snd app] in H.
  exists (particles g ++ new).
  destruct H as [[H _] | [Hv [Hr | Hr]]]; [by left | |]; right;
    (split; [exact Hv |]); rewrite Hr.
  - match goal with
    | |- context [pipe_hit E ?e ?h] =>
        destruct (pipe_hit_effect E e h) as (newp & ext' & -> & _)
    end.
    exists (-160)%float, newp. split; [by left | reflexivity].
  - match goal with
    | |- context [ground_hit E ?e ?h] =>
        destruct (ground_hit_effect E e h) as (newp & ext' & -> & _)
    end.
    exists (-120)%float, newp. split; [by right | reflexivity].
Qed.

(** ** The invariant of the main loop *)

Lemma tick_timers_ok dt m : table_ok m -> table_ok (tick_timers dt m).
Proof.
  intros Hm k t'. unfold tick_timers. rewrite lookup_omap.
  destruct (m !! k) as [t |] eqn:Hk; cbn; [| done].
  destruct (t - dt <=? 0)%float eqn:Ht; [done |].
  intros [= <-]. split; [| done]. by apply (Hm k t).
Qed.

Lemma refresh_ok ptype m : table_ok m -> table_ok (refresh ptype m).
Proof.
  intros Hm. unfold refresh. destruct (bool_decide _) eqn:Hb; [| done].
  apply bool_decide_eq_true in Hb. intros k t.
  destruct (decide (k = ptype)) as [-> | Hne].
  - rewrite lookup_insert_eq. intros [= <-]. by split.
  - rewrite lookup_insert_ne by done. apply Hm.
Qed.

Lemma refresh_all_ok pus : forall m, table_ok m -> table_ok (refresh_all pus m).
Proof.
  unfold refresh_all. induction pus as [| pu pus IH]; intros m Hm; cbn [foldl]; [done |].
  by apply IH, refresh_ok.
Qed.

Lemma bonus_nonneg pus : 0 <= bonus pus.
Proof. unfold bonus. lia. Qed.

Lemma pipe_after_ok bx dt speed p : pipe_ok p -> pipe_ok (pipe_after bx dt speed p).
Proof. by unfold pipe_ok, pipe_after. Qed.

Lemma pipes_after_ok bx dt speed ps :
  Forall pipe_ok ps ->
  Forall pipe_ok (List.filter on_screen (map (pipe_after bx dt speed) ps)).
Proof.
  intros H. apply Forall_forall. intros p Hin.
  apply list_elem_of_In, filter_In in Hin as [Hin _].
  apply in_map_iff in Hin as (p0 & <- & Hin).
  apply pipe_after_ok. rewrite Forall_forall in H. by apply H, list_elem_of_In.
Qed.

Ltac wf_solve :=
  unfold wellformed, lives_ok, bird_ok, timers_ok, based in *; game_simpl;
  repeat match goal with H : _ /\ _ |- _ => destruct H end;
  split_and!; try done; try lia.

Lemma in_play_spawn dt E ext g :
  in_play g -> in_play (state_of (update_spawn dt E ext g)).
Proof.
  intros [(Hl & Hs & Hb & Ht & Hp & Hc) Hst].
  destruct (update_spawn_effect dt E ext g) as (t & ps & us & -> & Hps).
  split; [| done]. split_and!; try done.
  game_simpl. destruct Hps as [-> | (p & Hok & ->)]; [done |].
  apply Forall_app. split; [done | by constructor].
Qed.

Lemma in_play_bird dt g :
  in_play g -> in_play (set_bird (Bird.update (bird g) dt) g).
Proof.
  intros [(Hl & Hs & (Hx & Hr & _) & Ht & Hp & Hc) Hst].
  split; [| done]. split_and!; try done.
  destruct (update_vel_bounds (bird g) dt) as [H1 H2].
  unfold bird_ok. game_simpl. by split_and!.
Qed.

Lemma in_play_pipes dt speed E ext g :
  in_play g -> in_play (state_of (update_pipes dt speed [] (pipes g) E ext g)).
Proof.
  intros [(Hl & Hs & Hb & Ht & Hp & Hc) Hst].
  destruct (update_pipes_effect dt speed E ext g) as (n & q & ->).
  split; [| done]. split_and!; try done; game_simpl; [lia |].
  by apply pipes_after_ok.
Qed.

Lemma in_play_powerups dt speed E ext g :
  in_play g -> in_play (state_of (update_powerups dt speed [] (powerups g) E ext g)).
Proof.
  intros [Hw Hst].
  destruct (update_powerups_effect dt speed E ext g) as (us & ->). by split.
Qed.

Lemma in_play_clocks dt g : in_play g -> in_play (tick_clocks dt g).
Proof.
  intros [(Hl & Hs & Hb & Ht & Hp & Hc) Hst]. unfold tick_clocks.
  destruct (0 <? invulnerable_timer g)%float; game_simpl;
    (split; [| done]); split_and!; try done;
    unfold timers_ok; game_simpl; by apply tick_timers_ok.
Qed.

Lemma wellformed_after_hit v new g :
  (v = (-160)%float \/ v = (-120)%float) ->
  in_play g -> wellformed (after_hit v new g).
Proof.
  intros Hv [((Hl1 & Hl2) & Hs & (Hx & Hr & _) & Ht & Hp & Hc) Hst].
  assert (Hvel : (-1000 <=? v)%float = true /\ (v <=? MAX_FALL_SPEED)%float = true)
    by (by destruct Hv as [-> | ->]).
  assert (Hpos : lives g <> 0) by (intros H0; apply Hl2 in H0; congruence).
  unfold after_hit, game_over_check. game_simpl.
  destruct (lives g - 1 <=? 0) eqn:Hz.
  - assert (Hlast : lives g - 1 = 0) by lia.
    destruct (high_score g <? score g); wf_solve.
  - wf_solve. rewrite Hst. split; [done | lia].
Qed.

Lemma wellformed_collisions E ext g :
  in_play g -> wellformed (state_of (handle_collisions E ext g)).
Proof.
  intros [(Hl & Hs & Hb & Ht & Hp & Hc) Hst].
  destruct (handle_collisions_effect E ext g) as (q & H). cbv zeta in H.
  match type of H with
  | _ = ?h \/ _ => assert (Hplay : in_play h)
  end.
  { split; [| done]. split_and!; try done; game_simpl.
    - pose proof (bonus_nonneg (touched (Bird.get_circle (bird g)) (powerups g))). lia.
    - unfold timers_ok. game_simpl. by apply refresh_all_ok. }
  destruct H as [-> | (_ & v & new & Hv & ->)]; [apply Hplay |].
  by apply wellformed_after_hit.
Qed.

Lemma wellformed_ceiling g : wellformed g -> wellformed (hold_at_ceiling g).
Proof.
  intros (Hl & Hs & (Hx & Hr & Hv) & Ht & Hp & Hc). unfold hold_at_ceiling.
  destruct (_ <? 20)%float; [| done]. by split_and!.
Qed.

(** A tick keeps the game well formed, however it ends. *)
Lemma wellformed_update dt E ext g :
  wellformed g -> wellformed (state_of (update dt E ext g)).
Proof.
  intros Hw. destruct (state g) eqn:Hst;
    try (rewrite frozen_run by (by rewrite Hst);
         destruct Hw as (Hl & Hs & Hb & Ht & Hp & Hc); by split_and!).
  assert (Hpart : forall v h, in_play h -> in_play (set_particles v h)).
  { intros v h [(Hl & Hs & Hb & Ht & Hp & Hc) Hh]. by split. }
  assert (Hearly : forall h, in_play h -> wellformed h) by (by intros h [Hh _]).
  exact (update_phases in_play in_play wellformed dt
           (in_play_spawn dt) (in_play_bird dt) (in_play_pipes dt)
           (in_play_powerups dt) Hpart (in_play_clocks dt)
           wellformed_collisions wellformed_ceiling Hearly E ext g Hst (conj Hw Hst)).
Qed.

Lemma table_ok_empty : table_ok ∅.
Proof. intros k t. by rewrite lookup_empty. Qed.

Lemma wellformed_event event E ext g :
  wellformed g -> wellformed (state_of (handle_event event E ext g)).
Proof.
  intros Hw. destruct event as [| key |]; [done | | done].
  pose proof table_ok_empty.
  event_cases g key; try done; unfold modify, ret; wf_solve;
    intuition (try congruence; try lia).
Qed.

Lemma wellformed_input events : forall E ext g,
  wellformed g -> wellformed (state_of (handle_input events E ext g)).
Proof.
  induction events as [| event rest IH]; intros E ext g Hw; [done |].
  cbn [handle_input]. rewrite bind_run.
  pose proof (wellformed_event event E ext g Hw) as H1.
  destruct (handle_event event E ext g) as [[[[] | e] ext1] g1]; [| done].
  by apply IH.
Qed.

Lemma wellformed_run frames : forall E ext g,
  wellformed g -> wellformed (state_of (run frames E ext g)).
Proof.
  induction frames as [| [ms events] rest IH]; intros E ext g Hw; [done |].
  cbn [run]. rewrite bind_run. unfold frame at 1. rewrite bind_run.
  pose proof (wellformed_input events E ext g Hw) as H1.
  destruct (handle_input events E ext g) as [[[[] | e] ext1] g1]; [| done].
  cbn [state_of snd] in H1.
  pose proof (wellformed_update (Z2f ms / 1000) E ext1 g1 H1) as H2.
  destruct (update _ E ext1 g1) as [[[[] | e] ext2] g2]; [| done].
  by apply IH.
Qed.

Lemma Game_init_run E ext :
  exists cs now ext',
    Game_init E ext tt
    = (Return (mkGame (Bird.init BIRD_X (HEIGHT / 2)) [] [] 0 START_LIVES 0 ∅
                 PIPE_SPEED_BASE PIPE_SPAWN_INTERVAL 0 MENU 0 now (persisted ext)
                 cs [] true), ext', tt)
    /\ hs_file ext' = hs_file ext /\ length cs = 10%nat /\ Forall cloud_ok cs.
Proof.
  unfold Game_init. rewrite bind_run, load_highscore_run.
  unfold time.time, external. mrun.
  match goal with
  | |- context [make_clouds 10 E ?e tt] =>
      destruct (make_clouds_run 10 E e) as (cs & -> & Hlen & Hall)
  end.
  mrun. unfold ret. by eexists _, _, _.
Qed.

(** Every state the main loop reaches is well formed. *)
Lemma reachable_wellformed g : reachable g -> wellformed g.
Proof.
  intros (E & ext & frames & g0 & ext0 & Hinit & ->).
  apply wellformed_run.
  destruct (Game_init_run E ext) as (cs & now & ext' & Hrun & _).
  rewrite Hrun in Hinit. injection Hinit as <- _.
  pose proof table_ok_empty. wf_solve.
Qed.


(** ** What a tick may change *)

Lemma tick_rel_refl g : tick_rel g g.
Proof. unfold tick_rel. split_and!; auto; lia. Qed.

Lemma tick_rel_trans g1 g2 g3 : tick_rel g1 g2 -> tick_rel g2 g3 -> tick_rel g1 g3.
Proof.
  unfold tick_rel.
  intros (A1 & A2 & A3 & A4 & A5 & A6 & A7 & A8 & A9 & A10 & A11 & A12)
         (B1 & B2 & B3 & B4 & B5 & B6 & B7 & B8 & B9 & B10 & B11 & B12).
  split_and!; try congruence; try lia.
  destruct B4 as [B4 | B4]; [| by right]. rewrite B4. exact A4.
Qed.

Ltac tick_rel_solve :=
  unfold tick_rel; game_simpl; split_and!; auto; try lia.

Lemma tick_rel_after_hit v new g : tick_rel g (after_hit v new g).
Proof.
  unfold after_hit, game_over_check. game_simpl.
  destruct (lives g - 1 <=? 0); [destruct (high_score g <? score g) eqn:H |];
    tick_rel_solve.
Qed.

Lemma tick_rel_collisions E ext g : tick_rel g (state_of (handle_collisions E ext g)).
Proof.
  destruct (handle_collisions_effect E ext g) as (q & H). cbv zeta in H.
  pose proof (bonus_nonneg (touched (Bird.get_circle (bird g)) (powerups g))) as Hb.
  match type of H with
  | _ = ?h \/ _ => assert (H1 : tick_rel g h) by tick_rel_solve
  end.
  destruct H as [-> | (_ & v & new & _ & ->)]; [done |].
  eapply tick_rel_trans; [exact H1 | apply tick_rel_after_hit].
Qed.

Lemma tick_rel_update dt E ext g : tick_rel g (state_of (update dt E ext g)).
Proof.
  destruct (state g) eqn:Hst;
    try (rewrite frozen_run by (by rewrite Hst); tick_rel_solve).
  assert (Hstep : forall h h', tick_rel h h' -> tick_rel g h -> tick_rel g h').
  { intros h h' H1 H2. by apply (tick_rel_trans _ h). }
  refine (update_phases (tick_rel g) (tick_rel g) (tick_rel g) dt
            _ _ _ _ _ _ _ _ (fun h H => H) E ext g Hst (tick_rel_refl g)).
  - intros E' ext' h. apply Hstep.
    destruct (update_spawn_effect dt E' ext' h) as (t & ps & us & -> & _).
    tick_rel_solve.
  - intros h. apply Hstep. tick_rel_solve.
  - intros speed E' ext' h. apply Hstep.
    destruct (update_pipes_effect dt speed E' ext' h) as (n & q & ->).
    tick_rel_solve.
  - intros speed E' ext' h. apply Hstep.
    destruct (update_powerups_effect dt speed E' ext' h) as (us & ->).
    tick_rel_solve.
  - intros v h. apply Hstep. tick_rel_solve.
  - intros h. apply Hstep. unfold tick_clocks.
    destruct (0 <? _)%float; tick_rel_solve.
  - intros E' ext' h. apply Hstep. apply tick_rel_collisions.
  - intros h. apply Hstep. unfold hold_at_ceiling.
    destruct (_ <? 20)%float; tick_rel_solve.
Qed.

Lemma handle_input_highscore events : forall E ext g,
  high_score (state_of (handle_input events E ext g)) = high_score g.
Proof.
  induction events as [| event rest IH]; intros E ext g; [done |].
  cbn [handle_input]. rewrite bind_run.
  destruct event as [| key |]; [done | | apply IH].
  event_cases g key; try done;
    match goal with
    | |- context [handle_input rest E ?e ?h] => by rewrite (IH E e h)
    end.
Qed.

(** A tick of a running game that returns ends with the hold at the
    ceiling. *)
Lemma update_returned dt E ext g :
  state g = PLAYING ->
  outcome_of (update dt E ext g) = Return tt ->
  exists h, state_of (update dt E ext g) = hold_at_ceiling h.
Proof.
  intros Hst. unfold update. mrun. rewrite Hst. mrun.
  destruct (update_spawn dt E ext g) as [[[speed | e] ext1] g1]; [| done].
  mrun.
  destruct (update_pipes dt speed [] _ E ext1 _) as [[[[] | e] ext2] g2]; [| done].
  mrun.
  destruct (update_powerups dt speed [] _ E ext2 g2) as [[[[] | e] ext3] g3]; [| done].
  mrun.
  destruct (handle_collisions E ext3 _) as [[[[] | e] ext5] g5]; [| done].
  mrun. intros _. by exists g5.
Qed.

(** ** Exceptions *)

Section Raises.
Context {St : Type} (ok : exn -> bool).

Lemma raises_ret {A} (a : A) : raises_only ok (@ret St A a).
Proof. by intros E ext s e. Qed.

Lemma raises_gets {A} (f : St -> A) : raises_only ok (gets f).
Proof. by intros E ext s e. Qed.

Lemma raises_modify (f : St -> St) : raises_only ok (modify f).
Proof. by intros E ext s e. Qed.

Lemma raises_external {A} (f : Env -> nat -> A) : raises_only ok (@external St A f).
Proof. by intros E ext s e. Qed.

Lemma raises_raise {A} (e : exn) : ok e = true -> raises_only ok (@raise St A e).
Proof. intros H E ext s e' [= <-]. exact H. Qed.

Lemma raises_bind {A B} (m : M St A) (k : A -> M St B) :
  raises_only ok m -> (forall a, raises_only ok (k a)) -> raises_only ok (bind m k).
Proof.
  intros Hm Hk E ext s e. rewrite bind_run.
  pose proof (Hm E ext s) as H1.
  destruct (m E ext s) as [[[a | e1] ext1] s1]; [apply Hk |].
  intros [= <-]. by apply (H1 e1).
Qed.

Lemma raises_zoom {T A} (x : T) (put : T -> St -> St) (m : M T A) :
  raises_only ok m -> raises_only ok (zoom x put m).
Proof.
  intros Hm E ext s e. unfold zoom. pose proof (Hm E ext x e) as H1.
  by destruct (m E ext x) as [[o ext1] x1].
Qed.

(** A computation that always returns. *)
Lemma raises_returns {A} (m : M St A) :
  (forall E ext s, exists a, outcome_of (m E ext s) = Return a) -> raises_only ok m.
Proof. intros H E ext s e He. destruct (H E ext s) as [a Ha]. congruence. Qed.
End Raises.

Lemma raises_spawn_particles ok x y c n : raises_only ok (spawn_particles x y c n).
Proof.
  apply raises_returns. intros E ext s.
  destruct (spawn_particles_run x y c n E ext s) as (new & k & -> & _). by eexists.
Qed.

Ltac raises_step :=
  lazymatch goal with
  | |- raises_only _ (bind _ _) => apply raises_bind; [| intros ?]
  | |- raises_only _ (ret _) => apply raises_ret
  | |- raises_only _ (gets _) => apply raises_gets
  | |- raises_only _ (modify _) => apply raises_modify
  | |- raises_only _ (external _) => apply raises_external
  | |- raises_only _ (raise _) => apply raises_raise; reflexivity
  | |- raises_only _ (zoom _ _ _) => apply raises_zoom
  | |- raises_only _ (if ?c then _ else _) => destruct c
  | |- raises_only _ (match ?c with _ => _ end) => destruct c
  | |- raises_only _ (fun E => _ E) => unfold ret; by intros ? ? ? ?
  | |- raises_only _ (spawn_particles _ _ _ _) => apply raises_spawn_particles
  end.

Lemma raises_update_spawn dt : raises_only tick_error (update_spawn dt).
Proof.
  unfold update_spawn, difficulty_factor, math.log, fdiv, spawn_pipe,
    random.randint, random.choice, random.randbelow, random.uniform, random.random.
  repeat raises_step.
Qed.

Lemma raises_update_pipes dt speed todo : forall kept,
  raises_only tick_error (update_pipes dt speed kept todo).
Proof.
  induction todo as [| pipe rest IH]; intros kept; cbn [update_pipes]; cbv zeta;
    repeat lazymatch goal with
           | |- raises_only _ (update_pipes _ _ _ _) => apply IH
           | _ => raises_step
           end.
Qed.

Lemma raises_update_powerups dt speed todo : forall kept,
  raises_only tick_error (update_powerups dt speed kept todo).
Proof.
  induction todo as [| pu rest IH]; intros kept; cbn [update_powerups];
    unfold PowerUp.update, time.time, math.sin;
    repeat lazymatch goal with
           | |- raises_only _ (update_powerups _ _ _ _) => apply IH
           | _ => raises_step
           end.
Qed.

Lemma raises_collides {St} p circ :
  raises_only tick_error (@Pipe.collides_with_circle St p circ).
Proof.
  destruct circ as [[cx cy] cr].
  unfold Pipe.collides_with_circle, int_of_float, Rect.make. repeat raises_step.
Qed.

Lemma raises_pipe_hit : raises_only tick_error pipe_hit.
Proof.
  apply raises_returns. intros E ext s.
  destruct (pipe_hit_effect E ext s) as (new & ext' & -> & _). by eexists.
Qed.

Lemma raises_ground_hit : raises_only tick_error ground_hit.
Proof.
  apply raises_returns. intros E ext s.
  destruct (ground_hit_effect E ext s) as (new & ext' & -> & _). by eexists.
Qed.

Lemma raises_hit_pipes circ ps : raises_only tick_error (hit_pipes circ ps).
Proof.
  induction ps as [| pipe rest IH]; cbn [hit_pipes];
    repeat lazymatch goal with
           | |- raises_only _ (hit_pipes _ _) => apply IH
           | |- raises_only _ (Pipe.collides_with_circle _ _) => apply raises_collides
           | |- raises_only _ pipe_hit => apply raises_pipe_hit
           | _ => raises_step
           end.
Qed.

Lemma raises_collect_powerups circ todo : forall kept,
  raises_only tick_error (collect_powerups circ kept todo).
Proof.
  induction todo as [| pu rest IH]; intros kept; cbn [collect_powerups];
    unfold apply_powerup;
    repeat lazymatch goal with
           | |- raises_only _ (collect_powerups _ _ _) => apply IH
           | _ => raises_step
           end.
Qed.

Ltac raises_game :=
  repeat lazymatch goal with
         | |- raises_only _ (collect_powerups _ _ _) => apply raises_collect_powerups
         | |- raises_only _ (hit_pipes _ _) => apply raises_hit_pipes
         | |- raises_only _ ground_hit => apply raises_ground_hit
         | |- raises_only _ (update_spawn _) => apply raises_update_spawn
         | |- raises_only _ (update_pipes _ _ _ _) => apply raises_update_pipes
         | |- raises_only _ (update_powerups _ _ _ _) => apply raises_update_powerups
         | |- raises_only _ handle_collisions => assumption
         | _ => raises_step
         end.

Lemma raises_handle_collisions : raises_only tick_error handle_collisions.
Proof. unfold handle_collisions. raises_game. Qed.

(** A tick raises nothing but the errors of its arithmetic: neither OSError
    (a failed write is swallowed) nor SystemExit. *)
Lemma raises_update dt : raises_only tick_error (update dt).
Proof. pose proof raises_handle_collisions. unfold update. raises_game. Qed.

Lemma raises_handle_input events :
  raises_only (fun e => match e with SystemExit => true | _ => false end)
              (handle_input events).
Proof.
  induction events as [| event rest IH]; cbn [handle_input];
    unfold handle_event, quit, reset, time.time;
    repeat lazymatch goal with
           | |- raises_only _ (handle_input _) => apply IH
           | _ => raises_step
           end.
Qed.

(** ** The power-up loop *)

Lemma PowerUp_update_run dt speed E ext u :
  let x' := (PowerUp.x u - speed * dt)%float in
  let a := (clock E (calls ext) * 4 + x')%float in
  let ext' := {| hs_file := hs_file ext; calls := S (calls ext) |} in
  PowerUp.update dt speed E ext u
  = if is_infinity a
    then (Raise ValueError, ext', PowerUp.set_x x' u)
    else (Return tt, ext',
          PowerUp.set_y (PowerUp.y u + math_sin E a * 8 * dt)%float (PowerUp.set_x x' u)).
Proof.
  cbv zeta. unfold PowerUp.update, time.time, external, math.sin.
  rewrite !bind_run. cbn [modify gets]. rewrite !bind_run. cbn [gets].
  cbn [PowerUp.x PowerUp.set_x]. rewrite bind_run.
  destruct (is_infinity _); reflexivity.
Qed.

Lemma update_powerups_run dt speed todo : forall kept E ext g,
  powerups g = kept ++ todo ->
  let r := update_powerups dt speed kept todo E ext g in
  exists stay,
    powerups (state_of r) = kept ++ stay
    /\ (outcome_of r = Return tt \/ outcome_of r = Raise ValueError)
    /\ (PowerUp.type <$> stay) `sublist_of` (PowerUp.type <$> todo)
    /\ (outcome_of r = Return tt ->
        map (fun u => (PowerUp.x u, PowerUp.type u)) stay = moved_powerups dt speed todo).
Proof.
  induction todo as [| pu rest IH]; intros kept E ext g Hpus; cbv zeta.
  - exists []. cbn. rewrite app_nil_r in *. split_and!; auto.
  - cbn [update_powerups]. rewrite bind_run. unfold zoom. rewrite bind_run.
    rewrite PowerUp_update_run. cbv zeta.
    unfold moved_powerups. cbn [map List.filter]. unfold moved_powerup at 1.
    cbn [fst].
    destruct (is_infinity _).
    + exists (PowerUp.set_x (PowerUp.x pu - speed * dt)%float pu :: rest).
      cbn. split_and!; auto. done.
    + cbn [gets id].
      cbn [PowerUp.x PowerUp.set_x PowerUp.set_y PowerUp.type].
      destruct (PowerUp.x pu - speed * dt <? -40)%float eqn:Hoff; cbn [negb].
      * rewrite bind_run. cbn [modify].
        match goal with
        | |- context [update_powerups dt speed kept rest E ?e ?h] =>
            destruct (IH kept E e h) as (stay & H1 & H2 & H3 & H4)
        end.
        { by game_simpl. }
        exists stay. split_and!; [done | done | | done].
        cbn [fmap list_fmap]. by apply sublist_cons.
      * match goal with
        | |- context [update_powerups dt speed (kept ++ [?u]) rest E ?e ?h] =>
            destruct (IH (kept ++ [u]) E e h) as (stay & H1 & H2 & H3 & H4)
        end.
        { game_simpl. by rewrite <- app_assoc. }
        rewrite <- app_assoc in H1. cbn [app] in H1.
        eexists (_ :: stay). split_and!; [exact H1 | done | |].
        -- cbn [fmap list_fmap PowerUp.type]. by apply sublist_skip.
        -- intros Ho. cbn [map PowerUp.x PowerUp.type]. by rewrite (H4 Ho).
Qed.

(** * The claims *)

(** C1 (amended): [update] neither clamps nor rejects [dt]; it uses it as
    given.  In MENU, PAUSED and GAME_OVER a tick with any [dt], negative or
    not finite included, returns and leaves the gameplay state as a tick
    with [dt = 0] leaves it: only the clouds, which are cosmetic, move by
    [dt]. *)
Theorem tick_outside_playing_ignores_dt E ext g dt :
  state g <> PLAYING ->
  outcome_of (update dt E ext g) = Return tt
  /\ ext_of (update dt E ext g) = ext_of (update 0 E ext g)
  /\ gameplay (state_of (update dt E ext g)) = gameplay (state_of (update 0 E ext g))
  /\ clouds (state_of (update dt E ext g)) = map (move_cloud dt) (clouds g).
Proof.
  intros Hst.
  rewrite (frozen_run E ext g dt Hst), (frozen_run E ext g 0 Hst). by split_and!.
Qed.

Lemma tick_outside_playing_ignores_dt_witness :
  state menu_game <> PLAYING
  /\ outcome_of (update nan sample_env no_file menu_game) = Return tt
  /\ gameplay (state_of (update (-1) sample_env no_file menu_game))
     = gameplay (state_of (update 0 sample_env no_file menu_game)).
Proof.
  assert (H : state menu_game <> PLAYING) by discriminate.
  split; [exact H |]. split.
  - exact (proj1 (tick_outside_playing_ignores_dt sample_env no_file menu_game nan H)).
  - exact (proj1 (proj2 (proj2
      (tick_outside_playing_ignores_dt sample_env no_file menu_game (-1) H)))).
Defined.

(** C1 as stated fails: in a running game a tick with [dt = -1] moves the
    bird down by 1000 pixels and costs a life, where a tick with [dt = 0]
    costs none; and a tick with a NaN [dt] over a game with a pipe raises
    ValueError, from [int(self.x)] in the collision test. *)
Lemma tick_does_not_clamp_dt :
  state playing_game = PLAYING
  /\ (-1 <? 0)%float = true
  /\ lives (state_of (update (-1) sample_env no_file playing_game)) = 2
  /\ lives (state_of (update 0 sample_env no_file playing_game)) = 3
  /\ state_of (update (-1) sample_env no_file playing_game)
     <> state_of (update 0 sample_env no_file playing_game)
  /\ is_nan nan = true
  /\ outcome_of (update nan sample_env no_file game_with_pipe) = Raise ValueError.
Proof.
  split_and!; try (vm_compute; reflexivity).
  intros Heq. apply (f_equal lives) in Heq. vm_compute in Heq. discriminate.
Qed.

(** C2 (amended): when the shield outlasts the tick's decrement of the
    timers (its duration [t] has [t - dt <= 0.0] false), so that it is still
    active when collisions are resolved, neither a pipe nor the ground takes
    a life: lives after the tick, however it ends, equals lives before. *)
Theorem shield_outlasting_tick_protects E ext g dt t :
  powerup_timers g !! "shield"%string = Some t ->
  (t - dt <=? 0)%float = false ->
  lives (state_of (update dt E ext g)) = lives g.
Proof.
  intros Ht Hdt.
  pose proof (update_resolved dt E ext g) as H. unfold resolved in H.
  destruct H as (_ & H & _). apply H. by exists t.
Qed.

Lemma shield_outlasting_tick_protects_witness :
  powerup_timers fresh_shield_game !! "shield"%string = Some POWERUP_DURATION
  /\ (POWERUP_DURATION - 0.016 <=? 0)%float = false
  /\ lives (state_of (update 0.016 sample_env no_file fresh_shield_game)) = 3.
Proof.
  assert (H1 : powerup_timers fresh_shield_game !! "shield"%string
               = Some POWERUP_DURATION) by reflexivity.
  assert (H2 : (POWERUP_DURATION - 0.016 <=? 0)%float = false) by reflexivity.
  split; [exact H1 |]. split; [exact H2 |].
  exact (shield_outlasting_tick_protects sample_env no_file fresh_shield_game
           0.016 POWERUP_DURATION H1 H2).
Defined.

(** C2 as stated fails: a tick taken with the shield active (0.01 s left)
    and [dt = 0.016] deletes the shield before collisions are resolved, and
    the ground takes a life. *)
Lemma expiring_shield_loses_life :
  state expiring_shield_game = PLAYING
  /\ powerup_timers expiring_shield_game !! "shield"%string = Some 0.01%float
  /\ (0 <? 0.01)%float = true
  /\ lives expiring_shield_game = 3
  /\ lives (state_of (update 0.016 sample_env no_file expiring_shield_game)) = 2.
Proof. vm_compute. by split_and!. Qed.

(** C3 (amended): when a tick takes the game from PLAYING to GAME_OVER, lives
    is 0 or less and the in-memory high score becomes the maximum of its
    previous value and the final score, so it never decreases.  The file is
    rewritten, by one best-effort attempt, only when the final score exceeds
    the previous high score; if the disk accepts writes and the file agreed
    with the in-memory high score, the high score persisted afterwards is
    that maximum (unless the final score has more than 4300 digits, which
    [str] refuses to convert: the attempt then leaves the file empty, and 0
    persisted). *)
Theorem highscore_at_game_over E ext g dt :
  state g = PLAYING ->
  state (state_of (update dt E ext g)) = GAME_OVER ->
  let g' := state_of (update dt E ext g) in
  let ext' := ext_of (update dt E ext g) in
  lives g' <= 0
  /\ high_score g' = Z.max (high_score g) (score g')
  /\ high_score g <= high_score g'
  /\ (if high_score g <? score g'
      then exists n, hs_file ext'
                     = written (disk_write E n) (hs_file ext) (str_of_int (score g'))
      else hs_file ext' = hs_file ext)
  /\ ((forall n, disk_write E n = WriteOk) -> persisted ext = high_score g ->
      persisted ext'
      = match str_of_int (score g') with
        | Some _ => Z.max (persisted ext) (score g')
        | None => if high_score g <? score g' then 0 else persisted ext
        end).
Proof.
  intros Hp Hover. cbv zeta.
  pose proof (update_resolved dt E ext g) as H. unfold resolved in H.
  destruct H as (_ & _ & [(Hst & _) | (_ & Hl & Hhs & Hf)]); [congruence |].
  split; [exact Hl |]. split; [exact Hhs |]. split; [lia |].
  split; [exact Hf |].
  intros Hok Hsync. unfold file_after in Hf. rewrite Hsync.
  generalize dependent (score (state_of (update dt E ext g))).
  generalize dependent (ext_of (update dt E ext g)).
  intros ext' sc Hhs Hf.
  destruct (high_score g <? sc) eqn:Hlt.
  - destruct Hf as [n Hn]. rewrite Hok in Hn. unfold written in Hn.
    destruct (str_of_int sc) as [text |] eqn:Hstr.
    + rewrite (persisted_str ext' sc text Hn Hstr). lia.
    + by apply persisted_empty.
  - rewrite (persisted_file _ _ Hf), Hsync. destruct (str_of_int sc); lia.
Qed.

Lemma highscore_at_game_over_witness :
  state last_life_game = PLAYING
  /\ state (state_of (update 0.016 sample_env file_5 last_life_game)) = GAME_OVER
  /\ high_score (state_of (update 0.016 sample_env file_5 last_life_game)) = 7
  /\ hs_file (ext_of (update 0.016 sample_env file_5 last_life_game)) = Some "7"%string.
Proof.
  assert (H1 : state last_life_game = PLAYING) by reflexivity.
  assert (H2 : state (state_of (update 0.016 sample_env file_5 last_life_game))
               = GAME_OVER) by (vm_compute; reflexivity).
  pose proof (highscore_at_game_over sample_env file_5 last_life_game 0.016 H1 H2) as H.
  cbv zeta in H. destruct H as (_ & Hhs & _).
  split; [exact H1 |]. split; [exact H2 |]. split; [| vm_compute; reflexivity].
  rewrite Hhs. vm_compute. reflexivity.
Defined.

(** C3 as stated fails: when the file cannot be opened for writing the game
    ends with score 7 over a persisted high score of 5, and the persisted
    high score is still 5. *)
Lemma failed_write_keeps_old_highscore :
  let r := update 0.016 read_only_env file_5 last_life_game in
  state last_life_game = PLAYING /\ lives last_life_game = 1
  /\ persisted file_5 = 5
  /\ state (state_of r) = GAME_OVER /\ lives (state_of r) = 0
  /\ score (state_of r) = 7
  /\ persisted (ext_of r) = 5
  /\ persisted (ext_of r) <> Z.max (persisted file_5) (score (state_of r)).
Proof. vm_compute. by split_and!. Qed.

(** C4: in the pipe loop of a tick, a pipe's [passed] flag after the tick is
    its flag before, or-ed with "not yet passed and the right edge, after
    this tick's move, is left of the bird's x": the flag never returns to
    false, so it turns true at most once, at the first tick at which the
    right edge is left of the bird.  The score grows by exactly the number
    of pipes whose flag turns true in this tick; a pipe whose flag is already
    true adds nothing. *)
Theorem pipe_scores_once E ext g dt speed :
  let bx := Bird.x (bird g) in
  let r := update_pipes dt speed [] (pipes g) E ext g in
  outcome_of r = Return tt
  /\ pipes (state_of r) = List.filter on_screen (map (pipe_after bx dt speed) (pipes g))
  /\ score (state_of r)
     = score g + Z.of_nat (length (List.filter (scores_now bx dt speed) (pipes g)))
  /\ (forall p,
        Pipe.passed (pipe_after bx dt speed p)
        = Pipe.passed p
          || (negb (Pipe.passed p)
              && (Pipe.x p - speed * dt + Z2f (Pipe.width p) <? bx)%float))
  /\ (forall p, Pipe.passed p = true ->
        scores_now bx dt speed p = false
        /\ Pipe.passed (pipe_after bx dt speed p) = true)
  /\ (forall p, Pipe.passed p = false ->
        scores_now bx dt speed p = Pipe.passed (pipe_after bx dt speed p)).
Proof.
  cbv zeta.
  destruct (update_pipes_run dt speed (pipes g) [] E ext g eq_refl)
    as (Ho & Hp & Hs & _).
  split; [exact Ho |]. split; [exact Hp |]. split; [exact Hs |].
  split; [intros p; reflexivity |]. split.
  - intros p Hpass. unfold scores_now, pipe_after. cbn. by rewrite Hpass.
  - intros p Hpass. unfold pipe_after. cbn [Pipe.passed]. by rewrite Hpass.
Qed.

(** C5: [flap] sets the velocity to [JUMP_VELOCITY] = -380.0 whatever it was;
    [Bird.update] computes [vel' = clamp(vel + GRAVITY * dt, -1000,
    MAX_FALL_SPEED)], where [clamp] keeps a value strictly between the bounds
    and replaces any other by the bound it passed, and then [y' = y + vel' *
    dt]; so after a flap and one update with [dt = 0.1] the velocity is
    exactly -280, also after a whole frame (SPACE pressed, 100 ms elapsed)
    of a fresh running game, whose bird moves from 360 to 332. *)
Theorem flap_then_integrate :
  (forall b, Bird.vel (Bird.flap b) = JUMP_VELOCITY)
  /\ JUMP_VELOCITY = (-380)%float
  /\ (forall b dt,
        Bird.vel (Bird.update b dt)
        = clamp (Bird.vel b + GRAVITY * dt)%float (-1000) MAX_FALL_SPEED
        /\ Bird.y (Bird.update b dt)
           = (Bird.y b + Bird.vel (Bird.update b dt) * dt)%float)
  /\ (forall v,
        clamp v (-1000) MAX_FALL_SPEED
        = if (v <? 800)%float
          then (if (-1000 <? v)%float then v else (-1000)%float)
          else 800%float)
  /\ (forall b, Bird.vel (Bird.update (Bird.flap b) 0.1) = (-280)%float)
  /\ (let g' := state_of (frame 100 [KEYDOWN K_SPACE] sample_env no_file playing_game) in
      Bird.y (bird playing_game) = 360%float
      /\ Bird.vel (bird g') = (-280)%float /\ Bird.y (bird g') = 332%float).
Proof.
  split_and!; try done; try (vm_compute; reflexivity).
  intros v. unfold clamp, min2, max2, MAX_FALL_SPEED.
  by destruct (v <? 800)%float.
Qed.

(** C6: in a tick of a running game, whose speed and interval attributes
    hold the base values (as they do in every state the main loop reaches),
    the difficulty factor is [1 + log(1 + max(0, score)) * 0.05], the speed
    that moves the pipes is [PIPE_SPEED_BASE * difficulty * (0.6 if the slow
    effect is active else 1.0)], and a pipe is spawned exactly when the
    accumulator, advanced by [dt], has reached [max(1.0, PIPE_SPAWN_INTERVAL
    / difficulty)]; the accumulator is then back at 0, and stays so to the
    end of the tick. *)
Theorem spawn_schedule E ext g dt :
  let d := (1 + math_log E (1 + Z.max 0 (score g)) * 0.05)%float in
  let slow := (0 <? default 0%float (powerup_timers g !! "slow"%string))%float in
  let speed := (PIPE_SPEED_BASE * d * (if slow then 0.6 else 1))%float in
  let acc := (time_since_last_pipe g + dt)%float in
  let interval := max2 1 (PIPE_SPAWN_INTERVAL / d)%float in
  state g = PLAYING ->
  pipe_speed g = PIPE_SPEED_BASE ->
  pipe_spawn_interval g = PIPE_SPAWN_INTERVAL ->
  (d =? 0)%float = false ->
  let r := update_spawn dt E ext g in
  let g' := state_of (update dt E ext g) in
  difficulty_factor E ext g = (Return d, ext, g)
  /\ outcome_of r = Return speed
  /\ (if (interval <=? acc)%float
      then time_since_last_pipe (state_of r) = 0%float
           /\ exists top_h color,
                PIPE_MIN_TOP <= top_h <= HEIGHT - PIPE_GAP - 140
                /\ pipes (state_of r)
                   = pipes g ++ [Pipe.init (WIDTH + 40) top_h PIPE_GAP color]
      else time_since_last_pipe (state_of r) = acc
           /\ pipes (state_of r) = pipes g
           /\ powerups (state_of r) = powerups g)
  /\ pipes g'
     = List.filter on_screen
         (map (pipe_after (Bird.x (bird g)) dt speed) (pipes (state_of r)))
  /\ time_since_last_pipe g' = (if (interval <=? acc)%float then 0%float else acc).
Proof.
  intros d slow speed acc interval Hst Hspeed Hint Hd r g'. subst r g'.
  destruct (update_spawn_run E ext g dt Hspeed Hint Hd) as (Ho & Hif).
  fold d slow speed acc interval in Ho, Hif.
  pose proof (update_after_spawn dt E ext g Hst) as Hafter. cbv zeta in Hafter.
  rewrite Ho in Hafter. destruct Hafter as (Hp & Ht & _).
  split; [apply difficulty_factor_run |]. split; [exact Ho |].
  split; [exact Hif |]. split; [exact Hp |].
  rewrite Ht. by destruct (interval <=? acc)%float; destruct Hif as [-> _].
Qed.

Lemma spawn_schedule_witness :
  state playing_game = PLAYING
  /\ pipe_speed playing_game = PIPE_SPEED_BASE
  /\ pipe_spawn_interval playing_game = PIPE_SPAWN_INTERVAL
  /\ (1 + math_log sample_env (1 + Z.max 0 (score playing_game)) * 0.05 =? 0)%float = false
  /\ outcome_of (update_spawn 2 sample_env no_file playing_game) = Return 180%float
  /\ time_since_last_pipe (state_of (update 2 sample_env no_file playing_game)) = 0%float.
Proof.
  pose proof (spawn_schedule sample_env no_file playing_game 2
                eq_refl eq_refl eq_refl eq_refl) as H.
  cbv zeta in H. destruct H as (_ & Ho & _ & _ & Ht).
  split; [reflexivity |]. split; [reflexivity |]. split; [reflexivity |].
  split; [reflexivity |]. split.
  - rewrite Ho. vm_compute. reflexivity.
  - rewrite Ht. vm_compute. reflexivity.
Defined.

(** C7: a tick in MENU, PAUSED or GAME_OVER returns and changes nothing but
    the clouds: bird, pipes, power-ups, score, lives, invulnerability timer,
    effect durations and state are as before. *)
Theorem frozen_outside_playing E ext g dt :
  state g <> PLAYING ->
  let r := update dt E ext g in
  r = (Return tt, ext, set_clouds (map (move_cloud dt) (clouds g)) g)
  /\ bird (state_of r) = bird g /\ pipes (state_of r) = pipes g
  /\ powerups (state_of r) = powerups g /\ score (state_of r) = score g
  /\ lives (state_of r) = lives g
  /\ invulnerable_timer (state_of r) = invulnerable_timer g
  /\ powerup_timers (state_of r) = powerup_timers g
  /\ state (state_of r) = state g
  /\ particles (state_of r) = particles g
  /\ high_score (state_of r) = high_score g.
Proof.
  intros Hst. cbv zeta. rewrite (frozen_run E ext g dt Hst). by split_and!.
Qed.

Lemma frozen_outside_playing_witness :
  state over_game <> PLAYING
  /\ score (state_of (update 0.016 sample_env file_5 over_game)) = 7
  /\ lives (state_of (update 0.016 sample_env file_5 over_game)) = 0.
Proof.
  assert (H : state over_game <> PLAYING) by discriminate.
  pose proof (frozen_outside_playing sample_env file_5 over_game 0.016 H) as Hf.
  cbv zeta in Hf. destruct Hf as (_ & _ & _ & _ & Hsc & Hl & _).
  split; [exact H |]. split; [exact Hsc | exact Hl].
Defined.

(** C8: in GAME_OVER the key R leads to PLAYING with score 0, START_LIVES
    lives, no pipes, no power-ups, invulnerability timer 0, no active effect
    and the spawn accumulator at 0; the in-memory high score is kept, and so
    is the file. *)
Theorem restart_resets_session E ext g :
  state g = GAME_OVER ->
  let r := handle_input [KEYDOWN K_r] E ext g in
  outcome_of r = Return tt
  /\ state (state_of r) = PLAYING
  /\ score (state_of r) = 0 /\ lives (state_of r) = START_LIVES
  /\ pipes (state_of r) = [] /\ powerups (state_of r) = []
  /\ invulnerable_timer (state_of r) = 0%float
  /\ powerup_timers (state_of r) = ∅
  /\ time_since_last_pipe (state_of r) = 0%float
  /\ bird (state_of r) = Bird.init BIRD_X (HEIGHT / 2)
  /\ high_score (state_of r) = high_score g
  /\ hs_file (ext_of r) = hs_file ext.
Proof.
  intros Hst. cbv zeta. cbn [handle_input handle_event].
  rewrite !bind_run. cbn [gets]. rewrite Hst.
  unfold reset, time.time, external. mrun. by split_and!.
Qed.

Lemma restart_resets_session_witness :
  state over_game = GAME_OVER
  /\ state (state_of (handle_input [KEYDOWN K_r] sample_env file_5 over_game)) = PLAYING
  /\ high_score (state_of (handle_input [KEYDOWN K_r] sample_env file_5 over_game)) = 5.
Proof.
  pose proof (restart_resets_session sample_env file_5 over_game eq_refl) as Hr.
  cbv zeta in Hr. destruct Hr as (_ & Hs & _ & _ & _ & _ & _ & _ & _ & _ & Hh & _).
  split; [reflexivity |]. split; [exact Hs | exact Hh].
Defined.

(** C9: [load_highscore] never raises and touches neither the file nor the
    caller's state.  It returns 0 when the file is missing or unreadable or
    when its text, stripped, is not a literal that [int] converts (a text of
    more than 4300 digits is none), and the integer it holds otherwise: a
    file that holds [str(n)] loads as [n].  [save_highscore] never raises
    and leaves the caller's state as it was, whatever the open, [str] or the
    write did; after a save that succeeded [load_highscore] returns the
    score saved, and after one whose [str] raised it returns 0. *)
Theorem highscore_file_contract :
  (forall St E ext (s : St),
      load_highscore E ext s
      = (Return (match hs_file ext with
                 | None => 0
                 | Some text =>
                     match parse_int (strip text) with Some n => n | None => 0 end
                 end), ext, s))
  /\ (forall text, over_limit (list_ascii_of_string text) = true -> parse_int text = None)
  /\ (forall n text, str_of_int n = Some text -> parse_int text = Some n)
  /\ (forall St E k (s : St) n text,
        str_of_int n = Some text ->
        outcome_of (load_highscore E {| hs_file := Some text; calls := k |} s) = Return n)
  /\ (forall St E ext (s : St) n,
        outcome_of (save_highscore n E ext s) = Return tt
        /\ state_of (save_highscore n E ext s) = s
        /\ hs_file (ext_of (save_highscore n E ext s))
           = written (disk_write E (calls ext)) (hs_file ext) (str_of_int n))
  /\ (forall St E ext (s : St) n,
        outcome_of (bind (save_highscore n) (fun _ => load_highscore) E ext s)
        = Return (match disk_write E (calls ext) with
                  | WriteOk => match str_of_int n with Some _ => n | None => 0 end
                  | OpenFails => persisted ext
                  | WriteFails => 0
                  end)).
Proof.
  split_and!.
  - intros St E ext s. rewrite load_highscore_run. unfold persisted.
    by destruct (hs_file ext) as [text |]; [destruct (parse_int (strip text)) |].
  - apply parse_int_over_limit.
  - apply parse_int_str_of_int.
  - intros St E k s n text Hstr. rewrite load_highscore_run. cbn [outcome_of fst].
    f_equal. by apply (persisted_str _ n text).
  - intros St E ext s n. by rewrite save_highscore_run.
  - intros St E ext s n. rewrite bind_run, save_highscore_run, load_highscore_run.
    cbn [outcome_of fst]. f_equal. unfold written.
    destruct (disk_write E (calls ext)); [| done | done].
    destruct (str_of_int n) as [text |] eqn:Hstr; [| done].
    by apply (persisted_str _ n text).
Qed.

(** C10: in one tick lives decreases by at most 1, also when the bird is
    inside a pipe and on the ground at once: the pipe loop stops at the first
    hit and sets the invulnerability timer to 1.6 > 0, which guards the
    ground check.  This holds however the tick ends. *)
Theorem one_life_per_tick E ext g dt :
  lives g - 1 <= lives (state_of (update dt E ext g)) <= lives g
  /\ lives g - 1 <= lives (state_of (handle_collisions E ext g)) <= lives g
  /\ (forall circ ps,
        vulnerable (state_of (hit_pipes circ ps E ext g)) = false
        \/ state_of (hit_pipes circ ps E ext g) = g)
  /\ (INVULNERABILITY_AFTER_HIT <=? 0)%float = false
  /\ (let g' := state_of (handle_collisions sample_env no_file pipe_and_ground_game) in
      lives pipe_and_ground_game = 3 /\ lives g' = 2 /\ Bird.vel (bird g') = (-160)%float).
Proof.
  split; [| split; [| split; [| split]]].
  - pose proof (update_resolved dt E ext g) as H. unfold resolved in H.
    destruct H as (H & _). exact H.
  - pose proof (handle_collisions_resolved E ext g) as H. unfold resolved in H.
    destruct H as (H & _). exact H.
  - intros circ ps.
    destruct (hit_pipes_effect circ ps E ext g) as [[Hg _] | [_ Hlost]].
    + by right.
    + left. by apply life_lost_invulnerable in Hlost.
  - reflexivity.
  - vm_compute. by split_and!.
Qed.

(** * Further properties of the code *)

(** ** Input handling *)

(** X1: whatever the events, [handle_input] leaves the high-score file, the
    in-memory high score, the clouds and the particles as they were; it
    either returns or raises SystemExit, and it returns when no event is
    QUIT or the key Q. *)
Theorem input_keeps_highscore events : forall E ext g,
  let r := handle_input events E ext g in
  hs_file (ext_of r) = hs_file ext
  /\ high_score (state_of r) = high_score g
  /\ clouds (state_of r) = clouds g
  /\ particles (state_of r) = particles g
  /\ (outcome_of r = Return tt \/ outcome_of r = Raise SystemExit)
  /\ (Forall (fun e => ~ quits e) events -> outcome_of r = Return tt).
Proof.
  induction events as [| event rest IH]; intros E ext g; cbv zeta.
  - cbn. split_and!; auto.
  - cbn [handle_input]. rewrite bind_run.
    assert (Hq : forall e, ~ quits e -> e <> QUIT /\ e <> KEYDOWN K_q).
    { unfold quits. intros e H. split; intros ->; apply H; auto. }
    destruct event as [| key |].
    + cbn. split_and!; auto. intros H. apply Forall_cons in H as [H _].
      by destruct (Hq _ H).
    + event_cases g key;
        try (match goal with
             | |- context [handle_input rest E ?e ?h] =>
                 destruct (IH E e h) as (H1 & H2 & H3 & H4 & H5 & H6)
             end; game_simpl;
             split_and!; try done;
             intros H; apply Forall_cons in H as [_ H]; by apply H6).
      all: split_and!; auto; intros H; apply Forall_cons in H as [H _];
        by destruct (Hq _ H).
    + cbn [handle_event ret].
      destruct (IH E ext g) as (H1 & H2 & H3 & H4 & H5 & H6).
      split_and!; try done.
      intros H; apply Forall_cons in H as [_ H]; by apply H6.
Qed.

(** X2: unless the key R is among the events, [handle_input] changes neither
    score nor lives, pipes, power-ups, effect durations, invulnerability
    timer or the bird's position: input alone never scores, never costs a
    life and never moves anything. *)
Theorem input_without_restart_keeps_session events : forall E ext g,
  Forall (fun e => e <> KEYDOWN K_r) events ->
  let g' := state_of (handle_input events E ext g) in
  score g' = score g /\ lives g' = lives g /\ pipes g' = pipes g
  /\ powerups g' = powerups g /\ powerup_timers g' = powerup_timers g
  /\ invulnerable_timer g' = invulnerable_timer g
  /\ Bird.x (bird g') = Bird.x (bird g) /\ Bird.y (bird g') = Bird.y (bird g)
  /\ Bird.radius (bird g') = Bird.radius (bird g).
Proof.
  induction events as [| event rest IH]; intros E ext g Hr; cbv zeta.
  - cbn. by split_and!.
  - apply Forall_cons in Hr as [Hev Hr].
    cbn [handle_input]. rewrite bind_run.
    destruct event as [| key |]; [by cbn | | by apply IH].
    event_cases g key; try done;
      match goal with
      | |- context [handle_input rest E ?e ?h] =>
          destruct (IH E e h Hr) as (H1 & H2 & H3 & H4 & H5 & H6 & H7 & H8 & H9)
      end; game_simpl; by split_and!.
Qed.

Lemma input_without_restart_keeps_session_witness :
  Forall (fun e => e <> KEYDOWN K_r) [KEYDOWN K_SPACE; KEYDOWN K_p]
  /\ lives (state_of (handle_input [KEYDOWN K_SPACE; KEYDOWN K_p]
                        sample_env no_file playing_game)) = 3.
Proof.
  assert (H : Forall (fun e => e <> KEYDOWN K_r) [KEYDOWN K_SPACE; KEYDOWN K_p])
    by (by repeat constructor).
  split; [exact H |].
  exact (proj1 (proj2 (input_without_restart_keeps_session _ sample_env no_file
                         playing_game H))).
Defined.

(** X3: a key that has no meaning in the current state is ignored: any
    sequence of such keys returns and leaves the whole game and the world as
    they were (SPACE flaps only while PLAYING, P does nothing in MENU or
    GAME_OVER, R nothing outside GAME_OVER, Q nothing while PLAYING or
    PAUSED). *)
Theorem unbound_keys_ignored keys : forall E ext g,
  Forall (fun key => listens (state g) key = false) keys ->
  handle_input (map KEYDOWN keys) E ext g = (Return tt, ext, g).
Proof.
  induction keys as [| key rest IH]; intros E ext g Hk; [done |].
  apply Forall_cons in Hk as [Hkey Hk].
  cbn [map handle_input]. rewrite bind_run.
  assert (Hev : handle_event (KEYDOWN key) E ext g = (Return tt, ext, g)).
  { event_cases g key; try done; by cbn in Hkey. }
  rewrite Hev. by apply IH.
Qed.

Lemma unbound_keys_ignored_witness :
  Forall (fun key => listens (state over_game) key = false) [K_SPACE; K_p; K_m]
  /\ handle_input (map KEYDOWN [K_SPACE; K_p; K_m]) sample_env file_5 over_game
     = (Return tt, file_5, over_game).
Proof.
  assert (H : Forall (fun key => listens (state over_game) key = false)
                     [K_SPACE; K_p; K_m]) by (by repeat constructor).
  split; [exact H |].
  exact (unbound_keys_ignored _ sample_env file_5 over_game H).
Defined.

(** X4: pausing and resuming restores the running game exactly: P, then any
    keys other than P, then P again returns with the game and the world as
    they were before the first P.  Likewise M pressed twice. *)
Theorem pause_resume_round_trip keys E ext g :
  state g = PLAYING ->
  Forall (fun key => key <> K_p) keys ->
  handle_input (KEYDOWN K_p :: map KEYDOWN keys ++ [KEYDOWN K_p]) E ext g
  = (Return tt, ext, g)
  /\ handle_input [KEYDOWN K_m; KEYDOWN K_m] E ext g = (Return tt, ext, g).
Proof.
  intros Hst Hk. split.
  - cbn [handle_input]. rewrite bind_run.
    unfold handle_event at 1. mrun. rewrite Hst. mrun.
    assert (Hp : forall h, state h = PAUSED ->
              handle_input (map KEYDOWN keys ++ [KEYDOWN K_p]) E ext h
              = (Return tt, ext, set_state PLAYING h)).
    { induction keys as [| key rest IH]; intros h Hh.
      - cbn [map app handle_input]. rewrite bind_run.
        unfold handle_event. mrun. rewrite Hh. by mrun.
      - apply Forall_cons in Hk as [Hkey Hk].
        cbn [map app handle_input]. rewrite bind_run.
        assert (Hev : handle_event (KEYDOWN key) E ext h = (Return tt, ext, h)).
        { unfold handle_event. mrun. rewrite Hh. by destruct key. }
        rewrite Hev. by apply IH. }
    rewrite Hp by done. destruct g; cbn in *. by subst.
  - cbn [handle_input]. rewrite bind_run.
    unfold handle_event. mrun. rewrite Hst. mrun. rewrite Hst. mrun.
    rewrite negb_involutive. by destruct g.
Qed.

Lemma pause_resume_round_trip_witness :
  state game_with_pipe = PLAYING
  /\ Forall (fun key => key <> K_p) [K_SPACE; K_r]
  /\ handle_input (KEYDOWN K_p :: map KEYDOWN [K_SPACE; K_r] ++ [KEYDOWN K_p])
       sample_env no_file game_with_pipe
     = (Return tt, no_file, game_with_pipe).
Proof.
  assert (H : Forall (fun key => key <> K_p) [K_SPACE; K_r]) by (by repeat constructor).
  split; [reflexivity |]. split; [exact H |].
  exact (proj1 (pause_resume_round_trip _ sample_env no_file game_with_pipe eq_refl H)).
Defined.

(** ** Helpers and entities *)

(** X5: for bounds [a <= b], [clamp(v, a, b)] lies between them for every
    [v], NaN included, and is [v] itself when [v] lies strictly between. *)
Theorem clamp_within_bounds v a b :
  (a <=? b)%float = true ->
  (a <=? clamp v a b)%float = true /\ (clamp v a b <=? b)%float = true
  /\ ((a <? v)%float = true -> (v <? b)%float = true -> clamp v a b = v).
Proof.
  intros Hab. destruct (clamp_bounds v a b Hab) as [H1 H2].
  split_and!; [done | done |].
  unfold clamp, max2, min2. intros Hav Hvb. by rewrite Hvb, Hav.
Qed.

Lemma clamp_within_bounds_witness :
  (-45 <=? 60)%float = true
  /\ (-45 <=? clamp nan (-45) 60)%float = true
  /\ (clamp nan (-45) 60 <=? 60)%float = true.
Proof.
  split; [reflexivity |].
  pose proof (clamp_within_bounds nan (-45) 60 eq_refl) as (H1 & H2 & _).
  by split.
Defined.

(** X6: whatever the velocity and [dt] were (NaN and the infinities
    included), [Bird.update] leaves a velocity within [-1000,
    MAX_FALL_SPEED] and a wing phase that is not negative; it never changes
    the bird's x, radius or alive flag. *)
Theorem bird_update_bounded b dt :
  let b' := Bird.update b dt in
  (-1000 <=? Bird.vel b')%float = true
  /\ (Bird.vel b' <=? MAX_FALL_SPEED)%float = true
  /\ (0 <=? Bird.flap_phase b')%float = true
  /\ Bird.x b' = Bird.x b /\ Bird.radius b' = Bird.radius b
  /\ Bird.alive b' = Bird.alive b.
Proof.
  cbv zeta. destruct (update_vel_bounds b dt) as [H1 H2].
  split_and!; try done.
  cbn [Bird.update Bird.flap_phase]. unfold max2.
  destruct (0 <? _)%float eqn:H; [by apply ltb_leb | done].
Qed.

(** ** Effects and particles *)

(** X7: [apply_powerup] always returns and touches nothing but the effect
    table.  A known type gets exactly POWERUP_DURATION, whatever was left of
    it, and the other entries stay; an unknown type changes nothing; a
    second pick-up of the same type changes nothing more (durations do not
    stack). *)
Theorem apply_powerup_refreshes ptype E ext g :
  let r := apply_powerup ptype E ext g in
  let g' := state_of r in
  outcome_of r = Return tt /\ ext_of r = ext
  /\ g' = set_powerup_timers (powerup_timers g') g
  /\ (ptype ∈ POWERUP_TYPES ->
      powerup_timers g' !! ptype = Some POWERUP_DURATION
      /\ forall k, k <> ptype -> powerup_timers g' !! k = powerup_timers g !! k)
  /\ (ptype ∉ POWERUP_TYPES -> g' = g)
  /\ state_of (apply_powerup ptype E ext g') = g'.
Proof.
  cbv zeta. rewrite !apply_powerup_run. game_simpl. unfold refresh.
  split_and!; try done.
  - intros H. rewrite bool_decide_eq_true_2 by done.
    split; [by rewrite lookup_insert_eq |].
    intros k Hk. by rewrite lookup_insert_ne.
  - intros H. rewrite bool_decide_eq_false_2 by done. by destruct g.
  - destruct (bool_decide _); game_simpl; [| done].
    by rewrite insert_insert_eq.
Qed.

(** X8: [spawn_particles(x, y, color, count)] always returns, takes three
    draws from the generator per particle, and appends exactly [count]
    particles to the list, each at [(x, y)] in the given colour with
    [max_life = life]; nothing else changes. *)
Theorem spawn_particles_appends_burst x y c n : forall E ext g,
  exists new,
    spawn_particles x y c n E ext g
    = (Return tt, {| hs_file := hs_file ext; calls := (calls ext + 3 * n)%nat |},
       set_particles (particles g ++ new) g)
    /\ length new = n /\ Forall (burst_particle x y c) new.
Proof.
  induction n as [| n IH]; intros E ext g.
  - exists []. cbn. rewrite app_nil_r, Nat.add_0_r. by destruct ext, g.
  - rewrite spawn_particles_S.
    unfold random.uniform, random.random, external. mrun.
    match goal with
    | |- context [spawn_particles _ _ _ _ _ ?e ?h] =>
        destruct (IH E e h) as (new & -> & Hlen & Hall)
    end.
    game_simpl. eexists (_ :: new). split_and!.
    + rewrite <- app_assoc. cbn [app]. do 3 f_equal. lia.
    + cbn. by rewrite Hlen.
    + constructor; [by split_and! | done].
Qed.

(** ** Spawning and construction *)

(** X9: [spawn_pipe] always returns and appends exactly one pipe, at
    x = WIDTH + 40, not yet passed, with gap PIPE_GAP, width PIPE_WIDTH, a
    colour of the palette and a top height within [PIPE_MIN_TOP,
    HEIGHT - PIPE_GAP - 140].  It appends at most one power-up, of a known
    type and with x within [584, 624]; nothing but the two lists changes,
    and the high-score file is left alone. *)
Theorem spawn_pipe_shape E ext g :
  let r := spawn_pipe E ext g in
  let g' := state_of r in
  outcome_of r = Return tt /\ hs_file (ext_of r) = hs_file ext
  /\ (exists p, pipes g' = pipes g ++ [p] /\ pipe_ok p
                /\ Pipe.x p = Z2f (WIDTH + 40) /\ Pipe.passed p = false
                /\ Pipe.color p ∈ PIPE_PALETTE)
  /\ (powerups g' = powerups g
      \/ exists u, powerups g' = powerups g ++ [u] /\ powerup_ok u)
  /\ g' = set_powerups (powerups g') (set_pipes (pipes g') g).
Proof.
  cbv zeta. unfold spawn_pipe, random.randint, random.choice, random.randbelow,
    random.uniform, random.random, external.
  mrun.
  assert (Hpipe : forall r1 r2,
    let p := Pipe.init (WIDTH + 40)
               (PIPE_MIN_TOP + r1 mod (HEIGHT - PIPE_GAP - 140 - PIPE_MIN_TOP + 1))
               PIPE_GAP
               (nth (Z.to_nat (r2 mod Z.of_nat (length PIPE_PALETTE))) PIPE_PALETTE (0, 0, 0)) in
    pipe_ok p /\ Pipe.x p = Z2f (WIDTH + 40) /\ Pipe.passed p = false
    /\ Pipe.color p ∈ PIPE_PALETTE).
  { intros r1 r2. cbv zeta. unfold pipe_ok. cbn [Pipe.init Pipe.top Pipe.gap Pipe.width
      Pipe.x Pipe.passed Pipe.color].
    split_and!; try done; try (by apply randint_range).
    by apply choice_elem. }
  destruct (_ <? _)%float; mrun; unfold modify, ret; game_simpl.
  - split_and!; try done.
    + eexists. split; [reflexivity |]. apply Hpipe.
    + right. eexists. split; [reflexivity |].
      unfold powerup_ok. cbn [PowerUp.init PowerUp.type PowerUp.radius
        PowerUp.collected PowerUp.x Pipe.init Pipe.x Pipe.width].
      split_and!; try done.
      * by apply choice_elem.
      * apply (powerup_x_range (20 + _ mod (60 - 20 + 1))). by apply randint_range.
      * apply (powerup_x_range (20 + _ mod (60 - 20 + 1))). by apply randint_range.
  - split_and!; try done; try (by left); try (by destruct g).
    eexists. split; [reflexivity |]. apply Hpipe.
Qed.

(** X10: once the window, the clock and the fonts exist, the rest of
    [Game.__init__] (from the load of the high score on) never raises,
    whatever the high-score file holds: it leaves the file alone and builds a
    game in MENU with score 0, START_LIVES lives, no pipes, power-ups,
    particles or effects, the bird at (BIRD_X, HEIGHT // 2) and ten clouds
    with y in [20, 200] and radius in [20, 45].  The high score is what
    [load_highscore] reads from the file: 0 when the file is missing or
    unreadable or holds more than 4300 digits, [n] when it holds
    [str(n)]. *)
Theorem init_after_window_never_fails E ext :
  exists g ext',
    Game_init E ext tt = (Return g, ext', tt)
    /\ hs_file ext' = hs_file ext
    /\ state g = MENU /\ score g = 0 /\ lives g = START_LIVES
    /\ high_score g = persisted ext
    /\ (hs_file ext = None -> high_score g = 0)
    /\ (forall text, hs_file ext = Some text ->
          over_limit (list_ascii_of_string (strip text)) = true -> high_score g = 0)
    /\ (forall n text, hs_file ext = Some text -> str_of_int n = Some text ->
          high_score g = n)
    /\ pipes g = [] /\ powerups g = [] /\ particles g = []
    /\ powerup_timers g = ∅ /\ invulnerable_timer g = 0%float
    /\ bird g = Bird.init BIRD_X (HEIGHT / 2)
    /\ pipe_speed g = PIPE_SPEED_BASE /\ pipe_spawn_interval g = PIPE_SPAWN_INTERVAL
    /\ sound_on g = true
    /\ length (clouds g) = 10%nat /\ Forall cloud_ok (clouds g).
Proof.
  destruct (Game_init_run E ext) as (cs & now & ext' & Hrun & Hfile & Hlen & Hall).
  eexists _, ext'. split; [exact Hrun |]. game_simpl. split_and!; try done.
  - unfold persisted. by intros ->.
  - intros text Htext Hlim. unfold persisted. rewrite Htext.
    by rewrite (parse_int_over_limit _ Hlim).
  - intros n text Htext Hstr. by apply (persisted_str ext n text).
Qed.

(** ** Errors of the collision test *)

(** X11: [Pipe.collides_with_circle] changes neither the game nor the world,
    and passes on the errors of [int(self.x)]: ValueError for a NaN [x],
    OverflowError for an infinite one. *)
Theorem pipe_collision_errors {St} p circ E ext (s : St) :
  let r := Pipe.collides_with_circle p circ E ext s in
  ext_of r = ext /\ state_of r = s
  /\ (is_nan (Pipe.x p) = true -> outcome_of r = Raise ValueError)
  /\ (is_infinity (Pipe.x p) = true -> outcome_of r = Raise OverflowError).
Proof.
  cbv zeta. destruct (collides_run p circ E ext s) as [o Ho].
  split_and!; [by rewrite Ho | by rewrite Ho | |]; clear Ho;
    destruct circ as [[cx cy] cr];
    unfold Pipe.collides_with_circle, int_of_float; rewrite bind_run.
  - intros H. by rewrite (is_nan_spec _ H).
  - intros H. destruct (is_infinity_spec _ H) as [sg ->]. done.
Qed.

(** ** The high-score file *)

(** X12: whitespace around the content of the high-score file does not
    matter: [load_highscore] reads a file padded with whitespace (blanks,
    newlines, whatever [str.strip] removes) as it reads the file without the
    padding, so a file that holds [str(n)] between blanks or newlines loads
    as [n]. *)
Theorem padded_highscore_loads pre post :
  blank pre -> blank post ->
  (forall St E k (s : St) text,
      outcome_of (load_highscore E
                    {| hs_file := Some (pre ++ text ++ post)%string; calls := k |} s)
      = outcome_of (load_highscore E {| hs_file := Some text; calls := k |} s))
  /\ (forall St E k (s : St) n text,
        str_of_int n = Some text ->
        outcome_of (load_highscore E
                      {| hs_file := Some (pre ++ text ++ post)%string; calls := k |} s)
        = Return n).
Proof.
  intros Hpre Hpost.
  assert (H : forall St E k (s : St) text,
    outcome_of (load_highscore E
                  {| hs_file := Some (pre ++ text ++ post)%string; calls := k |} s)
    = outcome_of (load_highscore E {| hs_file := Some text; calls := k |} s)).
  { intros St E k s text. rewrite !load_highscore_run. unfold persisted.
    cbn [hs_file outcome_of fst]. by rewrite strip_padding. }
  split; [exact H |].
  intros St E k s n text Hstr. rewrite H, load_highscore_run. cbn [outcome_of fst].
  f_equal. by apply (persisted_str _ n text).
Qed.

Lemma padded_highscore_loads_witness :
  blank " " /\ blank (String "010" EmptyString)
  /\ outcome_of (load_highscore sample_env
                   {| hs_file := Some (" " ++ "42" ++ String "010" EmptyString)%string;
                      calls := 0 |} tt)
     = Return 42.
Proof.
  assert (H1 : blank " ") by (by repeat constructor).
  assert (H2 : blank (String "010" EmptyString)) by (by repeat constructor).
  split; [exact H1 |]. split; [exact H2 |].
  exact (proj2 (padded_highscore_loads " " (String "010" EmptyString) H1 H2)
           unit sample_env 0%nat tt 42 "42"%string eq_refl).
Defined.

(** ** The tick *)

(** X13: a tick writes the high score, in memory or on disk, only when it
    ends the game: however the tick ends, either the in-memory high score and
    the file are as before, or the game was PLAYING and is now GAME_OVER with
    no life left. *)
Theorem highscore_changes_only_at_game_over E ext g dt :
  let r := update dt E ext g in
  (high_score (state_of r) = high_score g /\ hs_file (ext_of r) = hs_file ext)
  \/ (state g = PLAYING /\ state (state_of r) = GAME_OVER /\ lives (state_of r) <= 0).
Proof.
  cbv zeta.
  destruct (state g) eqn:Hst;
    try (left; rewrite frozen_run by (by rewrite Hst); done).
  destruct (update_resolved dt E ext g) as (_ & _ & [(_ & H1 & H2) | (H1 & H2 & _)]);
    [by left | by right].
Qed.

(** X14: after a tick of a running game that returned, no pipe is left
    whose right edge is left of x = -40, and the tick has added at most one
    pipe. *)
Theorem completed_tick_drops_offscreen_pipes E ext g dt :
  state g = PLAYING ->
  outcome_of (update dt E ext g) = Return tt ->
  let ps := pipes (state_of (update dt E ext g)) in
  Forall (fun p => Pipe.off_screen p = false) ps
  /\ (length ps <= S (length (pipes g)))%nat.
Proof.
  intros Hst Hret. cbv zeta.
  pose proof (update_after_spawn dt E ext g Hst) as H. cbv zeta in H.
  destruct (update_spawn_effect dt E ext g) as (t & qs & us & Hg1 & Hqs).
  destruct (outcome_of (update_spawn dt E ext g)) as [speed | e] eqn:Ho;
    [| rewrite H in Hret; done].
  destruct H as (Hp & _). rewrite Hp, Hg1. game_simpl. split.
  - apply Forall_forall. intros p Hin. apply list_elem_of_In, filter_In in Hin as [_ Hon].
    unfold on_screen in Hon. by destruct (Pipe.off_screen p).
  - etrans; [apply filter_length_le |]. rewrite length_map.
    destruct Hqs as [-> | (p & _ & ->)]; [lia |]. rewrite length_app. cbn. lia.
Qed.

Lemma completed_tick_drops_offscreen_pipes_witness :
  state game_with_pipe = PLAYING
  /\ outcome_of (update 0.016 sample_env no_file game_with_pipe) = Return tt
  /\ (length (pipes (state_of (update 0.016 sample_env no_file game_with_pipe))) <= 2)%nat.
Proof.
  assert (H : outcome_of (update 0.016 sample_env no_file game_with_pipe) = Return tt)
    by (vm_compute; reflexivity).
  split; [reflexivity |]. split; [exact H |].
  exact (proj2 (completed_tick_drops_offscreen_pipes sample_env no_file game_with_pipe
                  0.016 eq_refl H)).
Defined.

(** X15: however a tick ends, it moves score and high score only upwards
    and lives only downwards, and it changes the state only from PLAYING to
    GAME_OVER; it never touches the sound switch, the bird's x, radius or
    alive flag, the speed and interval attributes, [menu_select] or
    [last_time]. *)
Theorem tick_is_monotone dt E ext g :
  let g' := state_of (update dt E ext g) in
  score g <= score g' /\ high_score g <= high_score g' /\ lives g' <= lives g
  /\ (state g' = state g \/ (state g = PLAYING /\ state g' = GAME_OVER))
  /\ sound_on g' = sound_on g /\ last_time g' = last_time g
  /\ menu_select g' = menu_select g
  /\ Bird.x (bird g') = Bird.x (bird g)
  /\ Bird.radius (bird g') = Bird.radius (bird g)
  /\ Bird.alive (bird g') = Bird.alive (bird g)
  /\ pipe_speed g' = pipe_speed g /\ pipe_spawn_interval g' = pipe_spawn_interval g.
Proof.
  cbv zeta.
  destruct (tick_rel_update dt E ext g)
    as (A1 & A2 & A3 & A4 & A5 & A6 & A7 & A8 & A9 & A10 & A11 & A12).
  split_and!; try done.
  destruct A4 as [A4 | A4]; [by left |].
  destruct (state g) eqn:Hst; try (rewrite frozen_run by (by rewrite Hst); by left).
  by right.
Qed.

(** X16: over a whole session, restarts included, the in-memory high score
    never decreases. *)
Theorem highscore_never_decreases frames : forall E ext g,
  high_score g <= high_score (state_of (run frames E ext g)).
Proof.
  induction frames as [| [ms events] rest IH]; intros E ext g; [done |].
  cbn [run]. rewrite bind_run. unfold frame at 1. rewrite bind_run.
  pose proof (handle_input_highscore events E ext g) as H1.
  destruct (handle_input events E ext g) as [[[[] | e] ext1] g1];
    cbn [state_of snd] in H1; [| cbn; lia].
  destruct (tick_rel_update (Z2f ms / 1000) E ext1 g1) as (_ & H2 & _).
  destruct (update _ E ext1 g1) as [[[[] | e] ext2] g2];
    cbn [state_of snd] in H2; [| cbn; lia].
  specialize (IH E ext2 g2). lia.
Qed.

(** X17: a tick raises nothing but ValueError, OverflowError, TypeError or
    ZeroDivisionError, the errors of its arithmetic; [handle_input] raises
    nothing but SystemExit; so a session never ends with OSError: a disk
    that refuses the high score cannot end the game. *)
Theorem session_exceptions E ext g :
  (forall dt e, outcome_of (update dt E ext g) = Raise e ->
     e ∈ [ValueError; OverflowError; TypeError; ZeroDivisionError])
  /\ (forall events e, outcome_of (handle_input events E ext g) = Raise e ->
        e = SystemExit)
  /\ (forall frames e, outcome_of (run frames E ext g) = Raise e -> e <> OSError).
Proof.
  split_and!.
  - intros dt e He. apply raises_update in He. destruct e; try done; set_solver.
  - intros events e He. apply raises_handle_input in He. by destruct e.
  - intros frames. revert E ext g.
    induction frames as [| [ms events] rest IH]; intros E ext g e; [done |].
    cbn [run]. rewrite bind_run. unfold frame at 1. rewrite bind_run.
    pose proof (raises_handle_input events E ext g) as H1.
    destruct (handle_input events E ext g) as [[[[] | e1] ext1] g1].
    + pose proof (raises_update (Z2f ms / 1000) E ext1 g1) as H2.
      destruct (update _ E ext1 g1) as [[[[] | e2] ext2] g2]; [apply IH |].
      intros [= <-] ->. by specialize (H2 OSError eq_refl).
    + intros [= <-] ->. by specialize (H1 OSError eq_refl).
Qed.

(** X18: a tick of a running game that returns leaves the bird on or below
    the ceiling line: [bird.y < 20] is false afterwards. *)
Theorem completed_tick_holds_ceiling E ext g dt :
  state g = PLAYING ->
  outcome_of (update dt E ext g) = Return tt ->
  (Bird.y (bird (state_of (update dt E ext g))) <? 20)%float = false.
Proof.
  intros Hst Hret. destruct (update_returned dt E ext g Hst Hret) as (h & ->).
  unfold hold_at_ceiling. destruct (Bird.y (bird h) <? 20)%float eqn:Hy; done.
Qed.

Lemma completed_tick_holds_ceiling_witness :
  state playing_game = PLAYING
  /\ outcome_of (update (-1) sample_env no_file playing_game) = Return tt
  /\ (Bird.y (bird (state_of (update (-1) sample_env no_file playing_game))) <? 20)%float
     = false.
Proof.
  assert (H : outcome_of (update (-1) sample_env no_file playing_game) = Return tt)
    by (vm_compute; reflexivity).
  split; [reflexivity |]. split; [exact H |].
  exact (completed_tick_holds_ceiling sample_env no_file playing_game (-1) eq_refl H).
Defined.

(** X19: while the invulnerability timer is running and outlasts this
    tick's decrement ([t > 0] and [t - dt <= 0] false), the tick takes no
    life, whatever the bird touches and however the tick ends. *)
Theorem invulnerability_protects E ext g dt :
  (0 <? invulnerable_timer g)%float = true ->
  (invulnerable_timer g - dt <=? 0)%float = false ->
  lives (state_of (update dt E ext g)) = lives g.
Proof.
  intros Hpos Hlast.
  destruct (state g) eqn:Hst; try (by rewrite frozen_run by (by rewrite Hst)).
  set (P0 := fun h : Game =>
    invulnerable_timer h = invulnerable_timer g /\ lives h = lives g).
  set (P1 := fun h : Game =>
    (invulnerable_timer h <=? 0)%float = false /\ lives h = lives g).
  refine (update_phases P0 P1 (fun h => lives h = lives g) dt
            _ _ _ _ _ _ _ _ (fun h H => proj2 H) E ext g Hst (conj eq_refl eq_refl)).
  - intros E' ext' h Hh.
    by destruct (update_spawn_effect dt E' ext' h) as (t & ps & us & -> & _).
  - by intros h Hh.
  - intros speed E' ext' h Hh.
    by destruct (update_pipes_effect dt speed E' ext' h) as (n & q & ->).
  - intros speed E' ext' h Hh.
    by destruct (update_powerups_effect dt speed E' ext' h) as (us & ->).
  - by intros v h Hh.
  - intros h [Hi Hl]. unfold P1, tick_clocks. cbv beta zeta.
    rewrite Hi, Hpos. game_simpl. by split.
  - intros E' ext' h [Hi Hl].
    destruct (handle_collisions_effect E' ext' h) as (q & [-> | (Hv & _)]); [done |].
    unfold vulnerable in Hv. game_simpl. by rewrite Hi in Hv.
  - intros h Hh. unfold hold_at_ceiling. by destruct (_ <? 20)%float.
Qed.

Lemma invulnerability_protects_witness :
  (0 <? invulnerable_timer (set_invulnerable_timer 1.6 (set_bird low_bird playing_game)))%float
  = true
  /\ (invulnerable_timer (set_invulnerable_timer 1.6 (set_bird low_bird playing_game))
      - 0.016 <=? 0)%float = false
  /\ lives (state_of (update 0.016 sample_env no_file
                        (set_invulnerable_timer 1.6 (set_bird low_bird playing_game)))) = 3.
Proof.
  split; [reflexivity |]. split; [reflexivity |].
  exact (invulnerability_protects sample_env no_file
           (set_invulnerable_timer 1.6 (set_bird low_bird playing_game)) 0.016
           eq_refl eq_refl).
Defined.

(** ** Collision resolution *)

(** X20: however [handle_collisions] ends, the power-ups left are exactly
    those the bird's circle does not touch, in their order; every touched
    one has been applied, in order; the score has grown by 2 for each
    touched power-up of type score; the pipes and the bird's position are
    as before. *)
Theorem pickups_resolved E ext g :
  let circ := Bird.get_circle (bird g) in
  let g' := state_of (handle_collisions E ext g) in
  powerups g' = untouched circ (powerups g)
  /\ powerup_timers g' = refresh_all (touched circ (powerups g)) (powerup_timers g)
  /\ score g' = score g + bonus (touched circ (powerups g))
  /\ pipes g' = pipes g
  /\ Bird.x (bird g') = Bird.x (bird g) /\ Bird.y (bird g') = Bird.y (bird g).
Proof.
  cbv zeta. destruct (handle_collisions_effect E ext g) as (q & H). cbv zeta in H.
  destruct H as [-> | (_ & v & new & _ & ->)]; [by split_and! |].
  unfold after_hit, game_over_check. game_simpl.
  destruct (lives g - 1 <=? 0); [destruct (_ <? _) |]; game_simpl; by split_and!.
Qed.

(** X21: a hit always returns.  It takes one life, starts the
    invulnerability timer at INVULNERABILITY_AFTER_HIT and bounces the bird
    upwards, at -160 from a pipe and at -120 from the ground, without moving
    it; it adds 30 particles (pipe) or 18 (ground); with no life left the
    state is GAME_OVER, otherwise it is unchanged; score, pipes, power-ups
    and effect durations stay. *)
Theorem hit_effect E ext g :
  hit_outcome (-160) 30 g (pipe_hit E ext g)
  /\ hit_outcome (-120) 18 g (ground_hit E ext g).
Proof.
  assert (H : forall v n new ext', length new = n ->
             hit_outcome v n g (Return tt, ext', after_hit v new g)).
  { intros v n new ext' Hlen. unfold hit_outcome, after_hit, game_over_check.
    game_simpl.
    destruct (lives g - 1 <=? 0); [destruct (_ <? _) |]; game_simpl;
      rewrite length_app, Hlen; by split_and!. }
  split.
  - destruct (pipe_hit_effect E ext g) as (new & ext' & -> & Hlen & _). by apply H.
  - destruct (ground_hit_effect E ext g) as (new & ext' & -> & Hlen & _). by apply H.
Qed.

(** ** States the main loop reaches *)

(** X22: in every state a session reaches, lives lie within
    [0, START_LIVES], the score is not negative, and the state is GAME_OVER
    exactly when no life is left. *)
Theorem reachable_lives_and_state g :
  reachable g ->
  0 <= lives g <= START_LIVES /\ 0 <= score g
  /\ (state g = GAME_OVER <-> lives g = 0).
Proof.
  intros H. destruct (reachable_wellformed g H) as ((Hl & Hs) & Hsc & _). done.
Qed.

Lemma reachable_lives_and_state_witness :
  reachable sample_session /\ 0 <= lives sample_session <= START_LIVES.
Proof.
  assert (H : reachable sample_session).
  { exists sample_env, no_file, sample_frames, sample_start,
           (ext_of (Game_init sample_env no_file tt)).
    split; [vm_compute; reflexivity | reflexivity]. }
  split; [exact H |]. exact (proj1 (reachable_lives_and_state sample_session H)).
Defined.

(** X23: in every state a session reaches, every entry of the effect table
    is "shield", "slow" or "score" and holds a duration that is not
    [<= 0]: expired effects never stay in the table. *)
Theorem reachable_effect_table g :
  reachable g ->
  forall k t, powerup_timers g !! k = Some t ->
    k ∈ POWERUP_TYPES /\ (t <=? 0)%float = false.
Proof.
  intros H. destruct (reachable_wellformed g H) as (_ & _ & _ & Ht & _). exact Ht.
Qed.

Lemma reachable_effect_table_witness :
  reachable sample_session
  /\ forall k t, powerup_timers sample_session !! k = Some t ->
       k ∈ POWERUP_TYPES /\ (t <=? 0)%float = false.
Proof.
  assert (H : reachable sample_session).
  { exists sample_env, no_file, sample_frames, sample_start,
           (ext_of (Game_init sample_env no_file tt)).
    split; [vm_compute; reflexivity | reflexivity]. }
  split; [exact H |]. exact (reachable_effect_table sample_session H).
Defined.

(** X24: in every state a session reaches, the bird is at x = BIRD_X with
    radius BIRD_RADIUS and its velocity lies within [-1000, MAX_FALL_SPEED];
    every pipe has gap PIPE_GAP, width PIPE_WIDTH and a top height within
    [PIPE_MIN_TOP, HEIGHT - PIPE_GAP - 140]. *)
Theorem reachable_bird_and_pipes g :
  reachable g ->
  Bird.x (bird g) = Z2f BIRD_X /\ Bird.radius (bird g) = BIRD_RADIUS
  /\ (-1000 <=? Bird.vel (bird g))%float = true
  /\ (Bird.vel (bird g) <=? MAX_FALL_SPEED)%float = true
  /\ Forall (fun p => PIPE_MIN_TOP <= Pipe.top p <= HEIGHT - PIPE_GAP - 140
                       /\ Pipe.gap p = PIPE_GAP /\ Pipe.width p = PIPE_WIDTH)
            (pipes g).
Proof.
  intros H.
  destruct (reachable_wellformed g H) as (_ & _ & (H1 & H2 & H3 & H4) & _ & Hp & _).
  by split_and!.
Qed.

Lemma reachable_bird_and_pipes_witness :
  reachable sample_session /\ Bird.x (bird sample_session) = Z2f BIRD_X.
Proof.
  assert (H : reachable sample_session).
  { exists sample_env, no_file, sample_frames, sample_start,
           (ext_of (Game_init sample_env no_file tt)).
    split; [vm_compute; reflexivity | reflexivity]. }
  split; [exact H |]. exact (proj1 (reachable_bird_and_pipes sample_session H)).
Defined.

(** ** Power-ups in the tick *)

(** X25: [PowerUp.update] reads the clock once and moves the power-up left
    by [speed * dt]; it raises ValueError exactly when the argument of
    [math.sin], [now * 4 + x], is infinite, and then [x] is already moved
    while [y] is not; otherwise [y] swings by [sin(now * 4 + x) * 8 * dt].
    Type, radius and the collected flag never change, nor does the file. *)
Theorem powerup_update_effect dt speed E ext u :
  let r := PowerUp.update dt speed E ext u in
  let u' := state_of r in
  let a := (clock E (calls ext) * 4 + (PowerUp.x u - speed * dt))%float in
  ext_of r = {| hs_file := hs_file ext; calls := S (calls ext) |}
  /\ PowerUp.x u' = (PowerUp.x u - speed * dt)%float
  /\ PowerUp.type u' = PowerUp.type u /\ PowerUp.radius u' = PowerUp.radius u
  /\ PowerUp.collected u' = PowerUp.collected u
  /\ (is_infinity a = true ->
      outcome_of r = Raise ValueError /\ PowerUp.y u' = PowerUp.y u)
  /\ (is_infinity a = false ->
      outcome_of r = Return tt
      /\ PowerUp.y u' = (PowerUp.y u + math_sin E a * 8 * dt)%float).
Proof.
  cbv zeta. rewrite PowerUp_update_run. cbv zeta.
  destruct (is_infinity _); cbn; by split_and!.
Qed.

(** X26: the power-up loop of a tick changes nothing but the power-up list
    and leaves the file alone; it returns or raises ValueError.  It never
    adds a power-up nor changes a type or the order; when it returns, the
    power-ups left are those not left of x = -40 after the move, each
    [speed * dt] further left than before. *)
Theorem powerup_loop_effect dt speed E ext g :
  let r := update_powerups dt speed [] (powerups g) E ext g in
  let g' := state_of r in
  g' = set_powerups (powerups g') g
  /\ hs_file (ext_of r) = hs_file ext
  /\ (outcome_of r = Return tt \/ outcome_of r = Raise ValueError)
  /\ (PowerUp.type <$> powerups g') `sublist_of` (PowerUp.type <$> powerups g)
  /\ (outcome_of r = Return tt ->
      map (fun u => (PowerUp.x u, PowerUp.type u)) (powerups g')
      = moved_powerups dt speed (powerups g)).
Proof.
  cbv zeta.
  destruct (update_powerups_run dt speed (powerups g) [] E ext g eq_refl)
    as (stay & H1 & H2 & H3 & H4).
  destruct (update_powerups_effect dt speed E ext g) as (us & Hus).
  pose proof (preserves_update_powerups anything ltac:(done) ltac:(done)
                dt speed [] (powerups g) ltac:(done) E ext g) as [Hf _].
  cbn [app] in H1. rewrite H1.
  split_and!; try done.
  rewrite Hus in *. game_simpl. by rewrite H1.
Qed.
